(** * Polar Bear Chatbot: topic classification and knowledge extraction

    A shallow embedding of the classification code of [js/ai-service.js]
    ([preprocessMessage], [detectTopic], [fuzzyMatch], [levenshteinDistance])
    and of the blueprint code of [js/blueprint-generator.js]
    ([splitIntoSentences], [detectSectionForText], [buildSections],
    [translateViaOpenRouter], [maybeTranslateSections]), followed by the
    properties of these functions. *)

From Stdlib Require Import NArith ZArith List Ascii PrimFloat Uint63 Lia.
From stdpp Require Import base option list strings gmap.

Local Open Scope N_scope.

(** ** JavaScript strings and the built-ins the two files call *)

Module JS.

(** A JavaScript string is a sequence of UTF-16 code units. *)
Abbreviation jsstring := (list N).

(** Source literals are written as Rocq strings (UTF-8 bytes) and decoded to
    UTF-16 code units; bytes that do not form a sequence are kept as are. *)
Fixpoint decode_utf8 (bs : list N) : jsstring :=
  match bs with
  | [] => []
  | b0 :: t0 =>
    if b0 <? 0x80 then b0 :: decode_utf8 t0
    else
      match t0 with
      | [] => [b0]
      | b1 :: t1 =>
        if b0 <? 0xE0 then
          N.lor (N.shiftl (N.land b0 0x1F) 6) (N.land b1 0x3F) :: decode_utf8 t1
        else
          match t1 with
          | [] => [b0; b1]
          | b2 :: t2 =>
            if b0 <? 0xF0 then
              N.lor (N.shiftl (N.land b0 0x0F) 12)
                    (N.lor (N.shiftl (N.land b1 0x3F) 6) (N.land b2 0x3F))
              :: decode_utf8 t2
            else
              match t2 with
              | [] => [b0; b1; b2]
              | b3 :: t3 =>
                let cp :=
                  N.lor (N.shiftl (N.land b0 0x07) 18)
                        (N.lor (N.shiftl (N.land b1 0x3F) 12)
                               (N.lor (N.shiftl (N.land b2 0x3F) 6) (N.land b3 0x3F))) in
                let v := cp - 0x10000 in
                (0xD800 + N.shiftr v 10) :: (0xDC00 + N.land v 0x3FF) :: decode_utf8 t3
              end
          end
      end
  end.

Definition js (s : string) : jsstring :=
  decode_utf8 (map N_of_ascii (String.list_ascii_of_string s)).

(** [WhiteSpace] and [LineTerminator] code units: the class [\s] of a regular
    expression and the characters removed by [String.prototype.trim]. *)
Definition isSpace (c : N) : bool :=
  ((0x09 <=? c) && (c <=? 0x0D)) || (c =? 0x20) || (c =? 0xA0) || (c =? 0x1680)
  || ((0x2000 <=? c) && (c <=? 0x200A)) || (c =? 0x2028) || (c =? 0x2029)
  || (c =? 0x202F) || (c =? 0x205F) || (c =? 0x3000) || (c =? 0xFEFF).

(** The class [\w] of a regular expression without the [u] and [i] flags:
    [A-Za-z0-9_]. *)
Definition isWordChar (c : N) : bool :=
  ((0x41 <=? c) && (c <=? 0x5A)) || ((0x61 <=? c) && (c <=? 0x7A))
  || ((0x30 <=? c) && (c <=? 0x39)) || (c =? 0x5F).

(** [String.prototype.toLowerCase] on the Basic Latin and Latin-1 letters
    ([A-Z], and [U+00C0-U+00DE] but the multiplication sign); these are the
    letters of every literal in the two source files. Code units outside
    this range are left as they are. *)
Definition lowerUnit (c : N) : N :=
  if ((0x41 <=? c) && (c <=? 0x5A))
     || ((0xC0 <=? c) && (c <=? 0xDE) && negb (c =? 0xD7))
  then c + 0x20 else c.

Definition toLowerCase (s : jsstring) : jsstring := map lowerUnit s.

(** [s.startsWith(k)] *)
Fixpoint startsWith (s k : jsstring) : bool :=
  match k, s with
  | [], _ => true
  | _ :: _, [] => false
  | a :: k', b :: s' => (a =? b) && startsWith s' k'
  end.

(** [s.includes(k)]: [k] occurs in [s] as a contiguous run of code units. *)
Fixpoint includes (s k : jsstring) : bool :=
  startsWith s k ||
  match s with
  | [] => false
  | _ :: s' => includes s' k
  end.

(** [String.prototype.trim] *)
Fixpoint trimStart (s : jsstring) : jsstring :=
  match s with
  | [] => []
  | c :: s' => if isSpace c then trimStart s' else s
  end.

Fixpoint trimEnd (s : jsstring) : jsstring :=
  match s with
  | [] => []
  | c :: s' =>
    match trimEnd s' with
    | [] => if isSpace c then [] else [c]
    | r => c :: r
    end
  end.

Definition trim (s : jsstring) : jsstring := trimEnd (trimStart s).

(** A non-negative integer as a Number (an IEEE 754 binary64 value). *)
Definition toNumber (n : nat) : float :=
  PrimFloat.of_uint63 (Uint63.of_Z (Z.of_nat n)).

End JS.

Import JS.

(** ** [js/ai-service.js] *)

Module AIService.

(** The keys of [topicKeywords], in the order they are declared. *)
Inductive topic :=
  | greeting | name | location | food | skills | problems | message | future
  | math | cooking | weather | technology | general.

#[global] Instance topic_eq_dec : EqDecision topic.
Proof. solve_decision. Defined.

(** [levenshteinDistance]: the matrix is built row by row. [fillRow c str1
    prev left] gives [matrix[i][j..]] for the row [i] of the character [c] of
    [str2], where [prev] is [matrix[i-1][j-1..]] and [left] is
    [matrix[i][j-1]]. *)
Fixpoint fillRow (c : N) (str1 : jsstring) (prev : list nat) (left : nat) : list nat :=
  match str1, prev with
  | d :: str1', diag :: ((up :: _) as prev') =>
    let v :=
      if c =? d then diag
      else Nat.min (Nat.min (diag + 1) (left + 1)) (up + 1) in
    v :: fillRow c str1' prev' v
  | _, _ => []
  end.

Definition nextRow (str1 : jsstring) (acc : nat * list nat) (c : N) : nat * list nat :=
  let '(i, prev) := acc in (S i, S i :: fillRow c str1 prev (S i)).

Definition levenshteinDistance (str1 str2 : jsstring) : nat :=
  let row0 := seq 0 (S (length str1)) in
  let '(_, final) := foldl (nextRow str1) (0%nat, row0) str2 in
  List.last final 0%nat.

(** [fuzzyMatch(str1, str2, threshold = 0.6)], in binary64 arithmetic as the
    source computes it; [0x1.3333333333333p-1] is the Number that the
    literal [0.6] denotes. *)
Definition similarity (str1 str2 : jsstring) : float :=
  let distance := levenshteinDistance (toLowerCase str1) (toLowerCase str2) in
  let maxLength := Nat.max (length str1) (length str2) in
  PrimFloat.sub 1%float (PrimFloat.div (toNumber distance) (toNumber maxLength)).

Definition fuzzyMatch (str1 str2 : jsstring) : bool :=
  PrimFloat.leb 0x1.3333333333333p-1%float (similarity str1 str2).

(** [\b]: exactly one of the code units before and after the position is a
    word character; a missing code unit (either end of the string) is not
    one. *)
Definition wordBoundary (before after : option N) : bool :=
  xorb (from_option isWordChar false before) (from_option isWordChar false after).

(** [new RegExp('\\b' + typo + '\\b')] matches at the head of [s], the code
    unit before it being [before]. Every [typo] of the table is a non-empty
    run of letters, so the pattern has no special character. *)
Definition matchesWord (typo : jsstring) (before : option N) (s : jsstring) : bool :=
  wordBoundary before (head s)
  && startsWith s typo
  && wordBoundary (match last typo with Some c => Some c | None => before end)
                  (head (drop (length typo) s)).

(** [processed.replace(new RegExp('\\b' + typo + '\\b', 'g'), correction)]:
    the matches are found from left to right and do not overlap; [skip] is
    the number of code units of the current match that remain to be
    consumed. No [correction] of the table contains [$]. *)
Fixpoint replaceWord (typo correction : jsstring) (before : option N)
    (s : jsstring) (skip : nat) : jsstring :=
  match s with
  | [] => []
  | c :: s' =>
    match skip with
    | S k => replaceWord typo correction (Some c) s' k
    | O =>
      if matchesWord typo before s
      then correction ++ replaceWord typo correction (Some c) s' (length typo - 1)
      else c :: replaceWord typo correction (Some c) s' 0
    end
  end.

(** The table [corrections] of [preprocessMessage], in the order of
    [Object.entries]: the order of declaration (no key is repeated and none
    is an integer). *)
Definition corrections : list (jsstring * jsstring) :=
  map (fun '(typo, correction) => (js typo, js correction))
    [("wat", "what"); ("wht", "what"); ("whts", "whats"); ("u", "you");
     ("ur", "your"); ("r", "are"); ("n", "and"); ("thnks", "thanks");
     ("thx", "thanks"); ("pls", "please"); ("plz", "please"); ("frm", "from");
     ("liv", "live"); ("livng", "living"); ("eet", "eat");
     ("eeting", "eating"); ("hnt", "hunt"); ("hnting", "hunting");
     ("skil", "skill"); ("skils", "skills"); ("problm", "problem");
     ("problms", "problems"); ("chalenge", "challenge");
     ("chalenges", "challenges"); ("difcult", "difficult");
     ("mesage", "message"); ("mesages", "messages");
     ("undrstand", "understand"); ("undrstanding", "understanding");
     ("capabilites", "capabilities"); ("abilty", "ability");
     ("abilties", "abilities"); ("territor", "territory");
     ("territores", "territories"); ("locat", "locate");
     ("locaton", "location"); ("locatons", "locations"); ("hom", "home");
     ("homes", "homes"); ("plac", "place"); ("places", "places");
     ("nam", "name"); ("nams", "names"); ("nime", "name"); ("nimes", "names");
     ("ho", "who"); ("cal", "call"); ("caling", "calling");
     ("identif", "identify"); ("identifing", "identifying");
     ("favort", "favorite"); ("favortes", "favorites"); ("foood", "food");
     ("meel", "meal"); ("meels", "meals"); ("seel", "seal");
     ("seels", "seals"); ("prey", "prey"); ("preys", "preys");
     ("consume", "consume"); ("consuming", "consuming");
     ("specil", "special"); ("specials", "specials"); ("hel", "help");
     ("helping", "helping"); ("worr", "worry"); ("worring", "worrying");
     ("concer", "concern"); ("concerning", "concerning"); ("issu", "issue");
     ("issues", "issues"); ("troubl", "trouble"); ("troubles", "troubles");
     ("hardst", "hardest"); ("struggl", "struggle");
     ("struggling", "struggling"); ("wan", "want"); ("wanting", "wanting");
     ("shar", "share"); ("sharing", "sharing"); ("hop", "hope");
     ("hoping", "hoping"); ("drem", "dream"); ("dreaming", "dreaming");
     ("tomorow", "tomorrow"); ("comng", "coming"); ("ahed", "ahead");
     ("visin", "vision"); ("visions", "visions")].

(** [preprocessMessage] *)
Definition preprocessMessage (message : jsstring) : jsstring :=
  foldl (fun processed '(typo, correction) =>
           replaceWord typo correction None processed 0)
        (toLowerCase message) corrections.

(** The table [topicKeywords] of [detectTopic], as declared. *)
Definition topicKeywords : list (topic * list jsstring) :=
  [
    (greeting, map js
       ["hello"; "hi"; "hey"; "hola"; "que tal"; "como estas"; "how are you";
        "whats up"; "sup"; "good morning"; "good afternoon"; "good evening";
        "buenos dias"; "buenas tardes"; "buenas noches"; "hii"; "hiii";
        "heyy"; "heyyy"; "holaa"; "holaaa"; "hey there"; "hi there";
        "hello there"]);
    (name, map js
       ["your name"; "what are you"; "who are you"; "introduce yourself";
        "name"; "who"; "call"; "identify"; "nam"; "ho"; "cal"; "identif";
        "what is your name"; "whats your name"; "whats ur name";
        "what is ur name"; "tell me your name"; "who are u"; "what are u"]);
    (location, map js
       ["where do you"; "where are you"; "where do you live";
        "where do you spend"; "where in the arctic"; "where"; "live"; "home";
        "place"; "location"; "spend time"; "from"; "located"; "territory";
        "wer"; "liv"; "hom"; "plac"; "locat"; "territor"]);
    (food, map js
       ["favorite food"; "what do you eat"; "what do you hunt";
        "what do you like to eat"; "food"; "eat"; "hunt"; "hunting"; "meal";
        "diet"; "seal"; "prey"; "consume"; "favort"; "foood"; "eet"; "hnt";
        "huntng"; "meel"; "diet"; "seel"; "prey"; "consume"]);
    (skills, map js
       ["special skills"; "how do you survive"; "what skills";
        "survival skills"; "skill"; "survive"; "cold"; "ability"; "how";
        "can"; "survival"; "special"; "help"; "capabilities"; "specil";
        "skils"; "survive"; "abilty"; "hel"; "capabilites"]);
    (problems, map js
       ["biggest problem"; "what problems"; "what challenges"; "problem";
        "challenge"; "difficult"; "worry"; "concern"; "issue"; "trouble";
        "biggest"; "hardest"; "struggle"; "problm"; "chalenge"; "difcult";
        "worr"; "concer"; "issu"; "troubl"; "hardst"; "struggl"]);
    (message, map js
       ["one thing you want"; "what do you want humans";
        "what should humans know"; "message to humans"; "know"; "tell";
        "message"; "human"; "want"; "understand"; "say"; "humans"; "share";
        "mesage"; "humans"; "wan"; "understan"; "shar"]);
    (future, map js
       ["what do you hope"; "what do you dream"; "future arctic"; "future";
        "hope"; "dream"; "wish"; "tomorrow"; "coming"; "ahead"; "looks like";
        "will be"; "vision"; "hop"; "drem"; "wish"; "tomorow"; "comng";
        "ahed"; "visin"]);
    (math, map js
       ["math"; "mathematics"; "calculate"; "calculation"; "add"; "subtract";
        "multiply"; "divide"; "plus"; "minus"; "times"; "equals"; "number";
        "numbers"; "count"; "counting"; "sum"; "total"; "maths"; "calcular";
        "sumar"; "restar"; "multiplicar"; "dividir"; "mas"; "menos"; "por";
        "igual"; "numero"; "numeros"; "contar"; "suma"; "total"]);
    (cooking, map js
       ["cook"; "cooking"; "recipe"; "food"; "ingredients"; "kitchen"; "bake";
        "fry"; "boil"; "cocinar"; "receta"; "ingredientes"; "cocina";
        "hornear"; "freir"; "hervir"; "cocina"]);
    (weather, map js
       ["weather"; "climate"; "temperature"; "rain"; "snow"; "sunny";
        "cloudy"; "windy"; "clima"; "temperatura"; "lluvia"; "nieve";
        "soleado"; "nublado"; "ventoso"]);
    (technology, map js
       ["computer"; "phone"; "internet"; "software"; "app"; "programming";
        "code"; "computadora"; "telefono"; "programacion"; "codigo";
        "aplicacion"]);
    (general, map js
       ["what is"; "how do"; "why"; "when"; "where"; "que es"; "como";
        "por que"; "cuando"; "donde"; "explain"; "tell me about"; "explica";
        "cuentame sobre"])
  ].

(** [keywords.sort((a, b) => b.length - a.length)]: [Array.prototype.sort] is
    stable, so keywords of equal length keep their order. *)
Fixpoint insertByLength (k : jsstring) (sorted : list jsstring) : list jsstring :=
  match sorted with
  | [] => [k]
  | k' :: rest =>
    if (length k <? length k')%nat then k' :: insertByLength k rest
    else k :: sorted
  end.

Definition sortByLength (keywords : list jsstring) : list jsstring :=
  foldr insertByLength [] keywords.

(** One pass of [detectTopic] over the entries of the table: the first topic
    one of whose keywords passes the test [hit]. *)
Fixpoint firstTopic (hit : jsstring -> bool) (table : list (topic * list jsstring))
    : option topic :=
  match table with
  | [] => None
  | (t, keywords) :: table' =>
    if existsb hit keywords then Some t else firstTopic hit table'
  end.

(** The table after the loop of the first pass: every list has been sorted, in
    place. *)
Definition sortedTopicKeywords : list (topic * list jsstring) :=
  map (fun '(t, keywords) => (t, sortByLength keywords)) topicKeywords.

(** [detectTopic]. The sort of the first pass is in place, so the fuzzy pass
    reads the sorted lists. *)
Definition detectTopic (input : jsstring) : option topic :=
  match firstTopic (fun keyword => includes input keyword) sortedTopicKeywords with
  | Some t => Some t
  | None =>
    if includes input (js "what is your") || includes input (js "whats your")
       || includes input (js "what is ur") || includes input (js "whats ur")
    then Some name
    else firstTopic (fun keyword => fuzzyMatch input keyword) sortedTopicKeywords
  end.

(** The keyword list of a topic. *)
Definition keywordsOf (t : topic) : list jsstring :=
  match list_find (fun entry => entry.1 = t) topicKeywords with
  | Some (_, entry) => entry.2
  | None => []
  end.

(** The place of a topic in the table, and whether a keyword of a topic
    declared before [t] occurs in [s]. *)
Definition rank (t : topic) : nat :=
  match list_find (fun entry => entry.1 = t) topicKeywords with
  | Some (i, _) => i
  | None => length topicKeywords
  end.

Definition hitsTopic (s : jsstring) (entry : topic * list jsstring) : bool :=
  existsb (fun keyword => includes s keyword) entry.2.

Definition earlierHit (t : topic) (s : jsstring) : bool :=
  existsb (hitsTopic s) (take (rank t) topicKeywords).

(** The test of one keyword [k] of the topic [t]: [detectTopic] gives, for the
    normalized keyword, a topic that is not declared after [t], and gives
    [t] exactly when no topic declared before [t] has a keyword in it; no
    topic declared before the one it gives has a keyword in it, and the one
    it gives has one or is [t] (the fuzzy pass gives [t] for [favort], which
    is normalized to [favorite], where no keyword occurs). *)
Definition firstHitCheck (t : topic) (k : jsstring) : bool :=
  let s := preprocessMessage k in
  match detectTopic s with
  | Some t' =>
    (rank t' <=? rank t)%nat
    && eqb (bool_decide (t' = t)) (negb (earlierHit t s))
    && (existsb (fun keyword => includes s keyword) (keywordsOf t') || bool_decide (t' = t))
    && negb (earlierHit t' s)
  | None => false
  end.

End AIService.

(** ** [js/blueprint-generator.js] *)

Module BlueprintGenerator.

(** A message of the chat history. [role] is [None] when the field is absent
    or is not a string; [content] is [None] when the field is absent or
    [null], and is a string otherwise. *)
Record chatMessage := { role : option jsstring; content : option jsstring }.

#[global] Instance chatMessage_eq_dec : EqDecision chatMessage.
Proof. solve_decision. Defined.

(** A section map: the keys of the object in the order of [Object.keys],
    each with its array of strings. *)
Abbreviation sections := (list (jsstring * list jsstring)).

Definition maxItemsPerSection : nat := 3.

(** [this.keywords], in the order of [Object.entries]. *)
Definition keywords : list (jsstring * list jsstring) :=
  map (fun '(section, terms) => (js section, map js terms))
  [
    ("identity", ["your name"; "name"; "who are you"; "who are u"; "who are";
       "introduce"; "identity"; "cómo te llamas"; "como te llamas"; "nombre";
       "quién eres"; "quien eres"; "te llamas"]);
    ("habitat", ["where do you live"; "where are you"; "where in the arctic"; "where";
       "live"; "home"; "location"; "habitat"; "territory"; "sea ice";
       "ice floes"; "north"; "arctic"; "dónde vives"; "donde vives"; "vives";
       "hogar"; "lugar"; "hábitat"; "habitat"; "territorio"; "ártico";
       "artico"; "hielo"]);
    ("diet", ["what do you eat"; "eat"; "food"; "diet"; "meal"; "hunt"; "hunting";
       "prey"; "seal"; "seals"; "blubber"; "fish"; "qué comes"; "que comes";
       "comes"; "comer"; "comida"; "dieta"; "cazar"; "caza"; "presa";
       "presas"; "foca"; "focas"]);
    ("skills", ["skills"; "special skills"; "survive"; "survival"; "adapt";
       "adaptation"; "adaptations"; "ability"; "abilities"; "fur"; "swim";
       "paws"; "claws"; "smell"; "run"; "fast"; "strong"; "habilidades";
       "especiales"; "sobrevives"; "sobrevivir"; "adaptaciones"; "adaptación";
       "adaptacion"; "capacidad"; "capacidades"; "pelaje"; "nadar"; "patas";
       "garras"; "olfato"; "correr"]);
    ("challenges", ["biggest problem"; "what problems"; "what challenges"; "problem";
       "problems"; "challenge"; "challenges"; "difficult"; "concern"; "issue";
       "trouble"; "hardest"; "struggle"; "melting"; "climate change";
       "warming"; "ice is"; "sea ice"; "mayor problema"; "problema";
       "problemas"; "desafío"; "desafios"; "desafío"; "desafíos";
       "dificultad"; "preocupación"; "preocupaciones"; "calentamiento";
       "cambio climático"; "cambio climatico"; "deshielo"; "hielo"]);
    ("message", ["message to humans"; "what should humans know";
       "what do you want humans"; "humans should"; "tell humans"; "message";
       "humans"; "people should"; "mensaje a los humanos";
       "mensaje para los humanos"; "humanos deben";
       "qué quieres que los humanos"; "que quieres que los humanos";
       "mensaje"; "humanos"]);
    ("future", ["what do you hope"; "hope"; "dream"; "future"; "vision"; "wish";
       "tomorrow"; "ahead"; "futuro"; "esperas"; "esperanza"; "sueñas";
       "sueños"; "sueños"; "sueño"; "deseas"; "deseo"; "mañana"])
  ].

(** [text.replace(/\s+/g, ' ')]: every maximal run of white space becomes one
    space; [inRun] tells that the code unit before was white space. *)
Fixpoint collapseSpaces (inRun : bool) (s : jsstring) : jsstring :=
  match s with
  | [] => []
  | c :: s' =>
    if isSpace c then
      if inRun then collapseSpaces true s' else 0x20 :: collapseSpaces true s'
    else c :: collapseSpaces false s'
  end.

(** The class [[.!?]] of the sentence pattern. *)
Definition isTerminator (c : N) : bool := (c =? 0x2E) || (c =? 0x21) || (c =? 0x3F).

(** The longest prefix of [s] whose code units satisfy [p], and the rest. *)
Fixpoint span (p : N -> bool) (s : jsstring) : jsstring * jsstring :=
  match s with
  | [] => ([], [])
  | c :: s' =>
    if p c then let '(a, b) := span p s' in (c :: a, b) else ([], s)
  end.

(** One attempt of [/[^.!?]+[.!?]+|[^.!?]+$/] at the head of [s]: the match,
    if any. Both alternatives start with the longest run of characters that
    are not terminators, which must not be empty (giving characters back
    never helps: the next one would not be a terminator either); the first
    then takes the longest run of terminators, which must not be empty, and
    the second needs the end of the input. *)
Definition sentenceAt (s : jsstring) : option jsstring :=
  let '(body, rest) := span (fun c => negb (isTerminator c)) s in
  match body with
  | [] => None
  | _ :: _ =>
    let '(ends, _) := span isTerminator rest in
    match ends, rest with
    | _ :: _, _ => Some (body ++ ends)
    | [], [] => Some body
    | [], _ :: _ => None
    end
  end.

(** [normalized.match(/.../g)]: the matches from left to right, without
    overlap, as a list ([null] is the empty list). A position where the
    pattern fails is passed over; [skip] is the number of code units of the
    current match that remain to be consumed. *)
Fixpoint matchSentences (skip : nat) (s : jsstring) : list jsstring :=
  match s with
  | [] => []
  | _ :: s' =>
    match skip with
    | S k => matchSentences k s'
    | O =>
      match sentenceAt s with
      | Some m => m :: matchSentences (length m - 1) s'
      | None => matchSentences 0 s'
      end
    end
  end.

Definition nonEmpty (s : jsstring) : bool :=
  match s with [] => false | _ :: _ => true end.

(** [splitIntoSentences] *)
Definition splitIntoSentences (text : jsstring) : list jsstring :=
  let normalized := trim (collapseSpaces false text) in
  if nonEmpty normalized then
    match matchSentences 0 normalized with
    | [] => [normalized]
    | matches => filter (fun s => nonEmpty s = true) (map trim matches)
    end
  else [].

(** [detectSectionForText] *)
Fixpoint firstSection (textLower : jsstring) (table : list (jsstring * list jsstring))
    : option jsstring :=
  match table with
  | [] => None
  | (section, terms) :: table' =>
    if existsb (fun term => includes textLower term) terms then Some section
    else firstSection textLower table'
  end.

Definition detectSectionForText (textLower : jsstring) : option jsstring :=
  firstSection textLower keywords.

(** The seven [Set]s of [buildSections], each as the list of its elements
    in the order of insertion. *)
Definition sectionKeys : list jsstring :=
  map js ["identity"; "habitat"; "diet"; "skills"; "challenges"; "message"; "future"].

Definition emptySections : sections := map (fun key => (key, [])) sectionKeys.

(** [sections[section]] *)
Fixpoint getSection (section : jsstring) (secs : sections) : option (list jsstring) :=
  match secs with
  | [] => None
  | (key, items) :: secs' =>
    if bool_decide (key = section) then Some items else getSection section secs'
  end.

(** [set.add(sentence)]: an element already in the set keeps its place. *)
Definition setAdd (sentence : jsstring) (items : list jsstring) : list jsstring :=
  if bool_decide (sentence ∈ items) then items else items ++ [sentence].

(** [sections[section].add(sentence)]: the set read by [getSection] gets the
    sentence. *)
Fixpoint addToSection (section sentence : jsstring) (secs : sections) : sections :=
  match secs with
  | [] => []
  | (key, items) :: secs' =>
    if bool_decide (key = section) then (key, setAdd sentence items) :: secs'
    else (key, items) :: addToSection section sentence secs'
  end.

(** The body of the inner loop of [buildSections], for one sentence. *)
Definition addSentence (secs : sections) (sentence : jsstring) : sections :=
  match detectSectionForText (toLowerCase sentence) with
  | Some section =>
    match getSection section secs with
    | Some items =>
      if (length items <? maxItemsPerSection)%nat
      then addToSection section sentence secs
      else secs
    | None => secs
    end
  | None => secs
  end.

(** [m && (m.role === 'assistant' || m.role === 'bot')]; a [null] or
    [undefined] entry of the array is [None]. *)
Definition isAssistant (m : option chatMessage) : bool :=
  match m with
  | Some msg =>
    bool_decide (role msg = Some (js "assistant"))
    || bool_decide (role msg = Some (js "bot"))
  | None => false
  end.

(** The body of the outer loop, for one message that passed the filter. *)
Definition addMessage (secs : sections) (m : option chatMessage) : sections :=
  match m with
  | Some msg =>
    foldl addSentence secs (splitIntoSentences (default [] (content msg)))
  | None => secs
  end.

(** [buildSections]: the result lists the keys in the order of
    [Object.keys(sections)] and each set in the order of [Array.from]. *)
Definition buildSections (messages : list (option chatMessage)) : sections :=
  let assistantMessages := filter (fun m => isAssistant m = true) messages in
  foldl addMessage emptySections assistantMessages.

(** Two section maps with the same keys, each section of the first being a
    prefix of the section of the second. *)
Definition extends (a b : sections) : Prop :=
  Forall2 (fun x y => x.1 = y.1 ∧ x.2 `prefix_of` y.2) a b.

(** The code units of a sentence: those before its terminators, and the
    terminators. *)
Definition isBody (s : jsstring) : Prop := Forall (fun c => isTerminator c = false) s.
Definition isEnding (s : jsstring) : Prop := Forall (fun c => isTerminator c = true) s.

(** A text cut into sentences, each a body and its terminators, none empty. *)
Definition wellCut (segments : list (jsstring * jsstring)) : Prop :=
  Forall (fun seg => seg.1 ≠ [] ∧ isBody seg.1 ∧ seg.2 ≠ [] ∧ isEnding seg.2) segments.

Definition sentencesOf (segments : list (jsstring * jsstring)) (fragment : jsstring)
    : list jsstring :=
  map (fun seg => seg.1 ++ seg.2) segments
  ++ (if nonEmpty fragment then [fragment] else []).

(** *** The translation of the sections *)

(** A value read from a JSON text, or [undefined]. *)
#[warnings="-register-all"] Inductive value :=
  | VUndefined
  | VNull
  | VBool (b : bool)
  | VNum (x : float)
  | VStr (s : jsstring)
  | VArr (items : list value)
  | VObj (props : list (jsstring * value)).

(** [ToBoolean] *)
Definition truthy (v : value) : bool :=
  match v with
  | VUndefined | VNull => false
  | VBool b => b
  | VNum x => negb (PrimFloat.eqb x 0%float || PrimFloat.is_nan x)
  | VStr s => nonEmpty s
  | VArr _ | VObj _ => true
  end.

Definition isDigit (c : N) : bool := (0x30 <=? c) && (c <=? 0x39).

(** A property key that is a canonical array index: ["0"], or digits the
    first of which is not [0]. *)
Definition parseIndex (key : jsstring) : option nat :=
  match key with
  | [] => None
  | c :: rest =>
    if forallb isDigit key && (negb (c =? 0x30) || bool_decide (rest = [])) then
      Some (N.to_nat (foldl (fun n d => 10 * n + (d - 0x30)) 0 key))
    else None
  end.

Fixpoint lookupProp (key : jsstring) (props : list (jsstring * value)) : option value :=
  match props with
  | [] => None
  | (k, v) :: props' => if bool_decide (k = key) then Some v else lookupProp key props'
  end.

(** [v[key]]; [None] is the [TypeError] of a read on [null] or [undefined].
    The keys of an object are distinct. A property that only the prototype
    has reads as [undefined] here: no such property is an array or is among
    the names the code reads ([choices], [0], [message], [content],
    [sections]). *)
Definition getProp (v : value) (key : jsstring) : option value :=
  match v with
  | VUndefined | VNull => None
  | VBool _ | VNum _ => Some VUndefined
  | VStr s =>
    if bool_decide (key = js "length") then Some (VNum (toNumber (length s)))
    else
      match parseIndex key with
      | Some i => Some (match s !! i with Some c => VStr [c] | None => VUndefined end)
      | None => Some VUndefined
      end
  | VArr items =>
    if bool_decide (key = js "length") then Some (VNum (toNumber (length items)))
    else
      match parseIndex key with
      | Some i => Some (default VUndefined (items !! i))
      | None => Some VUndefined
      end
  | VObj props => Some (default VUndefined (lookupProp key props))
  end.

(** [a && b], where [b] is evaluated only when [a] is truthy. *)
Definition andAlso (a : value) (b : value -> option value) : option value :=
  if truthy a then b a else Some a.

(** [(data && data.choices && data.choices[0] && data.choices[0].message
     && data.choices[0].message.content) || ''] *)
Definition messageContent (data : value) : option value :=
  c ← andAlso data (fun d =>
        choices ← getProp d (js "choices");
        andAlso choices (fun ch =>
          first ← getProp ch (js "0");
          andAlso first (fun f =>
            msg ← getProp f (js "message");
            andAlso msg (fun m => getProp m (js "content")))));
  Some (if truthy c then c else VStr []).

(** The longest prefix of [s] that ends with [c]. *)
Fixpoint uptoLast (c : N) (s : jsstring) : option jsstring :=
  match s with
  | [] => None
  | d :: s' =>
    match uptoLast c s' with
    | Some r => Some (d :: r)
    | None => if d =? c then Some [d] else None
    end
  end.

(** [content.match(/\{[\s\S]*\}/)]: from the first opening brace to the last
    closing brace after it. *)
Fixpoint matchBraces (content : jsstring) : option jsstring :=
  match content with
  | [] => None
  | c :: rest =>
    if c =? 0x7B then
      match uptoLast 0x7D rest with
      | Some r => Some (c :: r)
      | None => None
      end
    else matchBraces rest
  end.

(** [JSON.stringify] of a section map (the cache key and the request). *)
Definition hexDigit (n : N) : N := if n <? 10 then 0x30 + n else 0x61 + (n - 10).

Definition unicodeEscape (c : N) : jsstring :=
  [0x5C; 0x75; hexDigit (N.land (N.shiftr c 12) 0xF); hexDigit (N.land (N.shiftr c 8) 0xF);
   hexDigit (N.land (N.shiftr c 4) 0xF); hexDigit (N.land c 0xF)].

Definition isLeadSurrogate (c : N) : bool := (0xD800 <=? c) && (c <=? 0xDBFF).
Definition isTrailSurrogate (c : N) : bool := (0xDC00 <=? c) && (c <=? 0xDFFF).

Definition quoteUnit (c : N) : jsstring :=
  if c =? 0x08 then js "\b" else if c =? 0x09 then js "\t"
  else if c =? 0x0A then js "\n" else if c =? 0x0C then js "\f"
  else if c =? 0x0D then js "\r" else if c =? 0x22 then [0x5C; 0x22]
  else if c =? 0x5C then [0x5C; 0x5C]
  else if (c <? 0x20) || isLeadSurrogate c || isTrailSurrogate c then unicodeEscape c
  else [c].

Fixpoint quoteUnits (s : jsstring) : jsstring :=
  match s with
  | [] => []
  | c :: s' =>
    match s' with
    | d :: s'' =>
      if isLeadSurrogate c && isTrailSurrogate d then c :: d :: quoteUnits s''
      else quoteUnit c ++ quoteUnits s'
    | [] => quoteUnit c
    end
  end.

Definition quoteJSONString (s : jsstring) : jsstring := [0x22] ++ quoteUnits s ++ [0x22].

Fixpoint joinWith (sep : jsstring) (parts : list jsstring) : jsstring :=
  match parts with
  | [] => []
  | [p] => p
  | p :: parts' => p ++ sep ++ joinWith sep parts'
  end.

Definition JSON_stringify (secs : sections) : jsstring :=
  js "{"
  ++ joinWith (js ",")
       (map (fun '(key, items) =>
               quoteJSONString key ++ js ":[" ++ joinWith (js ",") (map quoteJSONString items)
               ++ js "]")
            secs)
  ++ js "}".

(** *** Reading a quoted string back

    The inverse of [quoteUnits], for the proof that two section maps do not
    share a cache key. *)

Definition hexValue (h : N) : option N :=
  if (0x30 <=? h) && (h <=? 0x39) then Some (h - 0x30)
  else if (0x61 <=? h) && (h <=? 0x66) then Some (h - 0x61 + 10)
  else None.

Definition hexUnit (h1 h2 h3 h4 : N) : option N :=
  match hexValue h1, hexValue h2, hexValue h3, hexValue h4 with
  | Some a, Some b, Some c, Some d => Some (4096 * a + 256 * b + 16 * c + d)
  | _, _, _, _ => None
  end.

Definition escapedUnit (e : N) : option N :=
  if e =? 0x62 then Some 0x08 else if e =? 0x74 then Some 0x09
  else if e =? 0x6E then Some 0x0A else if e =? 0x66 then Some 0x0C
  else if e =? 0x72 then Some 0x0D else if e =? 0x22 then Some 0x22
  else if e =? 0x5C then Some 0x5C else None.

(** The string whose quoted form, without its opening quote, is at the head
    of [s], and what follows its closing quote. *)
Fixpoint unquoteUnits (s : jsstring) : option (jsstring * jsstring) :=
  match s with
  | [] => None
  | c :: s' =>
    if c =? 0x22 then Some ([], s')
    else if c =? 0x5C then
      match s' with
      | [] => None
      | e :: s'' =>
        if e =? 0x75 then
          match s'' with
          | h1 :: h2 :: h3 :: h4 :: s''' =>
            match hexUnit h1 h2 h3 h4, unquoteUnits s''' with
            | Some u, Some (t, rest) => Some (u :: t, rest)
            | _, _ => None
            end
          | _ => None
          end
        else
          match escapedUnit e, unquoteUnits s'' with
          | Some u, Some (t, rest) => Some (u :: t, rest)
          | _, _ => None
          end
      end
    else
      match unquoteUnits s' with
      | Some (t, rest) => Some (c :: t, rest)
      | None => None
      end
  end.

(** The test of one code unit: its quoted form is read back as itself. *)
Definition quoteUnitCheck (c : N) : bool :=
  bool_decide (unquoteUnits (quoteUnit c ++ [0x22]) = Some ([c], [])).

(** [{ apiKey: svc.apiKey, baseURL: svc.baseURL, model: svc.model }]; the key
    is [null] until one is set. *)
Record aiConfig := { apiKey : option jsstring; baseURL : jsstring; model : jsstring }.

(** What the generator reads from the page: [getCurrentLanguage()] and
    [getAIConfig()]. *)
Record environment := { currentLanguage : jsstring; getAIConfig : option aiConfig }.

(** The request sent to the translation capability. *)
Record request := { reqConfig : aiConfig; reqTargetName : jsstring; reqSections : sections }.

(** What [fetch] and [response.json()] give. *)
Inductive fetchResult :=
  | FetchRejected
  | Response (ok : bool) (body : option value).

(** The generator's cache, and the number of calls of [fetch] so far. *)
Record state := { translationCache : gmap jsstring sections; fetchCalls : nat }.

Definition initialState : state := {| translationCache := ∅; fetchCalls := 0 |}.

Section Localizer.

(** The built-ins and the outside world the translation depends on:
    [JSON.parse] ([None] when it throws), the conversion of a Number to a
    string, and [fetch] with [response.json()], which answer the [n]-th call
    as they please. *)
Variable JSON_parse : jsstring -> option value.
Variable Number_toString : float -> jsstring.
Variable fetch : nat -> request -> fetchResult.

(** [String(x)]; [None] is the [TypeError] of an object that has a property
    [toString] of its own: a value read from a JSON text is never a function,
    and [Object.prototype.valueOf], tried next, gives the object back. With
    the [toString] of the prototype an object gives [[object Object]]. An
    array joins the strings of its items, [null] giving the empty string, and
    throws when one of them does. *)
Fixpoint ToString (v : value) : option jsstring :=
  match v with
  | VUndefined => Some (js "undefined")
  | VNull => Some (js "null")
  | VBool b => Some (if b then js "true" else js "false")
  | VNum x => Some (Number_toString x)
  | VStr s => Some s
  | VArr items =>
    parts ← mapM (fun item =>
                    match item with
                    | VUndefined | VNull => Some []
                    | _ => ToString item
                    end)
                 items;
    Some (joinWith (js ",") parts)
  | VObj props =>
    match lookupProp (js "toString") props with
    | Some _ => None
    | None => Some (js "[object Object]")
    end
  end.

(** The loop that builds [result] in [translateViaOpenRouter]; [None] when
    [out[key]] or [String(x)] throws. The items of [sections[key]] are
    strings, which [String] leaves as they are. *)
Fixpoint validate (out : value) (secs : sections) : option sections :=
  match secs with
  | [] => Some []
  | (key, items) :: secs' =>
    v ← getProp out key;
    arr ← match v with
          | VArr translated => mapM ToString translated
          | _ => Some items
          end;
    result ← validate out secs';
    Some ((key, arr) :: result)
  end.

(** The value of [out] in [translateViaOpenRouter], from the answer of
    [fetch] on; [None] when a step before the loop throws. *)
Definition structuredOutput (reply : fetchResult) : option value :=
  match reply with
  | FetchRejected => None
  | Response false _ => None
  | Response true None => None
  | Response true (Some data) =>
    content ← messageContent data;
    match content with
    | VStr text =>
      let jsonText := default text (matchBraces text) in
      parsed ← JSON_parse jsonText;
      given ← getProp parsed (js "sections");
      Some (if truthy given then given else parsed)
    | _ => None
    end
  end.

(** [translateViaOpenRouter], as the [n]-th call of [fetch]; [None] when it
    throws. *)
Definition translateViaOpenRouter (secs : sections) (lang : jsstring) (cfg : aiConfig)
    (n : nat) : option sections :=
  let targetName := if bool_decide (lang = js "es") then js "Spanish" else js "English" in
  let reply :=
    fetch n {| reqConfig := cfg; reqTargetName := targetName; reqSections := secs |} in
  out ← structuredOutput reply;
  validate out secs.

(** The failures of the capability: [fetch] rejects, the answer is an HTTP
    error, its body is not JSON, or the text of the message is not JSON. *)
Inductive failure : fetchResult -> Prop :=
  | failure_rejected : failure FetchRejected
  | failure_http body : failure (Response false body)
  | failure_body : failure (Response true None)
  | failure_parse data text :
      messageContent data = Some (VStr text) ->
      JSON_parse (default text (matchBraces text)) = None ->
      failure (Response true (Some data)).

(** [(targetLang || this.getCurrentLanguage()).toLowerCase()] *)
Definition effectiveLanguage (env : environment) (targetLang : option jsstring) : jsstring :=
  toLowerCase
    (match targetLang with
     | Some l => if nonEmpty l then l else currentLanguage env
     | None => currentLanguage env
     end).

Definition cacheKey (secs : sections) (lang : jsstring) : jsstring :=
  JSON_stringify secs ++ js "::" ++ lang.

Definition hasApiKey (cfg : aiConfig) : bool :=
  match apiKey cfg with
  | Some k => nonEmpty k
  | None => false
  end.

(** [Object.values(sections).reduce((n, arr) => n + (arr ? arr.length : 0), 0)] *)
Definition totalCount (secs : sections) : nat :=
  foldl (fun n '(_, arr) => (n + length arr)%nat) 0%nat secs.

(** [maybeTranslateSections], for a section map that is not [null]. *)
Definition maybeTranslateSections (env : environment) (secs : sections)
    (targetLang : option jsstring) (st : state) : sections * state :=
  let lang := effectiveLanguage env targetLang in
  if (totalCount secs =? 0)%nat then (secs, st)
  else
    let key := cacheKey secs lang in
    match translationCache st !! key with
    | Some cached => (cached, st)
    | None =>
      if negb (bool_decide (lang = js "en")) && negb (bool_decide (lang = js "es"))
      then (secs, st)
      else
        match getAIConfig env with
        | None => (secs, st)
        | Some cfg =>
          if negb (hasApiKey cfg) then (secs, st)
          else
            let calls := S (fetchCalls st) in
            match translateViaOpenRouter secs lang cfg (fetchCalls st) with
            | Some translated =>
              (translated,
               {| translationCache := <[key := translated]> (translationCache st);
                  fetchCalls := calls |})
            | None => (secs, {| translationCache := translationCache st; fetchCalls := calls |})
            end
        end
    end.

(** A sequence of calls on one generator, each with the page as it is then;
    the results, in order. *)
Fixpoint runCalls (calls : list (environment * sections * option jsstring)) (st : state)
    : list sections * state :=
  match calls with
  | [] => ([], st)
  | (env, secs, targetLang) :: calls' =>
    let '(r, st1) := maybeTranslateSections env secs targetLang st in
    let '(rs, st2) := runCalls calls' st1 in
    (r :: rs, st2)
  end.

End Localizer.

(** *** The markup *)

(** [s.replace(/c/g, replacement)], for a pattern that is the one character
    [c] and a replacement without [$]. *)
Fixpoint replaceUnit (c : N) (replacement : jsstring) (s : jsstring) : jsstring :=
  match s with
  | [] => []
  | d :: s' => (if d =? c then replacement else [d]) ++ replaceUnit c replacement s'
  end.

(** [escapeHtml], for an argument that is a string. *)
Definition escapeHtml (str : jsstring) : jsstring :=
  replaceUnit 0x27 (js "&#39;")
    (replaceUnit 0x22 (js "&quot;")
       (replaceUnit 0x3E (js "&gt;")
          (replaceUnit 0x3C (js "&lt;")
             (replaceUnit 0x26 (js "&amp;") str)))).

(** The entity of one character, for the comparison with [escapeHtml]. *)
Definition entityOf (c : N) : jsstring :=
  if c =? 0x26 then js "&amp;"
  else if c =? 0x3C then js "&lt;"
  else if c =? 0x3E then js "&gt;"
  else if c =? 0x22 then js "&quot;"
  else if c =? 0x27 then js "&#39;"
  else [c].

End BlueprintGenerator.

(** ** [js/ai-service.js]: the replies *)

Module Responder.
Import AIService BlueprintGenerator.

(** A message as the chat keeps it, and as it is sent to the capability. *)
Record storedMessage := { role : jsstring; content : jsstring; timestamp : jsstring }.
Record apiMessage := { apiRole : jsstring; apiContent : jsstring }.

(** [conversationHistory.slice(-10)] *)
Definition recentHistory (conversationHistory : list storedMessage) : list storedMessage :=
  drop (length conversationHistory - 10) conversationHistory.

(** [buildMessageHistory]; [systemPrompt] is the value of
    [this.getSystemPrompt()]. *)
Definition buildMessageHistory (systemPrompt : jsstring)
    (conversationHistory : list storedMessage) (userMessage : jsstring) : list apiMessage :=
  [{| apiRole := js "system"; apiContent := systemPrompt |}]
  ++ map (fun msg => {| apiRole := role msg; apiContent := content msg |})
         (recentHistory conversationHistory)
  ++ [{| apiRole := js "user"; apiContent := userMessage |}].

(** The table [spanishResponses] of [getFallbackResponse]. *)
Definition spanishResponses : list (topic * list jsstring) :=
  map (fun '(t, responses) => (t, map js responses))
  [
    (greeting,
     ["Â¡Hola! Â¡QuÃ© gusto conocerte! Soy Polar ðŸ»â€â„ï¸ Â¿CÃ³mo estÃ¡s hoy?";
      "Â¡Hola! Me da mucho gusto charlar contigo. Soy Polar, tu oso polar amigable ðŸ˜Š";
      "Â¡QuÃ© tal! Soy Polar ðŸ»â€â„ï¸ Â¿En quÃ© puedo ayudarte hoy?";
      "Â¡Hola! Â¡Encantado de conocerte! Soy Polar, siempre listo para una buena conversaciÃ³n ðŸ‘‹";
      "Â¡Hola! Soy Polar ðŸ»â€â„ï¸ Â¿QuÃ© te gustarÃ­a platicar hoy?"]);
    (name,
     ["Â¡Soy Polar! Encantado de conocerte en esta tundra digital. ðŸ»â€â„ï¸";
      "Me llamo Polar: tu oso amistoso del lejano norte. â„ï¸";
      "Â¡Hola! Soy Polar, tu compaÃ±ero Ã¡rtico y guÃ­a de ingreso. ðŸŒ¨ï¸";
      "Soy Polar, un oso polar al que le encanta ayudar con ingresos. ðŸ»â€â„ï¸";
      "Â¡Polar aquÃ­! Me encanta compartir sobre la vida en el Ãrtico. â„ï¸"]);
    (location,
     ["Deambulo por el hielo marino en Svalbard y el norte de CanadÃ¡. ðŸ»â€â„ï¸";
      "Me encontrarÃ¡s cazando sobre el hielo cerca de Groenlandia y el Ãrtico canadiense. â„ï¸";
      "Paso mis dÃ­as en mares helados entre Alaska y Rusia, siguiendo a las focas. ðŸŒ¨ï¸";
      "Mi territorio abarca el OcÃ©ano Ãrtico, del Mar de Beaufort al Mar de Barents. ðŸ»â€â„ï¸";
      "Patrullo tÃ©mpanos alrededor del Polo Norte y aguas Ã¡rticas cercanas. â„ï¸"]);
    (food,
     ["Mis favoritas son las focas anilladas: mucha energÃ­a para el invierno. ðŸŸ";
      "Me encanta cazar focas barbudas en los tÃ©mpanos: Â¡todo un reto! ðŸ»â€â„ï¸";
      "La grasa de foca es mi base: me da la energÃ­a para sobrevivir. â„ï¸";
      "Cazo sobre todo focas anilladas y barbudas, a veces morsa o beluga. ðŸŸ";
      "Mi dieta es alta en grasa gracias a las focas: clave en el Ãrtico. ðŸ»â€â„ï¸"]);
    (skills,
     ["Mi gruesa capa y grasa me abrigan; puedo nadar horas en agua helada. â„ï¸";
      "Tengo paciencia: espero junto a agujeros de respiraciÃ³n de focas. ðŸ»â€â„ï¸";
      "Garras potentes para romper hielo y un olfato que detecta a kilÃ³metros. ðŸŒ¨ï¸";
      "Nado hasta 100 km sin parar y veo bien bajo el agua al cazar. ðŸŸ";
      "Mis grandes patas son como raquetas; puedo correr hasta 40 km/h sobre hielo. â„ï¸"]);
    (problems,
     ["El hielo se derrite mÃ¡s rÃ¡pido; cazar y viajar es mÃ¡s difÃ­cil. ðŸŒ¨ï¸";
      "El cambio climÃ¡tico reduce mis zonas de caza; nado distancias mayores. ðŸ»â€â„ï¸";
      "El hielo tarda mÃ¡s en formarse y se rompe antes; menos tiempo para engordar. â„ï¸";
      "La contaminaciÃ³n y perforaciÃ³n amenazan nuestro entorno de caza. ðŸŒ¨ï¸";
      "El deshielo del permafrost afecta rutas tradicionales. ðŸ»â€â„ï¸"]);
    (message,
     ["Ayuda a proteger nuestro hogar Ã¡rtico; toda acciÃ³n climÃ¡tica cuenta. â„ï¸";
      "El hielo es mi mundo entero: necesitamos mantenerlo congelado. ðŸ»â€â„ï¸";
      "Tus decisiones importan; reducir emisiones preserva el Ãrtico. ðŸŒ¨ï¸";
      "El Ãrtico se calienta el doble de rÃ¡pido; necesitamos que se entienda. â„ï¸";
      "Apoya la conservaciÃ³n: somos sÃ­mbolo de lo que se pierde con el clima. ðŸ»â€â„ï¸"]);
    (future,
     ["Espero un Ãrtico con hielo estable y muchas focas para cazar. â„ï¸";
      "SueÃ±o con humanos y osos trabajando juntos por el planeta. ðŸ»â€â„ï¸";
      "Quiero ver hielo marino sano en todas las estaciones. ðŸŒ¨ï¸";
      "Deseo que la acciÃ³n climÃ¡tica preserve el ecosistema Ã¡rtico. â„ï¸";
      "Imagino un Ãrtico sostenible para fauna y comunidades humanas. ðŸ»â€â„ï¸"]);
    (math,
     ["Â¡Las matemÃ¡ticas son geniales! Puedo ayudarte con cÃ¡lculos bÃ¡sicos. Â¿QuÃ© necesitas resolver? ðŸ»â€â„ï¸";
      "Me encantan los nÃºmeros! Soy bueno con sumas, restas, multiplicaciones y divisiones. Â¿QuÃ© quieres calcular? â„ï¸";
      "Â¡Las matemÃ¡ticas son Ãºtiles incluso en el Ãrtico! Â¿En quÃ© puedo ayudarte? ðŸ»â€â„ï¸";
      "Soy bueno con los nÃºmeros! Â¿QuÃ© operaciÃ³n matemÃ¡tica necesitas? â„ï¸";
      "Â¡Las matemÃ¡ticas me ayudan a contar focas! Â¿QuÃ© quieres calcular? ðŸ»â€â„ï¸"]);
    (cooking,
     ["Â¡Me encanta hablar de comida! Aunque yo cazo focas, puedo ayudarte con recetas humanas. Â¿QuÃ© quieres cocinar? ðŸ»â€â„ï¸";
      "Â¡La cocina es genial! Puedo darte consejos bÃ¡sicos de cocina. Â¿QuÃ© necesitas saber? â„ï¸";
      "Aunque soy carnÃ­voro, entiendo de cocina! Â¿QuÃ© receta te interesa? ðŸ»â€â„ï¸";
      "Â¡Cocinar es un arte! Â¿En quÃ© puedo ayudarte en la cocina? â„ï¸";
      "Me gusta hablar de comida! Â¿QuÃ© quieres preparar? ðŸ»â€â„ï¸"]);
    (weather,
     ["Â¡El clima es mi especialidad! Vivo en el lugar mÃ¡s frÃ­o del planeta. Â¿QuÃ© quieres saber del clima? â„ï¸";
      "Â¡Soy experto en clima frÃ­o! Â¿Tienes preguntas sobre el tiempo? ðŸ»â€â„ï¸";
      "Â¡El clima Ã¡rtico es mi vida! Â¿QuÃ© te interesa saber? â„ï¸";
      "Â¡Conozco mucho sobre clima! Â¿En quÃ© puedo ayudarte? ðŸ»â€â„ï¸";
      "Â¡El clima es fascinante! Â¿QuÃ© quieres saber? â„ï¸"]);
    (technology,
     ["Â¡La tecnologÃ­a es genial! Aunque vivo en el Ãrtico, entiendo de computadoras y apps. Â¿QuÃ© necesitas saber? ðŸ»â€â„ï¸";
      "Â¡Me gusta la tecnologÃ­a! Puedo ayudarte con conceptos bÃ¡sicos. Â¿QuÃ© te interesa? â„ï¸";
      "Â¡La tecnologÃ­a conecta el mundo! Â¿En quÃ© puedo ayudarte? ðŸ»â€â„ï¸";
      "Â¡Soy un oso polar moderno! Â¿QuÃ© quieres saber sobre tecnologÃ­a? â„ï¸";
      "Â¡La tecnologÃ­a es increÃ­ble! Â¿QuÃ© necesitas entender? ðŸ»â€â„ï¸"]);
    (general,
     ["Â¡Excelente pregunta! Aunque soy un oso polar, puedo ayudarte con muchas cosas. Â¿QuÃ© mÃ¡s quieres saber? ðŸ»â€â„ï¸";
      "Â¡Me gusta aprender! Â¿Puedes ser mÃ¡s especÃ­fico para ayudarte mejor? â„ï¸";
      "Â¡Interesante! Â¿PodrÃ­as darme mÃ¡s detalles para darte una mejor respuesta? ðŸ»â€â„ï¸";
      "Â¡Buena pregunta! Â¿En quÃ© aspecto especÃ­fico te puedo ayudar? â„ï¸";
      "Â¡Me encanta ayudar! Â¿Puedes explicarme mÃ¡s sobre lo que necesitas? ðŸ»â€â„ï¸"])
  ].

(** The pool [generalEs] of [getFallbackResponse]. *)
Definition generalEs : list jsstring :=
  map js
    ["Â¡Hola! Â¡QuÃ© gusto conocerte! Soy Polar ðŸ»â€â„ï¸ Â¿CÃ³mo estÃ¡s hoy?";
     "Â¡Hola! Me da mucho gusto charlar contigo. Soy Polar, tu oso polar amigable ðŸ˜Š";
     "Â¡QuÃ© tal! Soy Polar ðŸ»â€â„ï¸ Â¿En quÃ© puedo ayudarte hoy?";
     "Â¡Hola! Â¡Encantado de conocerte! Soy Polar, siempre listo para una buena conversaciÃ³n ðŸ‘‹";
     "Â¡Hola! Soy Polar ðŸ»â€â„ï¸ Â¿QuÃ© te gustarÃ­a platicar hoy?";
     "Â¡Hola! Soy Polar, tu oso polar inteligente ðŸ»â€â„ï¸ Â¿Sobre quÃ© te gustarÃ­a hablar?";
     "Â¡QuÃ© gusto verte! Soy Polar, puedo ayudarte con cualquier pregunta ðŸ˜Š";
     "Â¡Hola! Soy Polar, siempre dispuesto a charlar sobre lo que quieras ðŸ»â€â„ï¸"].

(** The pool [generalEn] of [getFallbackResponse]. *)
Definition generalEn : list jsstring :=
  map js
    ["Hello there! Nice to meet you! I'm Polar ðŸ»â€â„ï¸ How are you doing today?";
     "Hi! Great to see you! I'm Polar, your friendly polar bear ðŸ˜Š";
     "Hey! I'm Polar ðŸ»â€â„ï¸ What can I help you with today?";
     "Hello! Nice to meet you! I'm Polar, always up for a good chat ðŸ‘‹";
     "Hi! I'm Polar ðŸ»â€â„ï¸ What would you like to talk about today?";
     "Hello! I'm Polar, your intelligent polar bear ðŸ»â€â„ï¸ What would you like to discuss?";
     "Nice to see you! I'm Polar, happy to help with any questions ðŸ˜Š";
     "Hi! I'm Polar, always ready to chat about whatever you'd like ðŸ»â€â„ï¸"].

(** [initializeFallbackResponses]: the table [this.fallbackResponses]. *)
Definition fallbackResponses : list (topic * list jsstring) :=
  map (fun '(t, responses) => (t, map js responses))
  [
    (greeting,
     ["Hello there! Nice to meet you! I'm Polar ðŸ»â€â„ï¸ How are you doing today?";
      "Hi! Great to see you! I'm Polar, your friendly polar bear ðŸ˜Š";
      "Hey! I'm Polar ðŸ»â€â„ï¸ What can I help you with today?";
      "Hello! Nice to meet you! I'm Polar, always up for a good chat ðŸ‘‹";
      "Hi! I'm Polar ðŸ»â€â„ï¸ What would you like to talk about today?"]);
    (name,
     ["I'm Polar! Nice to meet you in this digital Arctic tundra. ðŸ»â€â„ï¸";
      "Polar's the name - I'm your friendly bear from the far north! â„ï¸";
      "Hey there! I'm Polar, your Arctic companion and intake specialist. ðŸŒ¨ï¸";
      "I'm Polar, a polar bear who loves helping with Arctic intake processes! ðŸ»â€â„ï¸";
      "Polar here! I'm always excited to share about life in the Arctic. â„ï¸"]);
    (location,
     ["I roam the sea ice around Svalbard and northern Canada - where the ice meets the ocean! ðŸ»â€â„ï¸";
      "You'll find me hunting on the pack ice near Greenland and the Canadian Arctic islands. â„ï¸";
      "I spend my days on the frozen seas between Alaska and Russia, following the seals. ðŸŒ¨ï¸";
      "My territory spans the Arctic Ocean, from the Beaufort Sea to the Barents Sea! ðŸ»â€â„ï¸";
      "I patrol the ice floes around the North Pole and surrounding Arctic waters. â„ï¸"]);
    (food,
     ["Ringed seals are my favorite - they're rich and keep me going through the long winter! ðŸŸ";
      "I love hunting bearded seals on the ice floes - they're bigger and more challenging to catch. ðŸ»â€â„ï¸";
      "Seal blubber is my main meal - it gives me the energy I need to survive the harsh Arctic. â„ï¸";
      "I primarily hunt ringed and bearded seals, but I'll also eat walrus and beluga when available! ðŸŸ";
      "My diet consists mainly of seals, which provide the high-fat content I need for Arctic survival. ðŸ»â€â„ï¸"]);
    (skills,
     ["My thick fur and fat layer keep me warm, and I can swim for hours in freezing water! â„ï¸";
      "I've got incredible patience for hunting - I'll wait by a seal's breathing hole for hours. ðŸ»â€â„ï¸";
      "My powerful claws help me break through ice, and my keen sense of smell finds seals from miles away! ðŸŒ¨ï¸";
      "I can swim up to 60 miles without rest and have excellent underwater vision for hunting. ðŸŸ";
      "My large paws act like snowshoes, and I can run up to 25 mph on ice when needed! â„ï¸"]);
    (problems,
     ["The sea ice is melting faster each year, making it harder to hunt and travel. ðŸŒ¨ï¸";
      "Climate change is shrinking my hunting grounds - I have to swim longer distances to find food. ðŸ»â€â„ï¸";
      "The ice is forming later and breaking up earlier, giving me less time to build up fat for winter. â„ï¸";
      "Pollution and oil drilling in the Arctic are threatening our pristine hunting environment. ðŸŒ¨ï¸";
      "Rising temperatures are causing the permafrost to melt, affecting our traditional migration routes. ðŸ»â€â„ï¸"]);
    (message,
     ["Please help protect our Arctic home - every action against climate change helps us survive! â„ï¸";
      "The ice isn't just my hunting ground, it's my entire world - we need to keep it frozen. ðŸ»â€â„ï¸";
      "Your choices matter to us - reducing emissions helps preserve the Arctic we both love. ðŸŒ¨ï¸";
      "We need humans to understand that the Arctic is warming twice as fast as the rest of the planet. â„ï¸";
      "Please support conservation efforts - polar bears are a symbol of what we're losing to climate change. ðŸ»â€â„ï¸"]);
    (future,
     ["I hope the Arctic stays frozen year-round, with plenty of seals and stable ice for hunting! â„ï¸";
      "I dream of a future where polar bears and humans work together to protect our shared planet. ðŸ»â€â„ï¸";
      "I want to see healthy sea ice that lasts through all seasons, supporting all Arctic life. ðŸŒ¨ï¸";
      "I hope for a future where climate action preserves the Arctic ecosystem for generations to come. â„ï¸";
      "I envision an Arctic where sustainable practices allow both wildlife and human communities to thrive! ðŸ»â€â„ï¸"]);
    (math,
     ["Math is awesome! I can help you with basic calculations. What do you need to solve? ðŸ»â€â„ï¸";
      "I love numbers! I'm good with addition, subtraction, multiplication, and division. What do you want to calculate? â„ï¸";
      "Math is useful even in the Arctic! How can I help you? ðŸ»â€â„ï¸";
      "I'm good with numbers! What math operation do you need? â„ï¸";
      "Math helps me count seals! What do you want to calculate? ðŸ»â€â„ï¸"]);
    (cooking,
     ["I love talking about food! Though I hunt seals, I can help you with human recipes. What do you want to cook? ðŸ»â€â„ï¸";
      "Cooking is great! I can give you basic cooking tips. What do you need to know? â„ï¸";
      "Though I'm a carnivore, I understand cooking! What recipe interests you? ðŸ»â€â„ï¸";
      "Cooking is an art! How can I help you in the kitchen? â„ï¸";
      "I like talking about food! What do you want to prepare? ðŸ»â€â„ï¸"]);
    (weather,
     ["Weather is my specialty! I live in the coldest place on Earth. What do you want to know about weather? â„ï¸";
      "I'm an expert in cold weather! Do you have questions about the weather? ðŸ»â€â„ï¸";
      "Arctic weather is my life! What interests you? â„ï¸";
      "I know a lot about weather! How can I help you? ðŸ»â€â„ï¸";
      "Weather is fascinating! What do you want to know? â„ï¸"]);
    (technology,
     ["Technology is awesome! Though I live in the Arctic, I understand computers and apps. What do you need to know? ðŸ»â€â„ï¸";
      "I like technology! I can help you with basic concepts. What interests you? â„ï¸";
      "Technology connects the world! How can I help you? ðŸ»â€â„ï¸";
      "I'm a modern polar bear! What do you want to know about technology? â„ï¸";
      "Technology is incredible! What do you need to understand? ðŸ»â€â„ï¸"]);
    (general,
     ["Great question! Though I'm a polar bear, I can help you with many things. What else do you want to know? ðŸ»â€â„ï¸";
      "I love learning! Can you be more specific so I can help you better? â„ï¸";
      "Interesting! Could you give me more details to give you a better answer? ðŸ»â€â„ï¸";
      "Good question! In what specific area can I help you? â„ï¸";
      "I love helping! Can you explain more about what you need? ðŸ»â€â„ï¸"])
  ].

(** [table[topic]] *)
Definition responsesFor (table : list (topic * list jsstring)) (t : topic)
    : option (list jsstring) :=
  match list_find (fun entry => entry.1 = t) table with
  | Some (_, entry) => Some entry.2
  | None => None
  end.

(** [list[Math.floor(Math.random() * list.length)]], where [randomIndex n]
    is the value of [Math.floor(Math.random() * n)] at this call; [None] is
    [undefined]. *)
Definition pick (randomIndex : nat -> nat) (pool : list jsstring) : option jsstring :=
  pool !! randomIndex (length pool).

(** [getFallbackResponse]; [lang] is the value of [this.getLang()]. *)
Definition getFallbackResponse (lang : jsstring) (randomIndex : nat -> nat)
    (userMessage : jsstring) : option jsstring :=
  let input := preprocessMessage userMessage in
  let topic := detectTopic input in
  match (if bool_decide (lang = js "es") then topic ≫= responsesFor spanishResponses
         else None) with
  | Some list => pick randomIndex list
  | None =>
    match topic ≫= responsesFor fallbackResponses with
    | Some responses => pick randomIndex responses
    | None =>
      let pool := if bool_decide (lang = js "es") then generalEs else generalEn in
      pick randomIndex pool
    end
  end.

(** The pool that [getFallbackResponse] is to draw from, by its comments:
    the responses of the topic in the language, the general ones without a
    topic. *)
Definition poolFor (lang : jsstring) (topic : option topic) : list jsstring :=
  match topic with
  | Some t =>
    default [] (responsesFor (if bool_decide (lang = js "es") then spanishResponses
                              else fallbackResponses) t)
  | None => if bool_decide (lang = js "es") then generalEs else generalEn
  end.

(** The fields of the service that [generateResponse] reads. *)
Record service :=
  { isAvailable : bool; serviceKey : option jsstring; serviceModel : jsstring;
    maxTokens : nat; temperature : float }.

(** The body of the request of [generateResponse]. *)
Record chatRequest :=
  { chatModel : jsstring; chatMessages : list apiMessage;
    chatMaxTokens : nat; chatTemperature : float }.

(** [data.choices[0].message.content.trim()]; [None] when a step throws. *)
Definition replyText (data : value) : option jsstring :=
  choices ← getProp data (js "choices");
  first ← getProp choices (js "0");
  msg ← getProp first (js "message");
  text ← getProp msg (js "content");
  match text with
  | VStr s => Some (trim s)
  | _ => None
  end.

(** [generateResponse]; [fetchChat] is [fetch] with [response.json()], and
    the result is [None] when it is [undefined]. *)
Definition generateResponse (fetchChat : chatRequest -> fetchResult) (svc : service)
    (lang systemPrompt : jsstring) (randomIndex : nat -> nat)
    (userMessage : jsstring) (conversationHistory : list storedMessage) : option jsstring :=
  if negb (isAvailable svc) || negb (match serviceKey svc with
                                     | Some k => nonEmpty k
                                     | None => false
                                     end)
  then getFallbackResponse lang randomIndex userMessage
  else
    let processedMessage := preprocessMessage userMessage in
    let messages := buildMessageHistory systemPrompt conversationHistory processedMessage in
    match fetchChat {| chatModel := serviceModel svc; chatMessages := messages;
                       chatMaxTokens := maxTokens svc; chatTemperature := temperature svc |} with
    | Response true (Some data) =>
      match replyText data with
      | Some text => Some text
      | None => getFallbackResponse lang randomIndex userMessage
      end
    | _ => getFallbackResponse lang randomIndex userMessage
    end.

(** The correction of one word, for the comparison with [preprocessMessage]:
    the value of the entry of [corrections] whose key is the word, and the
    word itself when it is not a key. *)
Definition correctWord (w : jsstring) : jsstring :=
  match find (fun entry => bool_decide (entry.1 = w)) corrections with
  | Some entry => entry.2
  | None => w
  end.

(** [f] applied to each word of [s], a word being a run of word characters
    ([A-Za-z0-9_]) that no word character precedes or follows; [word] is the
    part of the current word read so far. *)
Definition flushWord (f : jsstring -> jsstring) (word : jsstring) : jsstring :=
  match word with
  | [] => []
  | _ :: _ => f word
  end.

Fixpoint mapWords (f : jsstring -> jsstring) (word s : jsstring) : jsstring :=
  match s with
  | [] => flushWord f word
  | c :: s' =>
    if isWordChar c then mapWords f (word ++ [c]) s'
    else flushWord f word ++ c :: mapWords f [] s'
  end.

(** The edit distance by its recurrence on the first characters, for the
    comparison with [levenshteinDistance]: no edit for equal first
    characters, and otherwise one edit more than the least of a substitution,
    an insertion and a deletion. *)
Fixpoint editDistance (p : jsstring) : jsstring -> nat :=
  match p with
  | [] => fun q => length q
  | y :: p' =>
    fix inner (q : jsstring) : nat :=
      match q with
      | [] => length p
      | x :: q' =>
        if y =? x then editDistance p' q'
        else S (Nat.min (Nat.min (editDistance p' q') (inner q')) (editDistance p' q))
      end
  end.

(** The row of the matrix for the characters [rp] of [str2] read so far
    (the last one first): the distances to the prefixes of [str1] from the
    one read so far, [rq] (the last character first), to the whole. *)
Fixpoint rowFrom (rp rq rest : jsstring) : list nat :=
  editDistance rp rq ::
  match rest with
  | [] => []
  | d :: rest' => rowFrom rp (d :: rq) rest'
  end.

(** [detectTopic] without the sort of the keywords, for the comparison with
    [detectTopic]. *)
Definition detectTopicUnsorted (input : jsstring) : option topic :=
  match firstTopic (fun keyword => includes input keyword) topicKeywords with
  | Some t => Some t
  | None =>
    if includes input (js "what is your") || includes input (js "whats your")
       || includes input (js "what is ur") || includes input (js "whats ur")
    then Some name
    else firstTopic (fun keyword => fuzzyMatch input keyword) topicKeywords
  end.

End Responder.

(** ** Concrete runs *)

Module Examples.
Import BlueprintGenerator.

(** The value [JSON.parse] gives for the text of a section map. *)
Definition valueOfSections (secs : sections) : value :=
  VObj (map (fun '(key, items) => (key, VArr (map VStr items))) secs).

(** [JSON.parse] on the texts of the given section maps; any other text is
    refused. *)
Definition parseOneOf (known : list sections) (text : jsstring) : option value :=
  match find (fun secs => bool_decide (JSON_stringify secs = text)) known with
  | Some secs => Some (valueOfSections secs)
  | None => None
  end.

(** No Number occurs in the runs below. *)
Definition numberToString (x : float) : jsstring := js "NaN".

(** The body of a chat completion whose message is [text]. *)
Definition chatCompletion (text : jsstring) : value :=
  VObj [(js "choices", VArr [VObj [(js "message", VObj [(js "content", VStr text)])]])].

Definition assistantSays (text : string) : option chatMessage :=
  Some {| role := Some (js "assistant"); content := Some (js text) |}.

Definition userSays (text : string) : option chatMessage :=
  Some {| role := Some (js "user"); content := Some (js text) |}.

Definition page : environment :=
  {| currentLanguage := js "es";
     getAIConfig :=
       Some {| apiKey := Some (js "sk-or-key"); baseURL := js "https://openrouter.ai/api/v1";
               model := js "deepseek/deepseek-chat" |} |}.

Definition original : sections :=
  [(js "identity", [js "I am Polar."]); (js "habitat", [js "I live on the sea ice."])].

(** A full translation, one that lacks the key [habitat], and one with two
    items where [identity] had one. *)
Definition translated : sections :=
  [(js "identity", [js "Soy Polar."]); (js "habitat", [js "Vivo en el hielo marino."])].

Definition missingKey : sections := [(js "identity", [js "Soy Polar."])].

Definition wrongLength : sections :=
  [(js "identity", [js "Soy"; js "Polar."]); (js "habitat", [js "Vivo en el hielo marino."])].

Definition parse : jsstring -> option value := parseOneOf [translated; missingKey; wrongLength].

Definition answers (secs : sections) (n : nat) (req : request) : fetchResult :=
  Response true (Some (chatCompletion (JSON_stringify secs))).

Definition unreachable (n : nat) (req : request) : fetchResult := FetchRejected.

(** The text [{identity:[{toString:1}]}] with its keys quoted, the value
    [JSON.parse] gives for it, and a capability that answers with it. *)
Definition ownToStringText : jsstring :=
  js "{" ++ quoteJSONString (js "identity") ++ js ":[{"
  ++ quoteJSONString (js "toString") ++ js ":1}]}".

Definition ownToString : value :=
  VObj [(js "identity", VArr [VObj [(js "toString", VNum 1%float)]])].

Definition parseOwnToString (text : jsstring) : option value :=
  if bool_decide (text = ownToStringText) then Some ownToString else None.

Definition answersOwnToString (n : nat) (req : request) : fetchResult :=
  Response true (Some (chatCompletion ownToStringText)).

End Examples.

(** * Properties *)

Local Close Scope N_scope.

Ltac by_computation :=
  match goal with |- ?P => apply (bool_decide_eq_true_1 P); vm_compute; reflexivity end.

(** ** The classifier of [js/ai-service.js] *)

Section Classifier.
Import AIService.

Lemma firstHitCheck_table (T : topic) :
  forallb (firstHitCheck T) (keywordsOf T) = true.
Proof. destruct T; vm_compute; reflexivity. Qed.

(** C1, as amended. For every topic [T] of the table and every keyword [k] of
    [T], [detectTopic (preprocessMessage k)] is a topic [T'], never [None].
    [T'] is [T] or is declared before [T]; it is [T] exactly when no keyword
    of a topic declared before [T] occurs in [preprocessMessage k]; and when
    it is not [T], it is the first topic of the table with a keyword that
    occurs in [preprocessMessage k]. *)
Theorem detectTopic_keyword_first_hit (T : topic) (k : jsstring) :
  k ∈ keywordsOf T →
  ∃ T', detectTopic (preprocessMessage k) = Some T'
        ∧ rank T' ≤ rank T
        ∧ (T' = T ↔ earlierHit T (preprocessMessage k) = false)
        ∧ (T' ≠ T →
           existsb (fun keyword => includes (preprocessMessage k) keyword) (keywordsOf T')
           = true)
        ∧ earlierHit T' (preprocessMessage k) = false.
Proof.
  intros Hk.
  pose proof (firstHitCheck_table T) as Hall.
  rewrite forallb_forall in Hall.
  apply list_elem_of_In in Hk. specialize (Hall _ Hk).
  unfold firstHitCheck in Hall.
  destruct (detectTopic (preprocessMessage k)) as [T'|]; [|discriminate].
  apply andb_prop in Hall as [Hall Hfirst].
  apply andb_prop in Hall as [Hall Hhit].
  apply andb_prop in Hall as [Hrank Heq].
  exists T'. split_and!.
  - reflexivity.
  - apply Nat.leb_le, Hrank.
  - apply eqb_prop in Heq.
    destruct (earlierHit T (preprocessMessage k)); cbn in Heq.
    + apply bool_decide_eq_false in Heq. split; [tauto | discriminate].
    + apply bool_decide_eq_true in Heq. tauto.
  - intros Hne. apply orb_prop in Hhit as [Hhit|Hsame]; [exact Hhit|].
    now apply bool_decide_eq_true in Hsame.
  - now apply negb_true_iff.
Qed.

Lemma detectTopic_keyword_first_hit_witness :
  js "where" ∈ keywordsOf general
  ∧ ∃ T', detectTopic (preprocessMessage (js "where")) = Some T'
          ∧ rank T' ≤ rank general
          ∧ (T' = general ↔ earlierHit general (preprocessMessage (js "where")) = false)
          ∧ (T' ≠ general →
             existsb (fun keyword => includes (preprocessMessage (js "where")) keyword)
                     (keywordsOf T')
             = true)
          ∧ earlierHit T' (preprocessMessage (js "where")) = false.
Proof.
  assert (H : js "where" ∈ keywordsOf general) by by_computation.
  split; [exact H | exact (detectTopic_keyword_first_hit general (js "where") H)].
Defined.

(** C1 as stated fails: [food] is a keyword of [cooking] and [how] is a
    keyword of [skills], but the first is classified as [food], declared
    before [cooking] with the same keyword, and the second as [name], whose
    keyword [ho] occurs in it. *)
Lemma detectTopic_keyword_not_own_topic :
  js "food" ∈ keywordsOf cooking
  ∧ detectTopic (preprocessMessage (js "food")) = Some food
  ∧ detectTopic (preprocessMessage (js "food")) ≠ Some cooking
  ∧ js "how" ∈ keywordsOf skills
  ∧ detectTopic (preprocessMessage (js "how")) = Some name
  ∧ detectTopic (preprocessMessage (js "how")) ≠ Some skills.
Proof.
  assert (Hfood : detectTopic (preprocessMessage (js "food")) = Some food)
    by (vm_compute; reflexivity).
  assert (Hhow : detectTopic (preprocessMessage (js "how")) = Some name)
    by (vm_compute; reflexivity).
  split_and!.
  - by_computation.
  - exact Hfood.
  - rewrite Hfood. discriminate.
  - by_computation.
  - exact Hhow.
  - rewrite Hhow. discriminate.
Qed.

(** The keyword [favort] of [food] is normalized to [favorite], in which no
    keyword of any topic occurs: it is the fuzzy pass that gives [food]. *)
Lemma favort_by_fuzzy_pass :
  preprocessMessage (js "favort") = js "favorite"
  ∧ firstTopic (fun keyword => includes (js "favorite") keyword) sortedTopicKeywords = None
  ∧ detectTopic (js "favorite") = Some food.
Proof. split_and!; vm_compute; reflexivity. Qed.

(** C8. [preprocessMessage] turns ["wat do u eet?"] into
    ["what do you eat?"], which [detectTopic] classifies as [food], the
    topic of diet. *)
Theorem scenario_wat_do_u_eet :
  preprocessMessage (js "wat do u eet?") = js "what do you eat?"
  ∧ detectTopic (preprocessMessage (js "wat do u eet?")) = Some food.
Proof. split; vm_compute; reflexivity. Qed.

(** C9. The distance between ["skils"] and ["skill"] is 1 and the longer
    has 5 characters, so the similarity is the Number 0.8, which is not
    below the threshold: [fuzzyMatch] succeeds. [detectTopic] classifies
    ["skils"] as [skills], and so does its fuzzy pass taken alone. *)
Theorem scenario_skils :
  levenshteinDistance (js "skils") (js "skill") = 1%nat
  ∧ Nat.max (length (js "skils")) (length (js "skill")) = 5%nat
  ∧ similarity (js "skils") (js "skill") = 0x1.999999999999ap-1%float
  ∧ fuzzyMatch (js "skils") (js "skill") = true
  ∧ detectTopic (js "skils") = Some skills
  ∧ detectTopic (preprocessMessage (js "skils")) = Some skills
  ∧ firstTopic (fun keyword => fuzzyMatch (js "skils") keyword) sortedTopicKeywords
    = Some skills.
Proof. split_and!; vm_compute; reflexivity. Qed.

End Classifier.

(** ** The sentences of [js/blueprint-generator.js] *)

Section Sentences.
Import BlueprintGenerator.

Lemma span_run (p : N → bool) (run rest : jsstring) :
  Forall (fun c => p c = true) run →
  match rest with [] => True | c :: _ => p c = false end →
  span p (run ++ rest) = (run, rest).
Proof.
  intros Hrun Hrest. induction Hrun as [|c run Hc _ IH]; cbn.
  - destruct rest as [|c rest]; [reflexivity|]. cbn. now rewrite Hrest.
  - now rewrite Hc, IH.
Qed.

Lemma isBody_negb (s : jsstring) :
  isBody s → Forall (fun c => negb (isTerminator c) = true) s.
Proof. intros H. eapply Forall_impl; [exact H|]. cbn. intros c ->. reflexivity. Qed.

Lemma sentenceAt_sentence (body ends rest : jsstring) :
  body ≠ [] → isBody body → ends ≠ [] → isEnding ends →
  match rest with [] => True | c :: _ => isTerminator c = false end →
  sentenceAt (body ++ ends ++ rest) = Some (body ++ ends).
Proof.
  intros Hb Hbody He Hends Hrest. unfold sentenceAt.
  rewrite (span_run _ body (ends ++ rest)); [|now apply isBody_negb|].
  - destruct body as [|b body]; [done|].
    rewrite (span_run isTerminator ends rest Hends Hrest).
    destruct ends; [done | reflexivity].
  - destruct Hends as [|e ends Hc _]; [done|]. cbn. now rewrite Hc.
Qed.

Lemma sentenceAt_fragment (fragment : jsstring) :
  fragment ≠ [] → isBody fragment → sentenceAt fragment = Some fragment.
Proof.
  intros Hf Hbody. unfold sentenceAt.
  rewrite <- (app_nil_r fragment) at 1.
  rewrite (span_run _ fragment []); [|now apply isBody_negb|exact I].
  destruct fragment; [done | reflexivity].
Qed.

Lemma matchSentences_skip (m rest : jsstring) :
  matchSentences (length m) (m ++ rest) = matchSentences 0 rest.
Proof. induction m as [|c m IH]; [reflexivity | exact IH]. Qed.

Lemma matchSentences_match (m rest : jsstring) :
  m ≠ [] → sentenceAt (m ++ rest) = Some m →
  matchSentences 0 (m ++ rest) = m :: matchSentences 0 rest.
Proof.
  destruct m as [|c m]; [done|]. intros _ Hat.
  change (matchSentences 0 ((c :: m) ++ rest))
    with (match sentenceAt ((c :: m) ++ rest) with
          | Some m' => m' :: matchSentences (length m' - 1) (m ++ rest)
          | None => matchSentences 0 (m ++ rest)
          end).
  rewrite Hat. cbn [length]. rewrite Nat.sub_1_r. cbn [Nat.pred].
  now rewrite matchSentences_skip.
Qed.

Lemma text_starts_body (segments : list (jsstring * jsstring)) (fragment : jsstring) :
  wellCut segments → isBody fragment →
  match concat (map (fun seg => seg.1 ++ seg.2) segments) ++ fragment with
  | [] => True
  | c :: _ => isTerminator c = false
  end.
Proof.
  intros Hcut Hfrag.
  destruct Hcut as [|[body ends] segments (Hb & Hbody & _) _]; cbn in *.
  - destruct Hfrag; cbn; [exact I | assumption].
  - destruct Hbody; cbn; [done | assumption].
Qed.

Lemma matchSentences_cut (segments : list (jsstring * jsstring)) (fragment : jsstring) :
  wellCut segments → isBody fragment →
  matchSentences 0 (concat (map (fun seg => seg.1 ++ seg.2) segments) ++ fragment)
  = sentencesOf segments fragment.
Proof.
  intros Hcut Hfrag. unfold sentencesOf.
  induction Hcut as [|[body ends] segments (Hb & Hbody & He & Hends) Hcut IH]; cbn in *.
  - destruct fragment as [|c fragment]; [reflexivity|].
    rewrite <- (app_nil_r (c :: fragment)) at 1.
    rewrite matchSentences_match; [reflexivity | done |].
    rewrite app_nil_r. now apply sentenceAt_fragment.
  - rewrite <- (app_assoc (body ++ ends)), <- IH. apply matchSentences_match.
    + destruct body; [done | discriminate].
    + rewrite <- !app_assoc. apply sentenceAt_sentence; try assumption.
      now apply text_starts_body.
Qed.

Lemma isTerminator_not_space (c : N) : isTerminator c = true → isSpace c = false.
Proof.
  unfold isTerminator. intros H.
  apply orb_prop in H as [H|H]; [apply orb_prop in H as [H|H]|];
    apply N.eqb_eq in H; subst; reflexivity.
Qed.

Lemma trimStart_keeps (c : N) (s : jsstring) :
  c ∈ s → isSpace c = false → c ∈ trimStart s.
Proof.
  intros Hin Hc. induction s as [|d s IH]; [inversion Hin|].
  cbn. destruct (isSpace d) eqn:Hd; [|exact Hin].
  apply elem_of_cons in Hin as [->|Hin]; [congruence | now apply IH].
Qed.

Lemma trimEnd_keeps (c : N) (s : jsstring) :
  c ∈ s → isSpace c = false → c ∈ trimEnd s.
Proof.
  intros Hin Hc. induction s as [|d s IH]; [inversion Hin|].
  cbn. apply elem_of_cons in Hin as [->|Hin].
  - destruct (trimEnd s); [rewrite Hc|]; apply elem_of_cons; now left.
  - specialize (IH Hin). destruct (trimEnd s); [inversion IH|].
    apply elem_of_cons. now right.
Qed.

Lemma trim_nonEmpty (c : N) (s : jsstring) :
  c ∈ s → isSpace c = false → nonEmpty (trim s) = true.
Proof.
  intros Hin Hc. unfold trim.
  pose proof (trimEnd_keeps c _ (trimStart_keeps c s Hin Hc) Hc) as H.
  destruct (trimEnd (trimStart s)); [inversion H | reflexivity].
Qed.

Lemma trimEnd_last (s : jsstring) (c : N) :
  last (trimEnd s) = Some c → isSpace c = false.
Proof.
  revert c. induction s as [|d s IH]; intros c; cbn; [discriminate|].
  destruct (trimEnd s) as [|e r] eqn:Hr.
  - destruct (isSpace d) eqn:Hd; cbn; [discriminate|]. now intros [= <-].
  - intros H. apply IH. exact H.
Qed.

Lemma fragment_not_blank (text before fragment : jsstring) :
  trim text = before ++ fragment → fragment ≠ [] →
  ∃ c, c ∈ fragment ∧ isSpace c = false.
Proof.
  intros Htrim Hf.
  destruct (last fragment) as [c|] eqn:Hlast.
  - exists c. split.
    + eapply last_Some_elem_of, Hlast.
    + apply (trimEnd_last (trimStart text)). fold (trim text). rewrite Htrim.
      apply last_Some in Hlast as [l' ->]. rewrite app_assoc. apply last_snoc.
  - apply last_None in Hlast. done.
Qed.

Lemma filter_all {A} (P : A → Prop) `{!∀ x, Decision (P x)} (l : list A) :
  Forall P l → filter P l = l.
Proof.
  induction 1 as [|x l Hx _ IH]; [reflexivity|].
  rewrite filter_cons_True by assumption. now rewrite IH.
Qed.

Lemma sentences_not_blank (segments : list (jsstring * jsstring)) (fragment : jsstring) :
  wellCut segments →
  (fragment ≠ [] → ∃ c, c ∈ fragment ∧ isSpace c = false) →
  Forall (fun s => nonEmpty (trim s) = true) (sentencesOf segments fragment).
Proof.
  intros Hcut Hfrag. unfold sentencesOf.
  induction Hcut as [|[body ends] segments (_ & _ & He & Hends) _ IH]; cbn in *.
  - destruct fragment as [|c fragment]; cbn; constructor; [|constructor].
    destruct Hfrag as (d & Hd & Hspace); [done|]. now apply (trim_nonEmpty d).
  - constructor; [|exact IH].
    destruct Hends as [|e ends Hterm _]; [done|].
    apply (trim_nonEmpty e); [|now apply isTerminator_not_space].
    apply elem_of_app. right. apply elem_of_cons. now left.
Qed.

Lemma filter_trimmed (ss : list jsstring) :
  Forall (fun s => nonEmpty (trim s) = true) ss →
  filter (fun s => nonEmpty s = true) (map trim ss) = map trim ss.
Proof.
  induction 1 as [|s ss Hs _ IH]; [reflexivity|].
  cbn [map]. rewrite filter_cons_True by exact Hs. now rewrite IH.
Qed.

Lemma matchSentences_lead (lead rest : jsstring) :
  isEnding lead → matchSentences 0 (lead ++ rest) = matchSentences 0 rest.
Proof.
  induction 1 as [|c lead Hc _ IH]; [reflexivity|].
  rewrite <- IH. cbn [app matchSentences]. unfold sentenceAt. cbn [span].
  now rewrite Hc.
Qed.

(** C7. The sentences of ["A. B! C?"] are ["A."], ["B!"] and ["C?"]. In
    general, when the text, its white space collapsed and trimmed, is made
    of terminators ([.], [!], [?]) at its head, if any, then of sentences,
    each a non-empty run of characters that are not terminators followed
    by a non-empty run of terminators, and then of a fragment without
    terminators, [splitIntoSentences] gives these sentences, each with its
    terminators, and then the fragment if it is not empty, all trimmed. *)
Theorem splitIntoSentences_sentences :
  splitIntoSentences (js "A. B! C?") = [js "A."; js "B!"; js "C?"]
  ∧ ∀ (text lead : jsstring) (segments : list (jsstring * jsstring))
      (fragment : jsstring),
      trim (collapseSpaces false text)
      = lead ++ concat (map (fun seg => seg.1 ++ seg.2) segments) ++ fragment →
      isEnding lead →
      wellCut segments →
      isBody fragment →
      segments ≠ [] ∨ fragment ≠ [] →
      splitIntoSentences text = map trim (sentencesOf segments fragment).
Proof.
  split; [vm_compute; reflexivity|].
  intros text lead segments fragment Htext Hlead Hcut Hfrag Hsome.
  assert (Hblank : Forall (fun s => nonEmpty (trim s) = true) (sentencesOf segments fragment)).
  { apply sentences_not_blank; [exact Hcut|].
    intros Hne. rewrite app_assoc in Htext.
    now apply (fragment_not_blank _ _ _ Htext). }
  assert (Hss : sentencesOf segments fragment ≠ []).
  { unfold sentencesOf. destruct Hsome as [Hs|Hf].
    - destruct segments; [done | discriminate].
    - destruct fragment; [done|]. cbn. intros H. now apply app_eq_nil in H as [_ ?]. }
  unfold splitIntoSentences.
  rewrite Htext, (matchSentences_lead _ _ Hlead), (matchSentences_cut _ _ Hcut Hfrag).
  assert (Hnormal :
    nonEmpty (lead ++ concat (map (fun seg => seg.1 ++ seg.2) segments) ++ fragment) = true).
  { destruct lead; [|reflexivity]. cbn [app]. destruct Hsome as [Hs|Hf].
    - destruct Hcut as [|[body ends] segs (Hb & _) _]; [done|].
      cbn in *. destruct body; [done | reflexivity].
    - destruct (concat _); [destruct fragment; [done | reflexivity] | reflexivity]. }
  rewrite Hnormal.
  destruct (sentencesOf segments fragment) as [|s ss] eqn:E; [done|].
  now apply filter_trimmed.
Qed.

Lemma splitIntoSentences_sentences_witness :
  splitIntoSentences (js "...I roam the sea ice.   Do you?!  Tell me")
  = [js "I roam the sea ice."; js "Do you?!"; js "Tell me"].
Proof.
  refine (eq_trans
    (proj2 splitIntoSentences_sentences
       (js "...I roam the sea ice.   Do you?!  Tell me")
       (js "...")
       [(js "I roam the sea ice", js "."); (js " Do you", js "?!")]
       (js " Tell me") _ _ _ _ _) _).
  - vm_compute. reflexivity.
  - unfold isEnding. by_computation.
  - unfold wellCut, isBody, isEnding. by_computation.
  - unfold isBody. by_computation.
  - right. discriminate.
  - vm_compute. reflexivity.
Defined.

End Sentences.

(** ** The sections of [js/blueprint-generator.js] *)

Section Extraction.
Import BlueprintGenerator.

#[local] Arguments detectSectionForText : simpl never.
#[local] Arguments splitIntoSentences : simpl never.
#[local] Arguments toLowerCase : simpl never.
#[local] Arguments js : simpl never.

(** *** Adding to a set *)

Lemma setAdd_prefix (x : jsstring) (items : list jsstring) :
  items `prefix_of` setAdd x items.
Proof. unfold setAdd. case_bool_decide; [reflexivity | now apply prefix_app_r]. Qed.

Lemma setAdd_elem (x y : jsstring) (items : list jsstring) :
  y ∈ setAdd x items ↔ y ∈ items ∨ y = x.
Proof.
  unfold setAdd. case_bool_decide as Hin.
  - split; [now left | intros [?| ->]; assumption].
  - rewrite elem_of_app, list_elem_of_singleton. reflexivity.
Qed.

Lemma setAdd_NoDup (x : jsstring) (items : list jsstring) :
  NoDup items → NoDup (setAdd x items).
Proof.
  intros Hnd. unfold setAdd. case_bool_decide as Hin; [exact Hnd|].
  apply NoDup_app. split_and!; [exact Hnd | | apply NoDup_singleton].
  intros y Hy Hx. apply list_elem_of_singleton in Hx. now subst.
Qed.

Lemma setAdd_length (x : jsstring) (items : list jsstring) :
  length (setAdd x items) ≤ S (length items).
Proof.
  unfold setAdd. case_bool_decide; [lia|]. rewrite length_app. cbn. lia.
Qed.

(** *** Every step extends the sections *)

Lemma extends_refl (a : sections) : extends a a.
Proof. induction a; constructor; [split; reflexivity | assumption]. Qed.

Lemma extends_trans (a b c : sections) : extends a b → extends b c → extends a c.
Proof.
  unfold extends. apply Forall2_trans.
  intros x y z [Hk1 Hp1] [Hk2 Hp2]. split; [congruence | now transitivity (y.2)].
Qed.

Lemma extends_keys (a b : sections) : extends a b → map fst a = map fst b.
Proof. induction 1 as [|x y a b [Hk _] _ IH]; cbn; [reflexivity | now rewrite Hk, IH]. Qed.

Lemma extends_elem (a b : sections) (key : jsstring) (items : list jsstring) :
  extends a b → (key, items) ∈ a →
  ∃ items', (key, items') ∈ b ∧ items `prefix_of` items'.
Proof.
  induction 1 as [|x [k its] a b [Hk Hp] _ IH]; intros Hin; [inversion Hin|].
  apply elem_of_cons in Hin as [<-|Hin].
  - cbn in *. subst k. exists its. split; [apply elem_of_cons; now left | exact Hp].
  - destruct (IH Hin) as (items' & Hin' & Hp'). exists items'.
    split; [apply elem_of_cons; now right | exact Hp'].
Qed.

Lemma addToSection_extends (section sentence : jsstring) (secs : sections) :
  extends secs (addToSection section sentence secs).
Proof.
  induction secs as [|[key items] secs IH]; cbn; [constructor|].
  case_bool_decide; constructor; cbn; try (split; [reflexivity|]).
  - apply setAdd_prefix.
  - apply extends_refl.
  - reflexivity.
  - exact IH.
Qed.

Lemma addSentence_extends (secs : sections) (sentence : jsstring) :
  extends secs (addSentence secs sentence).
Proof.
  unfold addSentence. repeat case_match; auto using extends_refl, addToSection_extends.
Qed.

Lemma foldl_extends {A} (f : sections → A → sections) :
  (∀ secs a, extends secs (f secs a)) →
  ∀ (l : list A) (secs : sections), extends secs (foldl f secs l).
Proof.
  intros Hf l. induction l as [|a l IH]; intros secs; cbn; [apply extends_refl|].
  eapply extends_trans; [apply Hf | apply IH].
Qed.

Lemma addMessage_extends (secs : sections) (m : option chatMessage) :
  extends secs (addMessage secs m).
Proof.
  destruct m as [msg|]; cbn; [|apply extends_refl].
  apply foldl_extends, addSentence_extends.
Qed.

Lemma buildSections_app (messages extra : list (option chatMessage)) :
  buildSections (messages ++ extra)
  = foldl addMessage (buildSections messages)
          (filter (fun m => isAssistant m = true) extra).
Proof. unfold buildSections. now rewrite filter_app, foldl_app. Qed.

(** *** Every step keeps the sections bounded and without duplicates *)

Lemma addToSection_bounded (section sentence : jsstring) (secs : sections)
    (items : list jsstring) :
  getSection section secs = Some items →
  length items < maxItemsPerSection →
  Forall (fun e => length e.2 ≤ maxItemsPerSection ∧ NoDup e.2) secs →
  Forall (fun e => length e.2 ≤ maxItemsPerSection ∧ NoDup e.2)
         (addToSection section sentence secs).
Proof.
  intros Hget Hlt Hall. induction Hall as [|[key its] secs [Hlen Hnd] Hall IH]; cbn in *.
  - constructor.
  - case_bool_decide.
    + injection Hget as ->. constructor; [|exact Hall]. cbn. split.
      * pose proof (setAdd_length sentence items). lia.
      * now apply setAdd_NoDup.
    + constructor; [now split | now apply IH].
Qed.

Lemma addSentence_bounded (secs : sections) (sentence : jsstring) :
  Forall (fun e => length e.2 ≤ maxItemsPerSection ∧ NoDup e.2) secs →
  Forall (fun e => length e.2 ≤ maxItemsPerSection ∧ NoDup e.2)
         (addSentence secs sentence).
Proof.
  intros Hall. unfold addSentence.
  destruct (detectSectionForText _) as [section|]; [|exact Hall].
  destruct (getSection section secs) as [items|] eqn:Hget; [|exact Hall].
  destruct (length items <? maxItemsPerSection) eqn:Hlt; [|exact Hall].
  apply Nat.ltb_lt in Hlt. now apply (addToSection_bounded _ _ _ items).
Qed.

Lemma foldl_invariant {A} (I : sections → Prop) (f : sections → A → sections) :
  (∀ secs a, I secs → I (f secs a)) →
  ∀ (l : list A) (secs : sections), I secs → I (foldl f secs l).
Proof.
  intros Hf l. induction l as [|a l IH]; intros secs Hs; cbn; [exact Hs|].
  apply IH, Hf, Hs.
Qed.

Lemma addMessage_bounded (secs : sections) (m : option chatMessage) :
  Forall (fun e => length e.2 ≤ maxItemsPerSection ∧ NoDup e.2) secs →
  Forall (fun e => length e.2 ≤ maxItemsPerSection ∧ NoDup e.2) (addMessage secs m).
Proof.
  destruct m as [msg|]; cbn; [|trivial].
  apply foldl_invariant. intros s a. apply addSentence_bounded.
Qed.

Lemma buildSections_bounded (messages : list (option chatMessage)) :
  Forall (fun e => length e.2 ≤ maxItemsPerSection ∧ NoDup e.2) (buildSections messages).
Proof.
  unfold buildSections. apply foldl_invariant.
  - intros s a. apply addMessage_bounded.
  - unfold emptySections, sectionKeys. cbn.
    repeat constructor; cbn; lia.
Qed.

Lemma buildSections_keys (messages : list (option chatMessage)) :
  map fst (buildSections messages) = sectionKeys.
Proof.
  unfold buildSections.
  rewrite <- (extends_keys emptySections); [reflexivity|].
  apply foldl_extends, addMessage_extends.
Qed.

(** *** Where the items come from *)

Lemma addToSection_elem (section sentence : jsstring) (secs : sections)
    (key : jsstring) (items' : list jsstring) (y : jsstring) :
  (key, items') ∈ addToSection section sentence secs → y ∈ items' →
  (∃ items, (key, items) ∈ secs ∧ y ∈ items) ∨ (key = section ∧ y = sentence).
Proof.
  induction secs as [|[k its] secs IH]; cbn; [intros H; inversion H|].
  case_bool_decide as Hk; intros Hin Hy; apply elem_of_cons in Hin as [Heq|Hin].
  - injection Heq as -> ->. apply setAdd_elem in Hy as [Hy| ->].
    + left. exists its. split; [apply elem_of_cons; now left | exact Hy].
    + right. now split.
  - left. exists items'. split; [apply elem_of_cons; now right | exact Hy].
  - injection Heq as -> ->. left. exists its. split; [apply elem_of_cons; now left | exact Hy].
  - destruct (IH Hin Hy) as [(items & Hin' & Hy')|?]; [|now right].
    left. exists items. split; [apply elem_of_cons; now right | exact Hy'].
Qed.

Lemma addSentence_elem (secs : sections) (sentence : jsstring)
    (key : jsstring) (items' : list jsstring) (y : jsstring) :
  (key, items') ∈ addSentence secs sentence → y ∈ items' →
  (∃ items, (key, items) ∈ secs ∧ y ∈ items)
  ∨ (y = sentence ∧ detectSectionForText (toLowerCase sentence) = Some key).
Proof.
  unfold addSentence. intros Hin Hy.
  destruct (detectSectionForText _) as [section|]; [|left; eauto].
  destruct (getSection section secs) as [items|]; [|left; eauto].
  destruct (length items <? maxItemsPerSection); [|left; eauto].
  destruct (addToSection_elem _ _ _ _ _ _ Hin Hy) as [?|[-> ->]]; [now left | now right].
Qed.

Lemma foldl_addSentence_elem (sentences : list jsstring) (secs : sections)
    (key : jsstring) (items' : list jsstring) (y : jsstring) :
  (key, items') ∈ foldl addSentence secs sentences → y ∈ items' →
  (∃ items, (key, items) ∈ secs ∧ y ∈ items)
  ∨ (y ∈ sentences ∧ detectSectionForText (toLowerCase y) = Some key).
Proof.
  revert secs. induction sentences as [|s sentences IH]; intros secs; cbn.
  - intros Hin Hy. left. eauto.
  - intros Hin Hy. destruct (IH _ Hin Hy) as [(items & Hin' & Hy')|[Hs Hd]].
    + destruct (addSentence_elem _ _ _ _ _ Hin' Hy') as [?|[-> Hd]]; [now left|].
      right. split; [apply elem_of_cons; now left | exact Hd].
    + right. split; [apply elem_of_cons; now right | exact Hd].
Qed.

Lemma foldl_addMessage_elem (msgs : list (option chatMessage)) (secs : sections)
    (key : jsstring) (items' : list jsstring) (y : jsstring) :
  (key, items') ∈ foldl addMessage secs msgs → y ∈ items' →
  (∃ items, (key, items) ∈ secs ∧ y ∈ items)
  ∨ (∃ msg, Some msg ∈ msgs
            ∧ y ∈ splitIntoSentences (default [] (content msg))
            ∧ detectSectionForText (toLowerCase y) = Some key).
Proof.
  revert secs. induction msgs as [|m msgs IH]; intros secs; cbn.
  - intros Hin Hy. left. eauto.
  - intros Hin Hy. destruct (IH _ Hin Hy) as [(items & Hin' & Hy')|(msg & Hm & Hs & Hd)].
    + destruct m as [msg|]; cbn in Hin'; [|left; eauto].
      destruct (foldl_addSentence_elem _ _ _ _ _ Hin' Hy') as [?|[Hs Hd]]; [now left|].
      right. exists msg. split_and!; [apply elem_of_cons; now left | exact Hs | exact Hd].
    + right. exists msg. split_and!; [apply elem_of_cons; now right | exact Hs | exact Hd].
Qed.

Lemma emptySections_empty (key : jsstring) (items : list jsstring) :
  (key, items) ∈ emptySections → items = [].
Proof.
  unfold emptySections. generalize sectionKeys. intros keys.
  induction keys as [|k keys IH]; cbn; intros Hin; [inversion Hin|].
  apply elem_of_cons in Hin as [[= _ ->]|Hin]; [reflexivity | now apply IH].
Qed.

Lemma buildSections_elem (messages : list (option chatMessage))
    (key : jsstring) (items : list jsstring) (x : jsstring) :
  (key, items) ∈ buildSections messages → x ∈ items →
  ∃ msg, Some msg ∈ messages
         ∧ isAssistant (Some msg) = true
         ∧ x ∈ splitIntoSentences (default [] (content msg))
         ∧ detectSectionForText (toLowerCase x) = Some key.
Proof.
  unfold buildSections. intros Hin Hx.
  destruct (foldl_addMessage_elem _ _ _ _ _ Hin Hx)
    as [(its & Hin0 & Hx0)|(msg & Hm & Hs & Hd)].
  - apply emptySections_empty in Hin0 as ->. inversion Hx0.
  - apply list_elem_of_filter in Hm as [Ha Hm]. exists msg. now split_and!.
Qed.

(** *** A sentence of an assistant message is added unless the section is
    full *)

Lemma getSection_Some (key : jsstring) (secs : sections) :
  key ∈ map fst secs → ∃ items, getSection key secs = Some items.
Proof.
  induction secs as [|[k its] secs IH]; cbn; [intros H; inversion H|].
  intros Hin. case_bool_decide as Hk; [eauto|].
  apply elem_of_cons in Hin as [->|Hin]; [done | now apply IH].
Qed.

Lemma getSection_elem (key : jsstring) (secs : sections) (items : list jsstring) :
  getSection key secs = Some items → (key, items) ∈ secs.
Proof.
  induction secs as [|[k its] secs IH]; cbn; [discriminate|].
  case_bool_decide as Hk.
  - intros [= ->]. subst k. apply elem_of_cons. now left.
  - intros H. apply elem_of_cons. right. now apply IH.
Qed.

Lemma addToSection_hit (section sentence : jsstring) (secs : sections)
    (items : list jsstring) :
  getSection section secs = Some items →
  (section, setAdd sentence items) ∈ addToSection section sentence secs.
Proof.
  induction secs as [|[k its] secs IH]; cbn; [discriminate|].
  case_bool_decide as Hk.
  - intros [= ->]. subst k. apply elem_of_cons. now left.
  - intros H. apply elem_of_cons. right. now apply IH.
Qed.

Lemma addSentence_adds (secs : sections) (x key : jsstring) :
  detectSectionForText (toLowerCase x) = Some key →
  key ∈ map fst secs →
  ∃ items, (key, items) ∈ addSentence secs x
           ∧ (x ∈ items ∨ maxItemsPerSection ≤ length items).
Proof.
  intros Hd Hkey. unfold addSentence. rewrite Hd.
  destruct (getSection_Some _ _ Hkey) as [items Hget]. rewrite Hget.
  destruct (length items <? maxItemsPerSection) eqn:Hlt.
  - exists (setAdd x items). split; [now apply addToSection_hit|].
    left. apply setAdd_elem. now right.
  - exists items. split; [now apply getSection_elem|].
    right. apply Nat.ltb_ge, Hlt.
Qed.

Lemma extends_keeps (a b : sections) (key x : jsstring) :
  extends a b →
  (∃ items, (key, items) ∈ a ∧ (x ∈ items ∨ maxItemsPerSection ≤ length items)) →
  ∃ items, (key, items) ∈ b ∧ (x ∈ items ∨ maxItemsPerSection ≤ length items).
Proof.
  intros Hext (items & Hin & Hx).
  destruct (extends_elem _ _ _ _ Hext Hin) as (items' & Hin' & Hp).
  exists items'. split; [exact Hin'|].
  destruct Hx as [Hx|Hfull].
  - left. eapply elem_of_prefix; eassumption.
  - right. apply prefix_length in Hp. lia.
Qed.

Lemma foldl_addSentence_adds (sentences : list jsstring) (secs : sections)
    (x key : jsstring) :
  x ∈ sentences →
  detectSectionForText (toLowerCase x) = Some key →
  key ∈ map fst secs →
  ∃ items, (key, items) ∈ foldl addSentence secs sentences
           ∧ (x ∈ items ∨ maxItemsPerSection ≤ length items).
Proof.
  intros Hx Hd Hkey. apply list_elem_of_split in Hx as (l1 & l2 & ->).
  rewrite foldl_app. cbn.
  eapply extends_keeps; [apply foldl_extends, addSentence_extends|].
  apply addSentence_adds; [exact Hd|].
  now rewrite <- (extends_keys secs) by apply foldl_extends, addSentence_extends.
Qed.

Lemma foldl_addMessage_adds (msgs : list (option chatMessage)) (secs : sections)
    (msg : chatMessage) (x key : jsstring) :
  Some msg ∈ msgs →
  x ∈ splitIntoSentences (default [] (content msg)) →
  detectSectionForText (toLowerCase x) = Some key →
  key ∈ map fst secs →
  ∃ items, (key, items) ∈ foldl addMessage secs msgs
           ∧ (x ∈ items ∨ maxItemsPerSection ≤ length items).
Proof.
  intros Hm Hx Hd Hkey. apply list_elem_of_split in Hm as (l1 & l2 & ->).
  rewrite foldl_app. cbn.
  eapply extends_keeps; [apply foldl_extends, addMessage_extends|].
  apply foldl_addSentence_adds; [exact Hx | exact Hd |].
  now rewrite <- (extends_keys secs) by apply foldl_extends, addMessage_extends.
Qed.

Lemma firstSection_key (textLower : jsstring) (table : list (jsstring * list jsstring))
    (key : jsstring) :
  firstSection textLower table = Some key → key ∈ map fst table.
Proof.
  induction table as [|[section terms] table IH]; cbn; [discriminate|].
  destruct (existsb _ terms).
  - intros [= ->]. apply elem_of_cons. now left.
  - intros H. apply elem_of_cons. right. now apply IH.
Qed.

Lemma detectSectionForText_key (textLower key : jsstring) :
  detectSectionForText textLower = Some key → key ∈ sectionKeys.
Proof.
  intros H. apply firstSection_key in H.
  replace sectionKeys with (map fst keywords); [exact H | vm_compute; reflexivity].
Qed.

Lemma buildSections_adds (messages : list (option chatMessage)) (msg : chatMessage)
    (x key : jsstring) :
  Some msg ∈ messages →
  isAssistant (Some msg) = true →
  x ∈ splitIntoSentences (default [] (content msg)) →
  detectSectionForText (toLowerCase x) = Some key →
  ∃ items, (key, items) ∈ buildSections messages
           ∧ (x ∈ items ∨ length items = maxItemsPerSection).
Proof.
  intros Hm Ha Hx Hd. unfold buildSections.
  destruct (foldl_addMessage_adds (filter (fun m => isAssistant m = true) messages)
              emptySections msg x key) as (items & Hin & Hitems).
  - apply list_elem_of_filter. now split.
  - exact Hx.
  - exact Hd.
  - replace (map fst emptySections) with sectionKeys by (vm_compute; reflexivity).
    now apply (detectSectionForText_key (toLowerCase x)).
  - exists items. split; [exact Hin|].
    destruct Hitems as [?|Hfull]; [now left|]. right.
    pose proof (buildSections_bounded messages) as Hb.
    rewrite Forall_forall in Hb. apply Hb in Hin as [Hlen _]. cbn in Hlen.
    unfold buildSections in Hlen. lia.
Qed.

(** C3. Whatever the messages, the result of [buildSections] has exactly the
    seven section keys, in their order; no section has more than 3 items,
    none has the same sentence twice, and every item of a section is a
    sentence that [detectSectionForText] gives to that section, so that a
    section without a match is there and is empty. *)
Theorem buildSections_shape (messages : list (option chatMessage)) :
  map fst (buildSections messages)
  = map js ["identity"; "habitat"; "diet"; "skills"; "challenges"; "message"; "future"]
  ∧ Forall (fun section => length section.2 ≤ 3 ∧ NoDup section.2) (buildSections messages)
  ∧ ∀ (key : jsstring) (items : list jsstring),
      (key, items) ∈ buildSections messages →
      Forall (fun x => detectSectionForText (toLowerCase x) = Some key) items.
Proof.
  split_and!.
  - apply buildSections_keys.
  - apply buildSections_bounded.
  - intros key items Hin. apply Forall_forall. intros x Hx.
    destruct (buildSections_elem _ _ _ _ Hin Hx) as (msg & _ & _ & _ & Hd). exact Hd.
Qed.

Lemma buildSections_shape_witness :
  let history :=
    [Examples.userSays "Where do you live?";
     Examples.assistantSays "I roam the sea ice near Svalbard. I hunt ringed seals."] in
  buildSections history
  = [(js "identity", []); (js "habitat", [js "I roam the sea ice near Svalbard."]);
     (js "diet", [js "I hunt ringed seals."]); (js "skills", []); (js "challenges", []);
     (js "message", []); (js "future", [])]
  ∧ Forall (fun x => detectSectionForText (toLowerCase x) = Some (js "diet"))
           [js "I hunt ringed seals."].
Proof.
  intros history. split; [vm_compute; reflexivity|].
  apply (proj2 (proj2 (buildSections_shape history)) (js "diet") [js "I hunt ringed seals."]).
  by_computation.
Defined.

(** C5. When messages are added at the end of the history, every section of
    the first result is a prefix of the section with the same key of the new
    result: the items already there stay, in their places. *)
Theorem buildSections_monotone (messages extra : list (option chatMessage)) :
  Forall2 (fun before after => before.1 = after.1 ∧ before.2 `prefix_of` after.2)
          (buildSections messages) (buildSections (messages ++ extra)).
Proof.
  rewrite buildSections_app. apply foldl_extends, addMessage_extends.
Qed.

(** C10. [buildSections] reads the messages whose role is [assistant] or
    [bot], and no other: a message with another role or without one, or a
    [null] entry, can be taken out of the history without changing the
    result; a message with the role [bot] counts as the same message with
    the role [assistant]; every item of the result is a sentence of a message
    with one of the two roles; and every sentence of such a message that
    [detectSectionForText] gives to a section is in that section, unless
    the section has its 3 items. *)
Theorem buildSections_roles :
  (∀ (m : option chatMessage),
     isAssistant m = true
     ↔ ∃ msg, m = Some msg
              ∧ (role msg = Some (js "assistant") ∨ role msg = Some (js "bot")))
  ∧ (∀ (before after : list (option chatMessage)) (m : option chatMessage),
       isAssistant m = false →
       buildSections (before ++ m :: after) = buildSections (before ++ after))
  ∧ (∀ (before after : list (option chatMessage)) (text : option jsstring),
       buildSections (before ++ Some {| role := Some (js "bot"); content := text |} :: after)
       = buildSections
           (before ++ Some {| role := Some (js "assistant"); content := text |} :: after))
  ∧ (∀ (messages : list (option chatMessage)) (key : jsstring) (items : list jsstring)
       (x : jsstring),
       (key, items) ∈ buildSections messages → x ∈ items →
       ∃ msg, Some msg ∈ messages
              ∧ isAssistant (Some msg) = true
              ∧ x ∈ splitIntoSentences (default [] (content msg))
              ∧ detectSectionForText (toLowerCase x) = Some key)
  ∧ (∀ (messages : list (option chatMessage)) (msg : chatMessage) (x key : jsstring),
       Some msg ∈ messages →
       isAssistant (Some msg) = true →
       x ∈ splitIntoSentences (default [] (content msg)) →
       detectSectionForText (toLowerCase x) = Some key →
       ∃ items, (key, items) ∈ buildSections messages
                ∧ (x ∈ items ∨ length items = 3)).
Proof.
  split_and!.
  - intros [msg|]; cbn.
    + rewrite orb_true_iff, !bool_decide_eq_true. split.
      * intros H. exists msg. now split.
      * intros (msg' & [= <-] & H). exact H.
    + split; [discriminate | intros (msg & [=] & _)].
  - intros before after m Hm. unfold buildSections.
    rewrite !filter_app, filter_cons_False; [reflexivity|]. now rewrite Hm.
  - intros before after text. unfold buildSections.
    rewrite !filter_app, !filter_cons_True by reflexivity.
    rewrite !foldl_app. reflexivity.
  - apply buildSections_elem.
  - apply buildSections_adds.
Qed.

Lemma buildSections_roles_witness :
  let history :=
    [Examples.userSays "Where do you live?";
     Examples.assistantSays "I roam the sea ice near Svalbard. I hunt ringed seals."] in
  ∃ items, (js "diet", items) ∈ buildSections history
           ∧ (js "I hunt ringed seals." ∈ items ∨ length items = 3).
Proof.
  refine (proj2 (proj2 (proj2 (proj2 buildSections_roles))) _
            {| role := Some (js "assistant");
               content := Some (js "I roam the sea ice near Svalbard. I hunt ringed seals.") |}
            (js "I hunt ringed seals.") (js "diet") _ _ _ _).
  - by_computation.
  - vm_compute. reflexivity.
  - by_computation.
  - vm_compute. reflexivity.
Defined.

End Extraction.

(** ** The translation of [js/blueprint-generator.js] *)

Section Translation.
Import BlueprintGenerator.

Variable JSON_parse : jsstring → option value.
Variable Number_toString : float → jsstring.
Variable fetch : nat → request → fetchResult.

#[local] Arguments js : simpl never.
#[local] Arguments JSON_stringify : simpl never.
#[local] Arguments toLowerCase : simpl never.

(** *** Failures are caught *)

Lemma failure_throws (secs : sections) (lang : jsstring) (cfg : aiConfig) (n : nat) :
  (∀ n req, failure JSON_parse (fetch n req)) →
  translateViaOpenRouter JSON_parse Number_toString fetch secs lang cfg n = None.
Proof.
  intros Hfail. unfold translateViaOpenRouter. cbv zeta.
  destruct (Hfail n {| reqConfig := cfg;
                       reqTargetName :=
                         if bool_decide (lang = js "es") then js "Spanish" else js "English";
                       reqSections := secs |})
    as [| | |data text Hcontent Hparse]; unfold structuredOutput; try reflexivity.
  rewrite Hcontent. cbn. rewrite Hparse. reflexivity.
Qed.

Lemma fail_open_step (env : environment) (secs : sections) (targetLang : option jsstring)
    (st : state) :
  (∀ n req, failure JSON_parse (fetch n req)) →
  translationCache st = ∅ →
  ∃ st', maybeTranslateSections JSON_parse Number_toString fetch env secs targetLang st
         = (secs, st')
         ∧ translationCache st' = ∅.
Proof.
  intros Hfail Hcache. unfold maybeTranslateSections. cbv zeta.
  destruct (totalCount secs =? 0); [eauto|].
  rewrite Hcache, lookup_empty.
  destruct (negb _ && negb _); [eauto|].
  destruct (getAIConfig env) as [cfg|]; [|eauto].
  destruct (negb (hasApiKey cfg)); [eauto|].
  rewrite failure_throws by exact Hfail. eauto.
Qed.

Lemma fail_open_run (calls : list (environment * sections * option jsstring)) (st : state) :
  (∀ n req, failure JSON_parse (fetch n req)) →
  translationCache st = ∅ →
  (runCalls JSON_parse Number_toString fetch calls st).1 = map (fun call => call.1.2) calls
  ∧ translationCache (runCalls JSON_parse Number_toString fetch calls st).2 = ∅.
Proof.
  intros Hfail. revert st.
  induction calls as [|[[env secs] targetLang] calls IH]; intros st Hcache; cbn [runCalls map].
  - now split.
  - destruct (fail_open_step env secs targetLang st Hfail Hcache) as (st1 & -> & Hcache1).
    destruct (IH st1 Hcache1) as [Hres Hend].
    destruct (runCalls _ _ _ calls st1) as [rs st2]. cbn in *. now rewrite Hres.
Qed.

(** C4. With a capability that fails at every call ([fetch] rejects, the
    answer is an HTTP error, or its body or the text of its message is not
    JSON), every call of [maybeTranslateSections] on a generator, from its
    creation on, returns the sections it was given; the failure is caught,
    the call gives a result as any other. *)
Theorem maybeTranslateSections_fail_open
    (calls : list (environment * sections * option jsstring)) :
  (∀ n req, failure JSON_parse (fetch n req)) →
  (runCalls JSON_parse Number_toString fetch calls initialState).1
  = map (fun call => call.1.2) calls.
Proof. intros Hfail. now apply fail_open_run. Qed.

(** *** A translation is kept *)

Lemma maybeTranslateSections_calls (env : environment) (secs : sections)
    (targetLang : option jsstring) (st : state) :
  let st' := (maybeTranslateSections JSON_parse Number_toString fetch env secs targetLang st).2 in
  fetchCalls st ≤ fetchCalls st' ≤ S (fetchCalls st).
Proof.
  unfold maybeTranslateSections. cbv zeta.
  repeat case_match; cbn; lia.
Qed.

(** What a call leaves: its result in the cache under the key of the
    sections and the language (it was there, or the capability gave it), or
    else the sections it was given and the cache as it was. *)
Lemma maybeTranslateSections_outcome (env : environment) (secs : sections)
    (targetLang : option jsstring) (st : state) (r : sections) (st' : state) :
  maybeTranslateSections JSON_parse Number_toString fetch env secs targetLang st = (r, st') →
  translationCache st' !! cacheKey secs (effectiveLanguage env targetLang) = Some r
  ∨ (r = secs ∧ translationCache st' = translationCache st).
Proof.
  unfold maybeTranslateSections. cbv zeta.
  destruct (totalCount secs =? 0); [intros [= <- <-]; now right|].
  destruct (translationCache st !! _) as [cached|] eqn:Hhit; [intros [= <- <-]; now left|].
  destruct (negb _ && negb _); [intros [= <- <-]; now right|].
  destruct (getAIConfig env) as [cfg|]; [|intros [= <- <-]; now right].
  destruct (negb (hasApiKey cfg)); [intros [= <- <-]; now right|].
  destruct (translateViaOpenRouter _ _ _ _ _ _ _) as [translated|]; intros [= <- <-]; cbn.
  - left. apply lookup_insert_eq.
  - now right.
Qed.

(** C6. Two calls of [maybeTranslateSections], one after the other, with
    the same sections and the same language: when the first resolved with a
    translation (its result is in the cache under the key of the sections
    and the language), the second returns that same value from the cache and
    does not call the capability, which is thus called at most once over the
    two calls. *)
Theorem maybeTranslateSections_cached (env1 env2 : environment) (secs : sections)
    (targetLang1 targetLang2 : option jsstring) (st st1 st2 : state) (r1 r2 : sections) :
  effectiveLanguage env1 targetLang1 = effectiveLanguage env2 targetLang2 →
  maybeTranslateSections JSON_parse Number_toString fetch env1 secs targetLang1 st
  = (r1, st1) →
  maybeTranslateSections JSON_parse Number_toString fetch env2 secs targetLang2 st1
  = (r2, st2) →
  translationCache st1 !! cacheKey secs (effectiveLanguage env1 targetLang1) = Some r1 →
  r2 = r1
  ∧ fetchCalls st2 = fetchCalls st1
  ∧ fetchCalls st2 ≤ S (fetchCalls st)
  ∧ translationCache st2 !! cacheKey secs (effectiveLanguage env2 targetLang2) = Some r2.
Proof.
  intros Hlang Hfirst Hsecond Hcached.
  pose proof (maybeTranslateSections_calls env1 secs targetLang1 st) as Hcalls.
  rewrite Hfirst in Hcalls. cbn in Hcalls.
  revert Hsecond. unfold maybeTranslateSections at 1. cbv zeta. rewrite <- Hlang.
  destruct (totalCount secs =? 0) eqn:Hcount.
  - intros [= <- <-]. revert Hfirst. unfold maybeTranslateSections. cbv zeta.
    rewrite Hcount. intros [= <- <-]. split_and!; [reflexivity | reflexivity | lia |].
    exact Hcached.
  - rewrite Hcached. intros [= <- <-]. split_and!; [reflexivity | reflexivity | lia |].
    exact Hcached.
Qed.

(** *** A translation is checked section by section *)

Lemma getProp_is_Some (v : value) (key key' : jsstring) :
  is_Some (getProp v key) → is_Some (getProp v key').
Proof.
  destruct v; cbn; intros H; try exact H; try (eexists; reflexivity);
    repeat case_match; eexists; reflexivity.
Qed.

Lemma truthy_getProp (v : value) (key : jsstring) :
  truthy v = true → is_Some (getProp v key).
Proof.
  destruct v; cbn; intros H; try discriminate; try (eexists; reflexivity);
    repeat case_match; eexists; reflexivity.
Qed.

Lemma structuredOutput_object (reply : fetchResult) (out : value) (key : jsstring) :
  structuredOutput JSON_parse reply = Some out → is_Some (getProp out key).
Proof.
  unfold structuredOutput.
  destruct reply as [|[] [data|]]; try discriminate.
  destruct (messageContent data) as [[]|]; try discriminate. cbn.
  destruct (JSON_parse _) as [parsed|]; [|discriminate]. cbn.
  destruct (getProp parsed (js "sections")) as [given|] eqn:Hgiven; [|discriminate]. cbn.
  destruct (truthy given) eqn:Htruthy; intros [= <-].
  - now apply truthy_getProp.
  - apply (getProp_is_Some parsed (js "sections")). now rewrite Hgiven.
Qed.

Lemma validate_Some (out : value) (secs result : sections) :
  validate Number_toString out secs = Some result →
  Forall2 (fun original section =>
             section.1 = original.1
             ∧ match getProp out original.1 with
               | Some (VArr items) =>
                 Forall2 (fun x s => ToString Number_toString x = Some s) items section.2
               | _ => section.2 = original.2
               end)
          secs result.
Proof.
  revert result. induction secs as [|[key items] secs IH]; intros result; cbn [validate].
  - intros [= <-]. constructor.
  - destruct (getProp out key) as [v|] eqn:Hv; [|discriminate]. cbn [mbind option_bind].
    destruct (match v with VArr translated => mapM _ translated | _ => Some items end)
      as [arr|] eqn:Harr; [|discriminate]. cbn [mbind option_bind].
    destruct (validate Number_toString out secs) as [rest|]; [|discriminate].
    intros [= <-]. constructor; [|now apply IH]. cbn [fst snd]. split; [reflexivity|].
    rewrite Hv. destruct v; try (now injection Harr as <-).
    now apply mapM_Some in Harr.
Qed.

Lemma validate_throws (out : value) (secs : sections) (original : jsstring * list jsstring)
    (items : list value) (x : value) :
  original ∈ secs →
  getProp out original.1 = Some (VArr items) →
  x ∈ items →
  ToString Number_toString x = None →
  validate Number_toString out secs = None.
Proof.
  intros Hin Hitems Hx Hthrows.
  destruct (validate Number_toString out secs) as [result|] eqn:Hres; [|reflexivity].
  exfalso. apply validate_Some in Hres.
  apply list_elem_of_lookup in Hin as [i Hi].
  destruct (Forall2_lookup_l _ _ _ _ _ Hres Hi) as (section & _ & _ & Hsection).
  rewrite Hitems in Hsection.
  apply list_elem_of_lookup in Hx as [j Hj].
  destruct (Forall2_lookup_l _ _ _ _ _ Hsection Hj) as (s & _ & Hs). congruence.
Qed.

Lemma validate_coerces (out : value) (secs : sections) :
  (∀ key, is_Some (getProp out key)) →
  (∀ original items x,
     original ∈ secs → getProp out original.1 = Some (VArr items) → x ∈ items →
     is_Some (ToString Number_toString x)) →
  is_Some (validate Number_toString out secs).
Proof.
  intros Hout. induction secs as [|[key items] secs IH]; intros Hcoerce; cbn [validate].
  - eexists. reflexivity.
  - destruct (Hout key) as [v Hv]. rewrite Hv. cbn [mbind option_bind].
    assert (Harr : is_Some (match v with
                            | VArr translated => mapM (ToString Number_toString) translated
                            | _ => Some items
                            end)).
    { destruct v; try (eexists; reflexivity).
      apply mapM_is_Some, Forall_forall. intros x Hx.
      eapply (Hcoerce (key, items)); [apply elem_of_cons; now left | exact Hv | exact Hx]. }
    destruct Harr as [arr ->]. cbn [mbind option_bind].
    destruct IH as [rest ->]; [|eexists; reflexivity].
    intros original translated x Hin. apply Hcoerce. apply elem_of_cons. now right.
Qed.

(** C2, as amended. When the capability answers with a structured output
    [out], the localizer does not discard it for its shape. If [String]
    accepts every item of the arrays that [out] holds for the keys of the
    sections, the localizer returns (and keeps in the cache) a section map
    with the keys of the original, where a section whose key [out] holds with
    an array has the items of that array, each made a string, whatever their
    number, and any other section, its key missing in [out] or held with
    something else than an array, has its original items. If [String] throws
    on one of these items (an object with a [toString] of its own), the
    localizer returns the original sections and leaves the cache as it was. *)
Theorem maybeTranslateSections_per_section (env : environment) (secs : sections)
    (targetLang : option jsstring) (st : state) (cfg : aiConfig) (out : value) :
  let lang := effectiveLanguage env targetLang in
  let req :=
    {| reqConfig := cfg;
       reqTargetName := if bool_decide (lang = js "es") then js "Spanish" else js "English";
       reqSections := secs |} in
  totalCount secs ≠ 0 →
  translationCache st !! cacheKey secs lang = None →
  lang = js "en" ∨ lang = js "es" →
  getAIConfig env = Some cfg →
  hasApiKey cfg = true →
  structuredOutput JSON_parse (fetch (fetchCalls st) req) = Some out →
  ∃ result st',
    maybeTranslateSections JSON_parse Number_toString fetch env secs targetLang st
    = (result, st')
    ∧ ((∀ original items x,
          original ∈ secs → getProp out original.1 = Some (VArr items) → x ∈ items →
          is_Some (ToString Number_toString x)) →
       translationCache st' !! cacheKey secs lang = Some result
       ∧ Forall2 (fun original section =>
                    section.1 = original.1
                    ∧ match getProp out original.1 with
                      | Some (VArr items) =>
                        Forall2 (fun x s => ToString Number_toString x = Some s)
                                items section.2
                      | _ => section.2 = original.2
                      end)
                 secs result)
    ∧ (∀ original items x,
         original ∈ secs → getProp out original.1 = Some (VArr items) → x ∈ items →
         ToString Number_toString x = None →
         result = secs ∧ translationCache st' = translationCache st).
Proof.
  intros lang req Hcount Hmiss Hlang Hcfg Hkey Hout.
  assert (Hprops : ∀ key, is_Some (getProp out key)).
  { intros key. now apply (structuredOutput_object _ _ _ Hout). }
  unfold maybeTranslateSections. cbv zeta. fold lang.
  apply Nat.eqb_neq in Hcount. rewrite Hcount, Hmiss, Hcfg, Hkey.
  assert (Hsupported : negb (bool_decide (lang = js "en")) && negb (bool_decide (lang = js "es"))
                       = false).
  { destruct Hlang as [->| ->]; reflexivity. }
  rewrite Hsupported. cbn [negb].
  unfold translateViaOpenRouter. cbv zeta. fold lang. fold req. rewrite Hout.
  cbn [mbind option_bind].
  destruct (validate Number_toString out secs) as [result|] eqn:Hres.
  - eexists _, _. split_and!; [reflexivity | |].
    + intros _. split; [apply lookup_insert_eq | now apply validate_Some].
    + intros original items x Hin Hitems Hx Hthrows.
      rewrite (validate_throws out secs original items x Hin Hitems Hx Hthrows) in Hres.
      discriminate Hres.
  - eexists _, _. split_and!; [reflexivity | |].
    + intros Hcoerce. destruct (validate_coerces out secs Hprops Hcoerce) as [result Hsome].
      rewrite Hsome in Hres. discriminate Hres.
    + intros. now split.
Qed.

End Translation.

(** ** The runs *)

Section Runs.
Import BlueprintGenerator Examples.

Lemma maybeTranslateSections_fail_open_witness :
  (runCalls parse numberToString unreachable
            [(page, original, Some (js "es")); (page, translated, None)] initialState).1
  = [original; translated].
Proof.
  apply (maybeTranslateSections_fail_open parse numberToString unreachable
           [(page, original, Some (js "es")); (page, translated, None)]).
  intros n req. apply failure_rejected.
Defined.

Lemma maybeTranslateSections_cached_witness :
  let first :=
    maybeTranslateSections parse numberToString (answers translated) page original
                           (Some (js "ES")) initialState in
  let second :=
    maybeTranslateSections parse numberToString (answers translated) page original
                           None first.2 in
  first.1 = translated ∧ second.1 = translated
  ∧ fetchCalls first.2 = 1 ∧ fetchCalls second.2 = 1.
Proof.
  intros first second.
  destruct (maybeTranslateSections_cached parse numberToString (answers translated)
              page page original (Some (js "ES")) None initialState first.2 second.2
              first.1 second.1) as (Hsame & Hcalls & _ & _).
  - vm_compute. reflexivity.
  - apply surjective_pairing.
  - apply surjective_pairing.
  - vm_compute. reflexivity.
  - assert (Hfirst : first.1 = translated) by (vm_compute; reflexivity).
    assert (Hone : fetchCalls first.2 = 1) by (vm_compute; reflexivity).
    split_and!; [exact Hfirst | now rewrite Hsame | exact Hone | now rewrite Hcalls].
Defined.

Lemma maybeTranslateSections_per_section_witness :
  ∃ result st',
    maybeTranslateSections parse numberToString (answers missingKey) page original None
                           initialState
    = (result, st')
    ∧ translationCache st' !! cacheKey original (js "es") = Some result
    ∧ Forall2 (fun original section =>
                 section.1 = original.1
                 ∧ match getProp (valueOfSections missingKey) original.1 with
                   | Some (VArr items) =>
                     Forall2 (fun x s => ToString numberToString x = Some s) items section.2
                   | _ => section.2 = original.2
                   end)
              original result.
Proof.
  destruct (maybeTranslateSections_per_section parse numberToString (answers missingKey)
              page original None initialState
              {| apiKey := Some (js "sk-or-key"); baseURL := js "https://openrouter.ai/api/v1";
                 model := js "deepseek/deepseek-chat" |}
              (valueOfSections missingKey))
    as (result & st' & Hcall & Hcoerced & _).
  - vm_compute. discriminate.
  - vm_compute. reflexivity.
  - right. vm_compute. reflexivity.
  - reflexivity.
  - reflexivity.
  - vm_compute. reflexivity.
  - exists result, st'. split; [exact Hcall|]. apply Hcoerced.
    intros section items x Hin Hitems Hx.
    assert (Hstrings : items = [VStr (js "Soy Polar.")]).
    { apply elem_of_cons in Hin as [->|Hin]; [|apply list_elem_of_singleton in Hin as ->];
        vm_compute in Hitems; [now injection Hitems as <- | discriminate Hitems]. }
    subst items. apply list_elem_of_singleton in Hx as ->. eexists. reflexivity.
Defined.

(** The other case of C2 as amended, on a run: to the output
    [{identity:[{toString:1}]}], on whose item [String] throws, the localizer
    answers with the original sections, and its cache stays empty. *)
Lemma maybeTranslateSections_uncoercible :
  let call :=
    maybeTranslateSections parseOwnToString numberToString answersOwnToString page original
                           None initialState in
  ToString numberToString (VObj [(js "toString", VNum 1%float)]) = None
  ∧ call.1 = original
  ∧ translationCache call.2 = ∅
  ∧ fetchCalls call.2 = 1.
Proof. vm_compute. split_and!; reflexivity. Qed.

(** C2 as stated fails: to an output without the key [habitat], the
    localizer answers with the translated [identity] and the original
    [habitat]; to an output with two items where [identity] had one, it
    answers with that output. Neither is the original. *)
Lemma maybeTranslateSections_keeps_malformed :
  let localize reply :=
    (maybeTranslateSections parse numberToString (answers reply) page original None
                            initialState).1 in
  getProp (valueOfSections missingKey) (js "habitat") = Some VUndefined
  ∧ localize missingKey
    = [(js "identity", [js "Soy Polar."]); (js "habitat", [js "I live on the sea ice."])]
  ∧ localize missingKey ≠ original
  ∧ map (fun section => length section.2) wrongLength = [2; 1]
  ∧ map (fun section => length section.2) original = [1; 1]
  ∧ localize wrongLength = wrongLength
  ∧ localize wrongLength ≠ original.
Proof.
  intros localize.
  assert (Hmissing : localize missingKey
                     = [(js "identity", [js "Soy Polar."]);
                        (js "habitat", [js "I live on the sea ice."])])
    by (vm_compute; reflexivity).
  assert (Hwrong : localize wrongLength = wrongLength) by (vm_compute; reflexivity).
  split_and!.
  - vm_compute. reflexivity.
  - exact Hmissing.
  - rewrite Hmissing. vm_compute. discriminate.
  - reflexivity.
  - reflexivity.
  - exact Hwrong.
  - rewrite Hwrong. vm_compute. discriminate.
Qed.

End Runs.

(** ** The markup of [js/blueprint-generator.js] *)

Section Markup.
Import BlueprintGenerator.

Lemma replaceUnit_app (c : N) (replacement a b : jsstring) :
  replaceUnit c replacement (a ++ b)
  = replaceUnit c replacement a ++ replaceUnit c replacement b.
Proof.
  induction a as [|d a IH]; [reflexivity|].
  cbn [app replaceUnit]. now rewrite IH, app_assoc.
Qed.

Lemma escapeHtml_app (a b : jsstring) : escapeHtml (a ++ b) = escapeHtml a ++ escapeHtml b.
Proof. unfold escapeHtml. now rewrite !replaceUnit_app. Qed.

Lemma escapeHtml_unit (c : N) : escapeHtml [c] = entityOf c.
Proof.
  unfold escapeHtml, entityOf. cbn [replaceUnit].
  destruct (N.eqb_spec c 0x26) as [->|H1]; [vm_compute; reflexivity|].
  cbn [app replaceUnit]. destruct (N.eqb_spec c 0x3C) as [->|H2]; [vm_compute; reflexivity|].
  cbn [app replaceUnit]. destruct (N.eqb_spec c 0x3E) as [->|H3]; [vm_compute; reflexivity|].
  cbn [app replaceUnit]. destruct (N.eqb_spec c 0x22) as [->|H4]; [vm_compute; reflexivity|].
  cbn [app replaceUnit]. destruct (N.eqb_spec c 0x27) as [->|H5]; [vm_compute; reflexivity|].
  reflexivity.
Qed.

Lemma escapeHtml_concat (str : jsstring) :
  escapeHtml str = concat (map entityOf str).
Proof.
  induction str as [|c str IH]; [reflexivity|].
  change (c :: str) with ([c] ++ str).
  rewrite escapeHtml_app, escapeHtml_unit, IH. reflexivity.
Qed.

(** X1. The five replacements of [escapeHtml], made one after the other on
    the whole string, come to one pass over the string that puts its entity
    in the place of each of [&], [<], [>], the double quote and the
    apostrophe and keeps every other character: the [&] of an entity is not
    escaped a second time. *)
Theorem escapeHtml_one_pass (str : jsstring) :
  escapeHtml str = concat (map entityOf str).
Proof. apply escapeHtml_concat. Qed.

Lemma entityOf_safe (c : N) :
  Forall (fun d => d ≠ 0x3C%N ∧ d ≠ 0x3E%N ∧ d ≠ 0x22%N ∧ d ≠ 0x27%N) (entityOf c).
Proof.
  unfold entityOf.
  destruct (N.eqb_spec c 0x26); [vm_compute; repeat constructor; discriminate|].
  destruct (N.eqb_spec c 0x3C); [vm_compute; repeat constructor; discriminate|].
  destruct (N.eqb_spec c 0x3E); [vm_compute; repeat constructor; discriminate|].
  destruct (N.eqb_spec c 0x22); [vm_compute; repeat constructor; discriminate|].
  destruct (N.eqb_spec c 0x27); [vm_compute; repeat constructor; discriminate|].
  repeat constructor; assumption.
Qed.

(** X2. Whatever the text, the result of [escapeHtml] has no [<], no [>], no
    double quote and no apostrophe. *)
Theorem escapeHtml_no_markup (str : jsstring) :
  Forall (fun c => c ≠ 0x3C%N ∧ c ≠ 0x3E%N ∧ c ≠ 0x22%N ∧ c ≠ 0x27%N) (escapeHtml str).
Proof.
  rewrite escapeHtml_concat.
  induction str as [|c str IH]; cbn [map concat]; [constructor|].
  apply Forall_app. split; [apply entityOf_safe | exact IH].
Qed.

Lemma entityOf_app_inj (c d : N) (x y : jsstring) :
  entityOf c ++ x = entityOf d ++ y → c = d ∧ x = y.
Proof.
  unfold entityOf.
  destruct (N.eqb_spec c 0x26) as [->|?]; [|
  destruct (N.eqb_spec c 0x3C) as [->|?]; [|
  destruct (N.eqb_spec c 0x3E) as [->|?]; [|
  destruct (N.eqb_spec c 0x22) as [->|?]; [|
  destruct (N.eqb_spec c 0x27) as [->|?]]]]];
  (destruct (N.eqb_spec d 0x26) as [->|?]; [|
   destruct (N.eqb_spec d 0x3C) as [->|?]; [|
   destruct (N.eqb_spec d 0x3E) as [->|?]; [|
   destruct (N.eqb_spec d 0x22) as [->|?]; [|
   destruct (N.eqb_spec d 0x27) as [->|?]]]]]);
  vm_compute; intros H; try discriminate H;
  try (injection H as ?; subst; try congruence; now split).
Qed.

(** X3. [escapeHtml] gives different results for different texts. *)
Theorem escapeHtml_injective (a b : jsstring) :
  escapeHtml a = escapeHtml b → a = b.
Proof.
  rewrite !escapeHtml_concat. revert b.
  induction a as [|c a IH]; intros [|d b]; cbn [map concat].
  - reflexivity.
  - intros H. exfalso. unfold entityOf in H.
    destruct (d =? 0x26)%N; [discriminate|]. destruct (d =? 0x3C)%N; [discriminate|].
    destruct (d =? 0x3E)%N; [discriminate|]. destruct (d =? 0x22)%N; [discriminate|].
    destruct (d =? 0x27)%N; discriminate.
  - intros H. exfalso. unfold entityOf in H.
    destruct (c =? 0x26)%N; [discriminate|]. destruct (c =? 0x3C)%N; [discriminate|].
    destruct (c =? 0x3E)%N; [discriminate|]. destruct (c =? 0x22)%N; [discriminate|].
    destruct (c =? 0x27)%N; discriminate.
  - intros H. apply entityOf_app_inj in H as [-> H]. now rewrite (IH b H).
Qed.

Lemma escapeHtml_injective_witness :
  escapeHtml (js "a<b") = escapeHtml [0x61; 0x3C; 0x62]%N ∧ js "a<b" = [0x61; 0x3C; 0x62]%N.
Proof.
  split; [vm_compute; reflexivity|].
  apply (escapeHtml_injective (js "a<b") [0x61; 0x3C; 0x62]%N). vm_compute. reflexivity.
Defined.

End Markup.

(** ** The replies of [js/ai-service.js] *)

Section Replies.
Import AIService BlueprintGenerator Responder.

#[local] Arguments js : simpl never.
#[local] Arguments preprocessMessage : simpl never.
#[local] Arguments detectTopic : simpl never.

(** X4. The messages sent to the capability are the system prompt, then the
    last ten messages of the history (all of them when there are no more
    than ten) with their roles and contents, in their order, then the
    message of the user: what is older than the last ten is not sent, and
    no more than twelve messages are. *)
Theorem buildMessageHistory_window (systemPrompt : jsstring)
    (older recent : list storedMessage) (userMessage : jsstring) :
  length recent ≤ 10 →
  (older ≠ [] → length recent = 10) →
  buildMessageHistory systemPrompt (older ++ recent) userMessage
  = {| apiRole := js "system"; apiContent := systemPrompt |}
    :: map (fun msg => {| apiRole := role msg; apiContent := content msg |}) recent
    ++ [{| apiRole := js "user"; apiContent := userMessage |}]
  ∧ length (buildMessageHistory systemPrompt (older ++ recent) userMessage) ≤ 12.
Proof.
  intros Hlen Hfull.
  assert (Hrecent : recentHistory (older ++ recent) = recent).
  { unfold recentHistory. destruct older as [|m older].
    - cbn [app]. replace (length recent - 10) with 0 by lia. reflexivity.
    - rewrite (Hfull ltac:(discriminate)) in *. rewrite length_app, Hfull by discriminate.
      replace (length (m :: older) + 10 - 10) with (length (m :: older)) by lia.
      apply drop_app_length. }
  unfold buildMessageHistory. rewrite Hrecent. split; [reflexivity|].
  cbn [app length]. rewrite length_app, length_map. cbn [length]. lia.
Qed.

Lemma buildMessageHistory_window_witness :
  let msg text := {| role := js "user"; content := js text; timestamp := js "t" |} in
  let recent :=
    [msg "1"; msg "2"; msg "3"; msg "4"; msg "5"; msg "6"; msg "7"; msg "8"; msg "9"; msg "10"] in
  length (buildMessageHistory (js "You are Polar") ([msg "-1"; msg "0"] ++ recent) (js "hi")) ≤ 12.
Proof.
  intros msg recent.
  apply (buildMessageHistory_window (js "You are Polar") [msg "-1"; msg "0"] recent (js "hi")).
  - cbn. lia.
  - intros _. reflexivity.
Defined.

Lemma responses_present (t : topic) :
  match responsesFor spanishResponses t, responsesFor fallbackResponses t with
  | Some es, Some en =>
    nonEmpty (map (fun _ => 0%N) es) && forallb nonEmpty es
    && nonEmpty (map (fun _ => 0%N) en) && forallb nonEmpty en = true
  | _, _ => False
  end.
Proof. destruct t; vm_compute; reflexivity. Qed.

Lemma general_present :
  nonEmpty (map (fun _ => 0%N) generalEs) && forallb nonEmpty generalEs
  && nonEmpty (map (fun _ => 0%N) generalEn) && forallb nonEmpty generalEn = true.
Proof. vm_compute. reflexivity. Qed.

Lemma pick_present (randomIndex : nat → nat) (pool : list jsstring) :
  (∀ n, 0 < n → randomIndex n < n) →
  nonEmpty (map (fun _ => 0%N) pool) && forallb nonEmpty pool = true →
  ∃ response, pick randomIndex pool = Some response ∧ response ≠ [] ∧ response ∈ pool.
Proof.
  intros Hrandom Hpool. apply andb_prop in Hpool as [Hsome Hall].
  assert (Hlen : 0 < length pool) by (destruct pool; [discriminate | cbn; lia]).
  unfold pick. destruct (lookup_lt_is_Some_2 pool _ (Hrandom _ Hlen)) as [response Hr].
  exists response. split; [exact Hr|].
  assert (Hin : response ∈ pool) by (eapply list_elem_of_lookup_2, Hr).
  split; [|exact Hin].
  rewrite forallb_forall in Hall. apply list_elem_of_In in Hin.
  specialize (Hall _ Hin). now destruct response.
Qed.

Lemma getFallbackResponse_pool (lang : jsstring) (randomIndex : nat → nat)
    (userMessage : jsstring) :
  (∀ n, 0 < n → randomIndex n < n) →
  ∃ response,
    getFallbackResponse lang randomIndex userMessage = Some response
    ∧ response ≠ []
    ∧ response ∈ poolFor lang (detectTopic (preprocessMessage userMessage)).
Proof.
  intros Hrandom. unfold getFallbackResponse, poolFor. cbv zeta.
  destruct (detectTopic (preprocessMessage userMessage)) as [t|]; cbn [mbind option_bind].
  - pose proof (responses_present t) as Hpools.
    case_bool_decide;
      destruct (responsesFor spanishResponses t) as [es|]; try contradiction;
      destruct (responsesFor fallbackResponses t) as [en|]; try contradiction;
      apply andb_prop in Hpools as [Hpools Hen3]; apply andb_prop in Hpools as [Hpools Hen];
      cbn [default]; apply pick_present; try assumption;
      apply andb_true_intro; split; assumption.
  - pose proof general_present as Hpools.
    apply andb_prop in Hpools as [Hpools Hen3]. apply andb_prop in Hpools as [Hpools Hen].
    case_bool_decide; apply pick_present; try assumption;
      apply andb_true_intro; split; assumption.
Qed.

(** X5. Provided that the random index drawn for a pool of [n] responses is
    below [n], [getFallbackResponse] returns a response, which is not the
    empty string and belongs to the pool of the detected topic in the
    language of the page (Spanish for [es], English for any other), and to
    the general pool of that language when no topic is detected. *)
Theorem getFallbackResponse_from_pool (lang : jsstring) (randomIndex : nat → nat)
    (userMessage : jsstring) :
  (∀ n, 0 < n → randomIndex n < n) →
  ∃ response,
    getFallbackResponse lang randomIndex userMessage = Some response
    ∧ response ≠ []
    ∧ response ∈ poolFor lang (detectTopic (preprocessMessage userMessage)).
Proof. apply getFallbackResponse_pool. Qed.

Lemma getFallbackResponse_from_pool_witness :
  ∃ response,
    getFallbackResponse (js "es") (fun n => n - 1) (js "wat do u eet?") = Some response
    ∧ response ≠ []
    ∧ response ∈ poolFor (js "es") (detectTopic (preprocessMessage (js "wat do u eet?"))).
Proof.
  apply (getFallbackResponse_from_pool (js "es") (fun n => n - 1) (js "wat do u eet?")).
  intros n Hn. lia.
Defined.

(** X6. Provided that the random index drawn for a pool of [n] responses is
    below [n], [generateResponse] returns a string whatever the capability
    does. When the service is available with a key and the capability
    answers with a body that holds a text at [choices[0].message.content],
    the string is that text, trimmed. In every other case (no key, not
    available, [fetch] rejected, HTTP error, body that is not JSON or lacks
    the text) it is the response of [getFallbackResponse], which is not
    empty and is in the pool of the detected topic. *)
Theorem generateResponse_resilient (fetchChat : chatRequest → fetchResult) (svc : service)
    (lang systemPrompt : jsstring) (randomIndex : nat → nat)
    (userMessage : jsstring) (conversationHistory : list storedMessage) :
  let answered (text : jsstring) :=
    isAvailable svc = true
    ∧ (∃ k, serviceKey svc = Some k ∧ k ≠ [])
    ∧ ∃ data content,
        fetchChat
          {| chatModel := serviceModel svc;
             chatMessages :=
               buildMessageHistory systemPrompt conversationHistory
                                   (preprocessMessage userMessage);
             chatMaxTokens := maxTokens svc;
             chatTemperature := temperature svc |}
        = Response true (Some data)
        ∧ (choices ← getProp data (js "choices");
           first ← getProp choices (js "0");
           msg ← getProp first (js "message");
           getProp msg (js "content")) = Some (VStr content)
        ∧ text = trim content in
  (∀ n, 0 < n → randomIndex n < n) →
  ∃ response,
    generateResponse fetchChat svc lang systemPrompt randomIndex userMessage
                     conversationHistory
    = Some response
    ∧ (∀ text, answered text → response = text)
    ∧ ((∀ text, ¬ answered text) →
       getFallbackResponse lang randomIndex userMessage = Some response
       ∧ response ≠ []
       ∧ response ∈ poolFor lang (detectTopic (preprocessMessage userMessage))).
Proof.
  intros answered Hrandom.
  destruct (getFallbackResponse_pool lang randomIndex userMessage Hrandom)
    as (fallback & Hfallback & Hne & Hin).
  assert (Hreply : ∀ data text,
            replyText data = Some text ↔
            ∃ content,
              (choices ← getProp data (js "choices");
               first ← getProp choices (js "0");
               msg ← getProp first (js "message");
               getProp msg (js "content")) = Some (VStr content)
              ∧ text = trim content).
  { intros data text. unfold replyText.
    destruct (getProp data (js "choices")) as [choices|]; cbn [mbind option_bind];
      [|split; [discriminate | intros (content & Hc & _); discriminate Hc]].
    destruct (getProp choices (js "0")) as [first|]; cbn [mbind option_bind];
      [|split; [discriminate | intros (content & Hc & _); discriminate Hc]].
    destruct (getProp first (js "message")) as [msg|]; cbn [mbind option_bind];
      [|split; [discriminate | intros (content & Hc & _); discriminate Hc]].
    destruct (getProp msg (js "content")) as [v|]; cbn [mbind option_bind];
      [|split; [discriminate | intros (content & Hc & _); discriminate Hc]].
    destruct v; try (split; [discriminate | intros (content & Hc & _); discriminate Hc]).
    split.
    - intros [= <-]. eexists. split; reflexivity.
    - intros (content & [= <-] & ->). reflexivity. }
  assert (Hfall : generateResponse fetchChat svc lang systemPrompt randomIndex userMessage
                                   conversationHistory
                  = getFallbackResponse lang randomIndex userMessage →
                  (∀ text, ¬ answered text) →
                  ∃ response,
                    generateResponse fetchChat svc lang systemPrompt randomIndex userMessage
                                     conversationHistory
                    = Some response
                    ∧ (∀ text, answered text → response = text)
                    ∧ ((∀ text, ¬ answered text) →
                       getFallbackResponse lang randomIndex userMessage = Some response
                       ∧ response ≠ []
                       ∧ response ∈ poolFor lang (detectTopic (preprocessMessage userMessage)))).
  { intros Hsame Hnone. exists fallback. rewrite Hsame. split; [exact Hfallback|]. split.
    - intros text Htext. destruct (Hnone text Htext).
    - intros _. split; [exact Hfallback|]. split; assumption. }
  unfold generateResponse in *. cbv zeta in *.
  destruct (isAvailable svc) eqn:Havailable; cbn [negb orb] in *;
    [|apply Hfall; [reflexivity | intros text (Ha & _); discriminate Ha]].
  destruct (serviceKey svc) as [[|c k]|] eqn:Hkey; cbn [nonEmpty negb] in *;
    try (apply Hfall;
         [reflexivity | intros text (_ & (k' & Hk & Hk') & _); congruence]).
  destruct (fetchChat _) as [|[] [data|]] eqn:Hfetch;
    try (apply Hfall;
         [reflexivity
         | intros text (_ & _ & data' & content & Hdata & _); discriminate Hdata]).
  destruct (replyText data) as [text|] eqn:Htext.
  - exists text. split; [reflexivity|]. split.
    + intros text' (_ & _ & data' & content & Hdata & Hcontent & ->).
      injection Hdata as <-.
      assert (Htext' : replyText data = Some (trim content)).
      { apply Hreply. exists content. split; [exact Hcontent | reflexivity]. }
      rewrite Htext in Htext'. injection Htext' as ->. reflexivity.
    + intros Hnone. exfalso. apply (Hnone text). split; [reflexivity|]. split.
      * exists (c :: k). split; [reflexivity | discriminate].
      * apply Hreply in Htext as (content & Hcontent & ->).
        exists data, content. split; [reflexivity|]. split; [exact Hcontent | reflexivity].
  - apply Hfall; [reflexivity|].
    intros text (_ & _ & data' & content & Hdata & Hcontent & ->).
    injection Hdata as <-.
    assert (Htext' : replyText data = Some (trim content)).
    { apply Hreply. exists content. split; [exact Hcontent | reflexivity]. }
    rewrite Htext in Htext'. discriminate Htext'.
Qed.

Lemma generateResponse_resilient_witness :
  generateResponse (fun _ => Response true (Some (Examples.chatCompletion (js " I am Polar.  "))))
    {| isAvailable := true; serviceKey := Some (js "sk-or-key");
       serviceModel := js "deepseek/deepseek-chat"; maxTokens := 500;
       temperature := 0x1.999999999999ap-1%float |}
    (js "en") (js "You are Polar") (fun n => 0) (js "hello") []
  = Some (js "I am Polar.").
Proof.
  destruct (generateResponse_resilient
      (fun _ => Response true (Some (Examples.chatCompletion (js " I am Polar.  "))))
      {| isAvailable := true; serviceKey := Some (js "sk-or-key");
         serviceModel := js "deepseek/deepseek-chat"; maxTokens := 500;
         temperature := 0x1.999999999999ap-1%float |}
      (js "en") (js "You are Polar") (fun n => 0) (js "hello") [])
    as (response & Hres & Hanswered & _).
  - intros n Hn. exact Hn.
  - rewrite Hres. f_equal. apply Hanswered. split; [reflexivity|]. split.
    + exists (js "sk-or-key"). split; [reflexivity | vm_compute; discriminate].
    + exists (Examples.chatCompletion (js " I am Polar.  ")), (js " I am Polar.  ").
      split; [reflexivity|]. split; vm_compute; reflexivity.
Defined.

End Replies.

(** ** More on the classifier of [js/ai-service.js] *)

Section ClassifierOrder.
Import AIService Responder.

#[local] Arguments js : simpl never.

Lemma insertByLength_perm (k : jsstring) (sorted : list jsstring) :
  insertByLength k sorted ≡ₚ k :: sorted.
Proof.
  induction sorted as [|k' sorted IH]; cbn [insertByLength]; [reflexivity|].
  destruct (length k <? length k'); [|reflexivity].
  rewrite IH. apply perm_swap.
Qed.

Lemma sortByLength_perm (keywords : list jsstring) : sortByLength keywords ≡ₚ keywords.
Proof.
  induction keywords as [|k keywords IH]; [reflexivity|].
  cbn [sortByLength foldr]. rewrite insertByLength_perm.
  apply Permutation_cons; [reflexivity | exact IH].
Qed.

Lemma existsb_perm {A} (f : A → bool) (l l' : list A) :
  l ≡ₚ l' → existsb f l = existsb f l'.
Proof.
  induction 1 as [|x l l' _ IH|x y l|l l' l'' _ IH1 _ IH2]; cbn.
  - reflexivity.
  - now rewrite IH.
  - destruct (f x), (f y); reflexivity.
  - now rewrite IH1.
Qed.

Lemma firstTopic_sorted (hit : jsstring → bool) (table : list (topic * list jsstring)) :
  firstTopic hit (map (fun '(t, keywords) => (t, sortByLength keywords)) table)
  = firstTopic hit table.
Proof.
  induction table as [|[t keywords] table IH]; cbn; [reflexivity|].
  rewrite (existsb_perm hit _ _ (sortByLength_perm keywords)). now rewrite IH.
Qed.

(** X7. The sort of the keywords by length has no effect on the topic that
    [detectTopic] returns: for every input, the result is the one of the
    same passes over the keyword lists in the order they are declared. *)
Theorem detectTopic_sort_irrelevant (input : jsstring) :
  detectTopic input = detectTopicUnsorted input.
Proof.
  unfold detectTopic, detectTopicUnsorted, sortedTopicKeywords.
  now rewrite !firstTopic_sorted.
Qed.

Lemma startsWith_app (s a b : jsstring) :
  startsWith s (a ++ b) = true → startsWith s a = true.
Proof.
  revert s. induction a as [|c a IH]; intros s; [destruct s; reflexivity|].
  destruct s as [|d s]; cbn; [discriminate|].
  intros H. apply andb_prop in H as [-> H]. now apply IH.
Qed.

Lemma includes_app (s a b : jsstring) :
  includes s (a ++ b) = true → includes s a = true.
Proof.
  induction s as [|d s IH]; cbn [includes].
  - rewrite !orb_false_r. apply startsWith_app.
  - intros H. apply orb_prop in H as [H|H].
    + now rewrite (startsWith_app _ _ _ H).
    + rewrite (IH H). apply orb_true_r.
Qed.

Lemma firstTopic_hit (hit : jsstring → bool) (table : list (topic * list jsstring))
    (t : topic) (keywords : list jsstring) :
  (t, keywords) ∈ table → existsb hit keywords = true →
  ∃ t', firstTopic hit table = Some t'.
Proof.
  induction table as [|[t0 ks0] table IH]; intros Hin Hhit; [inversion Hin|].
  cbn. destruct (existsb hit ks0) eqn:H0; [eauto|].
  apply elem_of_cons in Hin as [[= -> ->]|Hin]; [congruence | now apply IH].
Qed.

(** X8. An input that contains [what is] is classified by the first pass,
    since [what is] is a keyword of [general]: the rule for [what is your]
    and [what is ur] that comes after that pass never decides, and such an
    input gets the topic [name] only if the first pass gives it. *)
Theorem detectTopic_what_is (input : jsstring) :
  includes input (js "what is your") = true ∨ includes input (js "what is ur") = true
  ∨ includes input (js "what is") = true →
  ∃ t, firstTopic (fun keyword => includes input keyword) sortedTopicKeywords = Some t
       ∧ detectTopic input = Some t.
Proof.
  intros H.
  assert (Hwhat : includes input (js "what is") = true).
  { destruct H as [H|[H|H]]; [| |exact H].
    - apply (includes_app input (js "what is") (js " your")). exact H.
    - apply (includes_app input (js "what is") (js " ur")). exact H. }
  destruct (firstTopic_hit (fun keyword => includes input keyword) topicKeywords general
              (keywordsOf general)) as [t Ht].
  - apply (bool_decide_eq_true_1 _). vm_compute. reflexivity.
  - change (keywordsOf general) with (js "what is" :: tl (keywordsOf general)).
    cbn [existsb]. now rewrite Hwhat.
  - exists t. unfold detectTopic, sortedTopicKeywords.
    rewrite firstTopic_sorted, Ht. now split.
Qed.

Lemma detectTopic_what_is_witness :
  ∃ t, firstTopic (fun keyword => includes (js "what is your favorite color") keyword)
                  sortedTopicKeywords = Some t
       ∧ detectTopic (js "what is your favorite color") = Some t.
Proof.
  apply (detectTopic_what_is (js "what is your favorite color")).
  left. vm_compute. reflexivity.
Defined.

End ClassifierOrder.

(** ** More on the sentences of [js/blueprint-generator.js] *)

Section SentencesInGeneral.
Import BlueprintGenerator.

Lemma cut_exists (s : jsstring) :
  ∃ (lead : jsstring) (segments : list (jsstring * jsstring)) (fragment : jsstring),
    s = lead ++ concat (map (fun seg => seg.1 ++ seg.2) segments) ++ fragment
    ∧ isEnding lead ∧ wellCut segments ∧ isBody fragment.
Proof.
  induction s as [|c s (lead & segments & fragment & -> & Hlead & Hcut & Hfrag)].
  - exists [], [], []. split_and!; [reflexivity | constructor..].
  - destruct (isTerminator c) eqn:Hc.
    + exists (c :: lead), segments, fragment.
      split_and!; [reflexivity | now constructor | exact Hcut | exact Hfrag].
    + destruct lead as [|e lead].
      * destruct Hcut as [|[body ends] segments (Hb & Hbody & He & Hends) Hcut].
        -- exists [], [], (c :: fragment).
           split_and!; [reflexivity | constructor | constructor | now constructor].
        -- exists [], ((c :: body, ends) :: segments), fragment.
           split_and!; [reflexivity | constructor | | exact Hfrag].
           constructor; [|exact Hcut]. cbn in *.
           split_and!; [discriminate | now constructor | exact He | exact Hends].
      * exists [], (([c], e :: lead) :: segments), fragment.
        split_and!; [cbn; now rewrite <- app_assoc | constructor | | exact Hfrag].
        constructor; [|exact Hcut]. cbn.
        split_and!; [discriminate | repeat constructor; exact Hc | discriminate | exact Hlead].
Qed.

Lemma splitIntoSentences_cut (text lead : jsstring) (segments : list (jsstring * jsstring))
    (fragment : jsstring) :
  trim (collapseSpaces false text)
  = lead ++ concat (map (fun seg => seg.1 ++ seg.2) segments) ++ fragment →
  isEnding lead → wellCut segments → isBody fragment →
  segments ≠ [] ∨ fragment ≠ [] →
  splitIntoSentences text = map trim (sentencesOf segments fragment)
  ∧ sentencesOf segments fragment ≠ []
  ∧ Forall (fun s => nonEmpty (trim s) = true) (sentencesOf segments fragment).
Proof.
  intros Htext Hlead Hcut Hfrag Hsome.
  assert (Hblank : Forall (fun s => nonEmpty (trim s) = true) (sentencesOf segments fragment)).
  { apply sentences_not_blank; [exact Hcut|].
    intros Hne. rewrite app_assoc in Htext.
    now apply (fragment_not_blank _ _ _ Htext). }
  assert (Hss : sentencesOf segments fragment ≠ []).
  { unfold sentencesOf. destruct Hsome as [Hs|Hf].
    - destruct segments; [done | discriminate].
    - destruct fragment; [done|]. cbn. intros H. now apply app_eq_nil in H as [_ ?]. }
  split_and!; [|exact Hss | exact Hblank].
  unfold splitIntoSentences.
  rewrite Htext, (matchSentences_lead _ _ Hlead), (matchSentences_cut _ _ Hcut Hfrag).
  assert (Hnormal :
    nonEmpty (lead ++ concat (map (fun seg => seg.1 ++ seg.2) segments) ++ fragment) = true).
  { destruct lead; [|reflexivity]. cbn [app]. destruct Hsome as [Hs|Hf].
    - destruct Hcut as [|[body ends] segs (Hb & _) _]; [done|].
      cbn in *. destruct body; [done | reflexivity].
    - destruct (concat _); [destruct fragment; [done | reflexivity] | reflexivity]. }
  rewrite Hnormal.
  destruct (sentencesOf segments fragment) as [|s ss] eqn:E; [done|].
  now apply filter_trimmed.
Qed.

(** *** Trimming *)

Lemma trimStart_head (s : jsstring) :
  match trimStart s with [] => True | c :: _ => isSpace c = false end.
Proof.
  induction s as [|c s IH]; cbn; [exact I|].
  destruct (isSpace c) eqn:Hc; [exact IH | exact Hc].
Qed.

Lemma trimStart_fixed (s : jsstring) :
  match s with [] => True | c :: _ => isSpace c = false end → trimStart s = s.
Proof. destruct s as [|c s]; cbn; [reflexivity|]. now intros ->. Qed.

Lemma trimEnd_head (s : jsstring) :
  match s with [] => True | c :: _ => isSpace c = false end →
  match trimEnd s with [] => True | c :: _ => isSpace c = false end.
Proof.
  destruct s as [|c s]; cbn; [trivial|]. intros Hc.
  destruct (trimEnd s); [now rewrite Hc | exact Hc].
Qed.

Lemma trimEnd_idem (s : jsstring) : trimEnd (trimEnd s) = trimEnd s.
Proof.
  induction s as [|c s IH]; cbn; [reflexivity|].
  destruct (trimEnd s) as [|d r] eqn:Hr.
  - destruct (isSpace c) eqn:Hc; cbn; [reflexivity | now rewrite Hc].
  - cbn [trimEnd] in *. now rewrite IH.
Qed.

Lemma trim_idem (s : jsstring) : trim (trim s) = trim s.
Proof.
  unfold trim.
  rewrite (trimStart_fixed (trimEnd (trimStart s))) by apply trimEnd_head, trimStart_head.
  apply trimEnd_idem.
Qed.

Lemma trimStart_Forall (P : N → Prop) (s : jsstring) : Forall P s → Forall P (trimStart s).
Proof. induction 1 as [|c s Hc Hs IH]; cbn; [constructor|]. destruct (isSpace c); auto. Qed.

Lemma trimEnd_Forall (P : N → Prop) (s : jsstring) : Forall P s → Forall P (trimEnd s).
Proof.
  induction 1 as [|c s Hc Hs IH]; cbn; [constructor|].
  destruct (trimEnd s); [destruct (isSpace c)|]; auto.
Qed.

Lemma trimEnd_ending (body ends : jsstring) :
  ends ≠ [] → isEnding ends → trimEnd (body ++ ends) = body ++ ends.
Proof.
  intros He Hends. induction body as [|c body IH]; cbn [app].
  - induction Hends as [|e ends Hterm Hends IH]; [done|].
    cbn. destruct ends as [|e' ends].
    + cbn. now rewrite (isTerminator_not_space e Hterm).
    + rewrite IH by discriminate. reflexivity.
  - cbn. rewrite IH. destruct (body ++ ends) eqn:E; [|reflexivity].
    apply app_eq_nil in E as [_ ->]. done.
Qed.

Lemma trimStart_ending (body ends : jsstring) :
  ends ≠ [] → isBody body → isEnding ends →
  ∃ body', trimStart (body ++ ends) = body' ++ ends ∧ isBody body'.
Proof.
  intros He Hbody Hends. induction Hbody as [|c body Hc Hbody IH]; cbn [app].
  - exists []. split; [|constructor]. apply trimStart_fixed.
    destruct Hends as [|e ends Hterm _]; [done|]. now apply isTerminator_not_space.
  - cbn. destruct (isSpace c); [exact IH|].
    exists (c :: body). split; [reflexivity | now constructor].
Qed.

Lemma trim_sentence (body ends : jsstring) :
  ends ≠ [] → isBody body → isEnding ends →
  ∃ body', trim (body ++ ends) = body' ++ ends ∧ isBody body'.
Proof.
  intros He Hbody Hends.
  destruct (trimStart_ending body ends He Hbody Hends) as (body' & Hstart & Hbody').
  exists body'. split; [|exact Hbody']. unfold trim. rewrite Hstart.
  now apply trimEnd_ending.
Qed.

Lemma sentences_shape (segments : list (jsstring * jsstring)) (fragment : jsstring) :
  wellCut segments → isBody fragment →
  Forall (fun s => ∃ body ends, trim s = body ++ ends ∧ isBody body ∧ isEnding ends)
         (sentencesOf segments fragment).
Proof.
  intros Hcut Hfrag. unfold sentencesOf. apply Forall_app. split.
  - induction Hcut as [|[body ends] segments (_ & Hbody & He & Hends) _ IH]; cbn;
      constructor; [|exact IH].
    destruct (trim_sentence body ends He Hbody Hends) as (body' & Htrim & Hbody').
    exists body', ends. now split_and!.
  - destruct (nonEmpty fragment); constructor; [|constructor].
    exists (trim fragment), []. split_and!; [now rewrite app_nil_r | | constructor].
    apply trimEnd_Forall, trimStart_Forall, Hfrag.
Qed.

(** *** White space *)

Lemma collapseSpaces_keeps (c : N) (inRun : bool) (s : jsstring) :
  c ∈ s → isSpace c = false → c ∈ collapseSpaces inRun s.
Proof.
  intros Hin Hc. revert inRun. induction s as [|d s IH]; intros inRun; [inversion Hin|].
  cbn. apply elem_of_cons in Hin as [<-|Hin].
  - rewrite Hc. apply elem_of_cons. now left.
  - destruct (isSpace d); [destruct inRun; [|apply elem_of_cons; right] | apply elem_of_cons; right];
      now apply IH.
Qed.

Lemma collapseSpaces_blank (inRun : bool) (s : jsstring) :
  Forall (fun c => isSpace c = true) s →
  Forall (fun c => isSpace c = true) (collapseSpaces inRun s).
Proof.
  intros Hs. revert inRun. induction Hs as [|c s Hc _ IH]; intros inRun; cbn; [constructor|].
  rewrite Hc. destruct inRun; [apply IH|]. constructor; [reflexivity | apply IH].
Qed.

Lemma trimStart_blank (s : jsstring) :
  Forall (fun c => isSpace c = true) s → trimStart s = [].
Proof. induction 1 as [|c s Hc _ IH]; cbn; [reflexivity|]. now rewrite Hc. Qed.

Lemma blank_or_not (s : jsstring) :
  Forall (fun c => isSpace c = true) s ∨ ∃ c, c ∈ s ∧ isSpace c = false.
Proof.
  induction s as [|c s [IH|(d & Hd & Hspace)]].
  - left. constructor.
  - destruct (isSpace c) eqn:Hc.
    + left. now constructor.
    + right. exists c. split; [apply elem_of_cons; now left | exact Hc].
  - right. exists d. split; [apply elem_of_cons; now right | exact Hspace].
Qed.

(** X9. Whatever the text, every sentence that [splitIntoSentences] returns
    is not empty, has no white space at either end, and is made of
    characters that are not terminators followed by terminators only
    ([.], [!], [?]); and the list of sentences is empty exactly when the text
    has nothing but white space. *)
Theorem splitIntoSentences_clean (text : jsstring) :
  Forall (fun s => s ≠ [] ∧ trim s = s
                   ∧ ∃ body ends, s = body ++ ends ∧ isBody body ∧ isEnding ends)
         (splitIntoSentences text)
  ∧ (splitIntoSentences text = [] ↔ Forall (fun c => isSpace c = true) text).
Proof.
  destruct (cut_exists (trim (collapseSpaces false text)))
    as (lead & segments & fragment & Htext & Hlead & Hcut & Hfrag).
  destruct (decide (segments ≠ [] ∨ fragment ≠ [])) as [Hsome|Hnone].
  - destruct (splitIntoSentences_cut text lead segments fragment Htext Hlead Hcut Hfrag Hsome)
      as (-> & Hne & Hblank).
    pose proof (sentences_shape segments fragment Hcut Hfrag) as Hshape.
    split.
    + clear Hne. induction Hblank as [|s ss Hs _ IH]; cbn [map]; [constructor|].
      inversion Hshape as [|? ? Hshape1 Hshape2]; subst.
      constructor; [|now apply IH].
      split_and!; [now destruct (trim s) | apply trim_idem | exact Hshape1].
    + split.
      * intros Hnil. destruct (sentencesOf segments fragment); [done | discriminate].
      * intros Hblanktext. exfalso.
        assert (Hn : trim (collapseSpaces false text) = []).
        { unfold trim. rewrite trimStart_blank; [reflexivity|].
          now apply collapseSpaces_blank. }
        rewrite Hn in Htext. symmetry in Htext.
        apply app_eq_nil in Htext as [_ Htext]. apply app_eq_nil in Htext as [Hsegs ->].
        destruct Hsome as [Hs|Hf]; [|done].
        destruct Hcut as [|[body ends] segs (Hb & _) _]; [done|].
        cbn in Hsegs. destruct body; [done | discriminate].
  - assert (Hsegs : segments = []) by (destruct segments; [reflexivity | exfalso; apply Hnone; now left]).
    assert (Hf : fragment = []) by (destruct fragment; [reflexivity | exfalso; apply Hnone; now right]).
    subst. cbn [map concat app] in Htext. rewrite app_nil_r in Htext.
    assert (Hmatches : matchSentences 0 lead = []).
    { rewrite <- (app_nil_r lead). now rewrite (matchSentences_lead lead [] Hlead). }
    unfold splitIntoSentences. rewrite Htext, Hmatches.
    destruct lead as [|e lead]; cbn [nonEmpty]; cbv iota.
    + split; [constructor|]. split; [|reflexivity]. intros _.
      destruct (blank_or_not text) as [?|(c & Hc & Hspace)]; [assumption|].
      pose proof (trim_nonEmpty c _ (collapseSpaces_keeps c false text Hc Hspace) Hspace) as H.
      rewrite Htext in H. discriminate.
    + split.
      * constructor; [|constructor]. split_and!; [discriminate | | ].
        -- rewrite <- Htext. apply trim_idem.
        -- exists [], (e :: lead). split_and!; [reflexivity | constructor | exact Hlead].
      * split; [intros Hnil; discriminate Hnil|]. intros Hblanktext. exfalso.
        assert (Hn : trim (collapseSpaces false text) = []).
        { unfold trim. rewrite trimStart_blank; [reflexivity|].
          now apply collapseSpaces_blank. }
        rewrite Hn in Htext. discriminate Htext.
Qed.

End SentencesInGeneral.

(** ** More on the sections of [js/blueprint-generator.js] *)

Section ExtractionOfRepeats.
Import BlueprintGenerator.

#[local] Arguments detectSectionForText : simpl never.
#[local] Arguments splitIntoSentences : simpl never.
#[local] Arguments toLowerCase : simpl never.
#[local] Arguments js : simpl never.

Lemma getSection_of_elem (key : jsstring) (items : list jsstring) (secs : sections) :
  NoDup (map fst secs) → (key, items) ∈ secs → getSection key secs = Some items.
Proof.
  induction secs as [|[k its] secs IH]; cbn; intros Hnd Hin; [inversion Hin|].
  apply NoDup_cons in Hnd as [Hfresh Hnd].
  apply elem_of_cons in Hin as [[= <- <-]|Hin].
  - now rewrite bool_decide_eq_true_2.
  - case_bool_decide as Hk; [|now apply IH].
    exfalso. apply Hfresh. subst k.
    apply list_elem_of_In. change key with (fst (key, items)).
    apply in_map, list_elem_of_In, Hin.
Qed.

Lemma addToSection_known (section sentence : jsstring) (secs : sections)
    (items : list jsstring) :
  getSection section secs = Some items → sentence ∈ items →
  addToSection section sentence secs = secs.
Proof.
  induction secs as [|[k its] secs IH]; cbn; [discriminate|].
  case_bool_decide as Hk.
  - intros [= ->] Hin. unfold setAdd. now rewrite bool_decide_eq_true_2.
  - intros Hget Hin. now rewrite IH.
Qed.

Lemma addSentence_known (secs : sections) (x : jsstring) :
  (∀ key, detectSectionForText (toLowerCase x) = Some key →
          ∃ items, getSection key secs = Some items
                   ∧ (x ∈ items ∨ length items = maxItemsPerSection)) →
  addSentence secs x = secs.
Proof.
  intros Hknown. unfold addSentence.
  destruct (detectSectionForText (toLowerCase x)) as [key|]; [|reflexivity].
  destruct (Hknown key eq_refl) as (items & Hget & [Hin|Hfull]); rewrite Hget.
  - destruct (length items <? maxItemsPerSection); [|reflexivity].
    now apply (addToSection_known _ _ _ items).
  - rewrite Hfull. now rewrite Nat.ltb_irrefl.
Qed.

Lemma foldl_fixed {A} (f : sections → A → sections) (secs : sections) (l : list A) :
  (∀ a, a ∈ l → f secs a = secs) → foldl f secs l = secs.
Proof.
  induction l as [|a l IH]; intros Hf; cbn [foldl]; [reflexivity|].
  rewrite Hf by (apply elem_of_cons; now left).
  apply IH. intros b Hb. apply Hf, elem_of_cons. now right.
Qed.

Lemma sectionKeys_NoDup : NoDup sectionKeys.
Proof. apply (bool_decide_eq_true_1 _). vm_compute. reflexivity. Qed.

(** X10. Messages that are already in the history add nothing: when every
    message of [extra] occurs in [messages], the sections built from
    [messages] followed by [extra] are those built from [messages]. *)
Theorem buildSections_repeats (messages extra : list (option chatMessage)) :
  (∀ m, m ∈ extra → m ∈ messages) →
  buildSections (messages ++ extra) = buildSections messages.
Proof.
  intros Hrepeat. rewrite buildSections_app. apply foldl_fixed.
  intros m Hm. apply list_elem_of_filter in Hm as [Hassistant Hm].
  destruct m as [msg|]; [|reflexivity]. cbn [addMessage].
  apply foldl_fixed. intros x Hx. apply addSentence_known. intros key Hkey.
  destruct (buildSections_adds messages msg x key (Hrepeat _ Hm) Hassistant Hx Hkey)
    as (items & Hin & Hitems).
  exists items. split; [|exact Hitems].
  apply getSection_of_elem; [|exact Hin].
  rewrite buildSections_keys. apply sectionKeys_NoDup.
Qed.

Lemma buildSections_repeats_witness :
  let history :=
    [Examples.userSays "Where do you live?";
     Examples.assistantSays "I roam the sea ice near Svalbard. I hunt ringed seals."] in
  buildSections (history ++ history) = buildSections history.
Proof.
  intros history. apply (buildSections_repeats history history). intros m Hm. exact Hm.
Defined.

End ExtractionOfRepeats.

(** ** The cache of [js/blueprint-generator.js] *)

Section CacheKeys.
Import BlueprintGenerator.

#[local] Arguments js : simpl never.

Lemma hexUnit_range :
  forallb (fun n =>
             forallb (fun c =>
                        bool_decide
                          (hexUnit (hexDigit (N.land (N.shiftr c 12) 0xF))
                                   (hexDigit (N.land (N.shiftr c 8) 0xF))
                                   (hexDigit (N.land (N.shiftr c 4) 0xF))
                                   (hexDigit (N.land c 0xF))
                           = Some c))
                     [N.of_nat n; (0xD800 + N.of_nat n)%N])
          (seq 0 2048)
  = true.
Proof. vm_compute. reflexivity. Qed.

Lemma hexUnit_escape (c : N) :
  (c < 0x20)%N ∨ (0xD800 ≤ c < 0xE000)%N →
  hexUnit (hexDigit (N.land (N.shiftr c 12) 0xF)) (hexDigit (N.land (N.shiftr c 8) 0xF))
          (hexDigit (N.land (N.shiftr c 4) 0xF)) (hexDigit (N.land c 0xF))
  = Some c.
Proof.
  intros Hc. pose proof hexUnit_range as Hall. rewrite forallb_forall in Hall.
  destruct Hc as [Hc|Hc].
  - specialize (Hall (N.to_nat c)). rewrite forallb_forall in Hall.
    apply (bool_decide_eq_true_1 _), Hall.
    + apply in_seq. lia.
    + left. apply N2Nat.id.
  - specialize (Hall (N.to_nat (c - 0xD800))). rewrite forallb_forall in Hall.
    apply (bool_decide_eq_true_1 _), Hall.
    + apply in_seq. lia.
    + right. left. rewrite N2Nat.id. lia.
Qed.

Lemma unquoteUnits_unit (c : N) (tail : jsstring) :
  unquoteUnits (quoteUnit c ++ tail)
  = match unquoteUnits tail with
    | Some (t, rest) => Some (c :: t, rest)
    | None => None
    end.
Proof.
  unfold quoteUnit.
  destruct (N.eqb_spec c 0x08) as [->|H1]; [reflexivity|].
  destruct (N.eqb_spec c 0x09) as [->|H2]; [reflexivity|].
  destruct (N.eqb_spec c 0x0A) as [->|H3]; [reflexivity|].
  destruct (N.eqb_spec c 0x0C) as [->|H4]; [reflexivity|].
  destruct (N.eqb_spec c 0x0D) as [->|H5]; [reflexivity|].
  destruct (N.eqb_spec c 0x22) as [->|H6]; [reflexivity|].
  destruct (N.eqb_spec c 0x5C) as [->|H7]; [reflexivity|].
  destruct ((c <? 0x20)%N || isLeadSurrogate c || isTrailSurrogate c) eqn:Hescape.
  - assert (Hc : (c < 0x20)%N ∨ (0xD800 ≤ c < 0xE000)%N).
    { unfold isLeadSurrogate, isTrailSurrogate in Hescape.
      apply orb_prop in Hescape as [Hescape|Hescape];
        [apply orb_prop in Hescape as [Hescape|Hescape]|].
      - apply N.ltb_lt in Hescape. now left.
      - apply andb_prop in Hescape as [Hlow Hescape].
        apply N.leb_le in Hlow, Hescape. right. lia.
      - apply andb_prop in Hescape as [Hlow Hescape].
        apply N.leb_le in Hlow, Hescape. right. lia. }
    unfold unicodeEscape. cbn [app unquoteUnits].
    change (0x5C =? 0x22)%N with false. change (0x5C =? 0x5C)%N with true.
    change (0x75 =? 0x75)%N with true. cbv iota.
    now rewrite (hexUnit_escape c Hc).
  - cbn [app unquoteUnits].
    apply N.eqb_neq in H6, H7. now rewrite H6, H7.
Qed.

Lemma quoteUnits_two (c d : N) (s : jsstring) :
  quoteUnits (c :: d :: s)
  = if isLeadSurrogate c && isTrailSurrogate d then c :: d :: quoteUnits s
    else quoteUnit c ++ quoteUnits (d :: s).
Proof. reflexivity. Qed.

Lemma unquoteUnits_quoteUnits (s rest : jsstring) :
  unquoteUnits (quoteUnits s ++ 0x22%N :: rest) = Some (s, rest).
Proof.
  remember (length s) as n eqn:Hn. revert s Hn.
  induction n as [n IH] using lt_wf_ind. intros s Hn.
  destruct s as [|c [|d s]].
  - reflexivity.
  - cbn [quoteUnits]. rewrite unquoteUnits_unit. reflexivity.
  - rewrite quoteUnits_two.
    destruct (isLeadSurrogate c && isTrailSurrogate d) eqn:Hpair.
    + apply andb_prop in Hpair as [Hc Hd].
      unfold isLeadSurrogate in Hc. unfold isTrailSurrogate in Hd.
      apply andb_prop in Hc as [Hc _]. apply andb_prop in Hd as [Hd _].
      apply N.leb_le in Hc, Hd.
      cbn [app unquoteUnits].
      assert (Hc1 : (c =? 0x22)%N = false) by (apply N.eqb_neq; lia).
      assert (Hc2 : (c =? 0x5C)%N = false) by (apply N.eqb_neq; lia).
      assert (Hd1 : (d =? 0x22)%N = false) by (apply N.eqb_neq; lia).
      assert (Hd2 : (d =? 0x5C)%N = false) by (apply N.eqb_neq; lia).
      rewrite Hc1, Hc2, Hd1, Hd2.
      now rewrite (IH (length s) ltac:(subst n; cbn; lia) s eq_refl).
    + rewrite <- app_assoc, unquoteUnits_unit.
      now rewrite (IH (length (d :: s)) ltac:(subst n; cbn; lia) (d :: s) eq_refl).
Qed.

Lemma quoteJSONString_inj (x y t1 t2 : jsstring) :
  quoteJSONString x ++ t1 = quoteJSONString y ++ t2 → x = y ∧ t1 = t2.
Proof.
  unfold quoteJSONString. cbn [app]. rewrite <- !app_assoc. cbn [app].
  intros [= H].
  apply (f_equal unquoteUnits) in H. rewrite !unquoteUnits_quoteUnits in H.
  now injection H.
Qed.

(** *** Lists with separators *)

Lemma list_tail_eq {A} (c d : A) (x y : list A) : c :: x = d :: y → x = y.
Proof. now intros [= _ ->]. Qed.

Section Joined.
Context {A : Type} (enc : A → jsstring) (close : N).
Hypothesis enc_inj : ∀ x y t1 t2, enc x ++ t1 = enc y ++ t2 → x = y ∧ t1 = t2.
Hypothesis enc_head : ∀ x, ∃ t, enc x = 0x22%N :: t.
Hypothesis close_quote : close ≠ 0x22%N.
Hypothesis close_comma : close ≠ 0x2C%N.

Lemma joinWith_cons (x : A) (l : list A) (t : jsstring) :
  joinWith [0x2C%N] (map enc (x :: l)) ++ close :: t
  = enc x ++ match l with
             | [] => close :: t
             | _ :: _ => 0x2C%N :: joinWith [0x2C%N] (map enc l) ++ close :: t
             end.
Proof. destruct l; cbn [map joinWith]; [reflexivity|]. now rewrite <- !app_assoc. Qed.

Lemma joined_inj (a b : list A) (t1 t2 : jsstring) :
  joinWith [0x2C%N] (map enc a) ++ close :: t1
  = joinWith [0x2C%N] (map enc b) ++ close :: t2 →
  a = b ∧ t1 = t2.
Proof.
  revert b. induction a as [|x a IH]; intros [|y b].
  - cbn. now intros [= ->].
  - rewrite joinWith_cons. destruct (enc_head y) as [t ->]. cbn. intros [= H _]. done.
  - rewrite joinWith_cons. destruct (enc_head x) as [t ->]. cbn. intros [= H _]. done.
  - rewrite !joinWith_cons. intros H. apply enc_inj in H as [-> H].
    destruct a as [|x' a], b as [|y' b].
    + now injection H as ->.
    + injection H as H _. done.
    + injection H as H _. done.
    + apply list_tail_eq in H. now destruct (IH _ H) as [-> ->].
Qed.

End Joined.

Lemma entry_inj (e1 e2 : jsstring * list jsstring) (t1 t2 : jsstring) :
  (quoteJSONString e1.1 ++ [0x3A; 0x5B]%N
   ++ joinWith [0x2C%N] (map quoteJSONString e1.2) ++ [0x5D%N]) ++ t1
  = (quoteJSONString e2.1 ++ [0x3A; 0x5B]%N
     ++ joinWith [0x2C%N] (map quoteJSONString e2.2) ++ [0x5D%N]) ++ t2 →
  e1 = e2 ∧ t1 = t2.
Proof.
  destruct e1 as [k1 l1], e2 as [k2 l2]. cbn [fst snd].
  rewrite <- !app_assoc. intros H. apply quoteJSONString_inj in H as [-> H].
  cbn [app] in H. injection H as H.
  apply (joined_inj quoteJSONString 0x5D%N) in H as [-> ->]; [done| | |done|done].
  - apply quoteJSONString_inj.
  - intros x. eexists. reflexivity.
Qed.

Lemma JSON_stringify_inj (a b : sections) (t1 t2 : jsstring) :
  JSON_stringify a ++ t1 = JSON_stringify b ++ t2 → a = b ∧ t1 = t2.
Proof.
  unfold JSON_stringify.
  change (js "{") with [0x7B%N]. change (js "}") with [0x7D%N].
  change (js ",") with [0x2C%N]. change (js ":[") with [0x3A; 0x5B]%N.
  change (js "]") with [0x5D%N].
  rewrite <- !app_assoc. cbn [app]. intros [= H].
  set (enc := fun e : jsstring * list jsstring =>
                quoteJSONString e.1 ++ [0x3A; 0x5B]%N
                ++ joinWith [0x2C%N] (map quoteJSONString e.2) ++ [0x5D%N]).
  assert (Hmap : ∀ secs : sections,
            map (fun '(key, items) =>
                   quoteJSONString key ++ [0x3A; 0x5B]%N
                   ++ joinWith [0x2C%N] (map quoteJSONString items) ++ [0x5D%N]) secs
            = map enc secs).
  { intros secs. apply map_ext. now intros [key items]. }
  rewrite !Hmap in H.
  apply (joined_inj enc 0x7D%N) in H; [exact H| | |done|done].
  - intros x y u1 u2. apply entry_inj.
  - intros [key items]. eexists. reflexivity.
Qed.

Lemma cacheKey_shared (secs1 secs2 : sections) (lang1 lang2 : jsstring) :
  cacheKey secs1 lang1 = cacheKey secs2 lang2 → secs1 = secs2 ∧ lang1 = lang2.
Proof.
  unfold cacheKey. intros H. apply JSON_stringify_inj in H as [-> H].
  split; [reflexivity|]. change (js "::") with [0x3A; 0x3A]%N in H.
  now injection H.
Qed.

(** X11. Two calls of the localizer that differ in the sections or in the
    language never share a cache key: [cacheKey] gives equal keys only for
    equal section maps and equal languages. *)
Theorem cacheKey_injective (secs1 secs2 : sections) (lang1 lang2 : jsstring) :
  cacheKey secs1 lang1 = cacheKey secs2 lang2 → secs1 = secs2 ∧ lang1 = lang2.
Proof. apply cacheKey_shared. Qed.

Lemma cacheKey_injective_witness :
  Examples.original = Examples.original ∧ js "es" = js "es".
Proof.
  apply (cacheKey_injective Examples.original Examples.original (js "es") (js "es")).
  reflexivity.
Defined.

End CacheKeys.

(** ** The localizer of [js/blueprint-generator.js], over its calls *)

Section Localizing.
Import BlueprintGenerator.

Variable JSON_parse : jsstring → option value.
Variable Number_toString : float → jsstring.
Variable fetch : nat → request → fetchResult.

#[local] Arguments js : simpl never.
#[local] Arguments JSON_stringify : simpl never.
#[local] Arguments toLowerCase : simpl never.



(** X13. The capability is not called for sections without any item, for a
    language other than [en] and [es], or when no API key is configured:
    the call leaves the generator as it was and returns the sections it got,
    unless (with at least one item) a translation is in the cache under
    their key, which it returns. *)
Theorem maybeTranslateSections_no_call (env : environment) (secs : sections)
    (targetLang : option jsstring) (st : state) :
  let lang := effectiveLanguage env targetLang in
  let result :=
    maybeTranslateSections JSON_parse Number_toString fetch env secs targetLang st in
  totalCount secs = 0
  ∨ (lang ≠ js "en" ∧ lang ≠ js "es")
  ∨ (∀ cfg, getAIConfig env = Some cfg → hasApiKey cfg = false) →
  result.2 = st
  ∧ (result.1 = secs
     ∨ (totalCount secs ≠ 0 ∧ translationCache st !! cacheKey secs lang = Some result.1)).
Proof.
  intros lang result Hcase. subst result. unfold maybeTranslateSections. cbv zeta.
  fold lang.
  destruct (totalCount secs =? 0) eqn:Hcount; [split; [reflexivity | now left]|].
  apply Nat.eqb_neq in Hcount.
  destruct (translationCache st !! cacheKey secs lang) as [hit|] eqn:Hhit;
    [split; [reflexivity | right; now split]|].
  destruct Hcase as [Hzero|[[Hen Hes]|Hkey]]; [done| |].
  - rewrite !bool_decide_eq_false_2 by assumption. split; [reflexivity | now left].
  - destruct (negb _ && negb _); [split; [reflexivity | now left]|].
    destruct (getAIConfig env) as [cfg|]; [|split; [reflexivity | now left]].
    rewrite (Hkey cfg eq_refl). split; [reflexivity | now left].
Qed.

(** *** The keys of the sections *)

Lemma validate_keys (out : value) (secs result : sections) :
  validate Number_toString out secs = Some result → map fst result = map fst secs.
Proof.
  revert result. induction secs as [|[key items] secs IH]; intros result; cbn [validate].
  - now intros [= <-].
  - destruct (getProp out key) as [v|]; [|discriminate]. cbn [mbind option_bind].
    destruct (match v with VArr translated => mapM _ translated | _ => Some items end)
      as [arr|]; [|discriminate]. cbn [mbind option_bind].
    destruct (validate Number_toString out secs) as [rest|]; [|discriminate].
    intros [= <-]. cbn. now rewrite (IH rest eq_refl).
Qed.

Lemma maybeTranslateSections_shape (env : environment) (secs : sections)
    (targetLang : option jsstring) (st : state) :
  (∀ key cached, translationCache st !! key = Some cached →
     ∃ s l, key = cacheKey s l ∧ map fst cached = map fst s) →
  let result :=
    maybeTranslateSections JSON_parse Number_toString fetch env secs targetLang st in
  map fst result.1 = map fst secs
  ∧ (∀ key cached, translationCache result.2 !! key = Some cached →
       ∃ s l, key = cacheKey s l ∧ map fst cached = map fst s).
Proof.
  intros Hinv result. subst result. unfold maybeTranslateSections. cbv zeta.
  destruct (totalCount secs =? 0); [now split|].
  destruct (translationCache st !! cacheKey _ _) as [hit|] eqn:Hhit.
  - split; [|exact Hinv]. cbn [fst].
    destruct (Hinv _ _ Hhit) as (s & l & Hkey & Hshape).
    apply cacheKey_shared in Hkey as [-> _]. exact Hshape.
  - destruct (negb _ && negb _); [now split|].
    destruct (getAIConfig env) as [cfg|]; [|now split].
    destruct (negb (hasApiKey cfg)); [now split|].
    destruct (translateViaOpenRouter _ _ _ _ _ _ _) as [translated|] eqn:Htranslated;
      cbn [fst snd translationCache]; [|now split].
    assert (Hkeys : map fst translated = map fst secs).
    { unfold translateViaOpenRouter in Htranslated. cbv zeta in Htranslated.
      destruct (structuredOutput _ _) as [out|]; [|discriminate].
      now apply (validate_keys out). }
    split; [exact Hkeys|]. intros key cached Hlookup.
    destruct (decide (cacheKey secs (effectiveLanguage env targetLang) = key)) as [<-|Hne].
    + rewrite lookup_insert_eq in Hlookup. injection Hlookup as <-. eauto.
    + rewrite lookup_insert_ne in Hlookup by exact Hne. now apply Hinv.
Qed.

(** X14. In any sequence of calls of the localizer on a new generator, the
    result of each call has the keys of the sections given to that call, in
    their order, whether it comes from the capability, from the cache or
    from the call itself. *)
Theorem runCalls_same_keys (calls : list (environment * sections * option jsstring)) :
  Forall2 (fun call result => map fst result = map fst call.1.2)
          calls (runCalls JSON_parse Number_toString fetch calls initialState).1.
Proof.
  assert (Hgen : ∀ st,
            (∀ key cached, translationCache st !! key = Some cached →
               ∃ s l, key = cacheKey s l ∧ map fst cached = map fst s) →
            Forall2 (fun call result => map fst result = map fst call.1.2)
                    calls (runCalls JSON_parse Number_toString fetch calls st).1).
  { induction calls as [|[[env secs] targetLang] calls IH]; intros st Hinv; cbn [runCalls].
    - constructor.
    - destruct (maybeTranslateSections_shape env secs targetLang st Hinv) as [Hkeys Hinv1].
      destruct (maybeTranslateSections _ _ _ env secs targetLang st) as [r st1].
      cbn [fst snd] in Hkeys, Hinv1. specialize (IH st1 Hinv1).
      destruct (runCalls _ _ _ calls st1) as [rs st2]. cbn [fst] in *.
      constructor; [exact Hkeys | exact IH]. }
  apply Hgen. intros key cached Hlookup. cbn in Hlookup.
  rewrite lookup_empty in Hlookup. discriminate.
Qed.

End Localizing.

Lemma maybeTranslateSections_no_call_witness :
  (BlueprintGenerator.maybeTranslateSections Examples.parse Examples.numberToString
     (Examples.answers Examples.translated) Examples.page Examples.original
     (Some (js "fr")) BlueprintGenerator.initialState).2
  = BlueprintGenerator.initialState.
Proof.
  apply (maybeTranslateSections_no_call Examples.parse Examples.numberToString
           (Examples.answers Examples.translated) Examples.page Examples.original
           (Some (js "fr")) BlueprintGenerator.initialState).
  right. left. split; vm_compute; discriminate.
Defined.


(** ** The edit distance of [js/ai-service.js] *)

Section EditDistance.
Import AIService Responder.

Lemma editDistance_nil_r (p : jsstring) : editDistance p [] = length p.
Proof. destruct p; reflexivity. Qed.

Lemma editDistance_cons (y x : N) (p q : jsstring) :
  editDistance (y :: p) (x :: q)
  = if (y =? x)%N then editDistance p q
    else S (Nat.min (Nat.min (editDistance p q) (editDistance (y :: p) q))
                    (editDistance p (x :: q))).
Proof. reflexivity. Qed.

(** *** The matrix *)

Lemma rowFrom_nil (rq rest : jsstring) :
  rowFrom [] rq rest = seq (length rq) (S (length rest)).
Proof.
  revert rq. induction rest as [|d rest IH]; intros rq; [reflexivity|].
  cbn [rowFrom length seq]. cbn [editDistance]. f_equal. apply (IH (d :: rq)).
Qed.

Lemma fillRow_row (c : N) (rp rq rest : jsstring) :
  fillRow c rest (rowFrom rp rq rest) (editDistance (c :: rp) rq)
  = match rest with
    | [] => []
    | d :: rest' => rowFrom (c :: rp) (d :: rq) rest'
    end.
Proof.
  revert rq. induction rest as [|d rest IH]; intros rq; [reflexivity|].
  cbn [rowFrom fillRow].
  assert (Hv : (if (c =? d)%N then editDistance rp rq
                else Nat.min (Nat.min (editDistance rp rq + 1)
                                      (editDistance (c :: rp) rq + 1))
                             (editDistance rp (d :: rq) + 1))
               = editDistance (c :: rp) (d :: rq)).
  { rewrite editDistance_cons. destruct (c =? d)%N; [reflexivity | lia]. }
  destruct rest as [|d' rest].
  - cbn [rowFrom fillRow]. cbv zeta. now rewrite Hv.
  - specialize (IH (d :: rq)). cbn [rowFrom] in IH |- *. cbn [fillRow]. cbv zeta.
    rewrite Hv. f_equal. exact IH.
Qed.

Lemma nextRow_row (str1 rp : jsstring) (c : N) :
  nextRow str1 (length rp, rowFrom rp [] str1) c
  = (length (c :: rp), rowFrom (c :: rp) [] str1).
Proof.
  unfold nextRow. f_equal.
  change (S (length rp)) with (editDistance (c :: rp) []).
  rewrite fillRow_row. destruct str1; reflexivity.
Qed.

Lemma foldl_nextRow (str1 str2 rp : jsstring) :
  foldl (nextRow str1) (length rp, rowFrom rp [] str1) str2
  = (length (rev str2 ++ rp), rowFrom (rev str2 ++ rp) [] str1).
Proof.
  revert rp. induction str2 as [|c str2 IH]; intros rp; [reflexivity|].
  cbn [foldl rev]. rewrite nextRow_row, IH, <- app_assoc. reflexivity.
Qed.

Lemma rowFrom_last (rp rq rest : jsstring) :
  List.last (rowFrom rp rq rest) 0 = editDistance rp (rev rest ++ rq).
Proof.
  revert rq. induction rest as [|d rest IH]; intros rq; [reflexivity|].
  cbn [rowFrom rev]. rewrite <- app_assoc. cbn [app]. rewrite <- IH.
  destruct rest; reflexivity.
Qed.

Lemma levenshteinDistance_recurrence (str1 str2 : jsstring) :
  levenshteinDistance str1 str2 = editDistance (rev str2) (rev str1).
Proof.
  unfold levenshteinDistance. cbv zeta.
  pose proof (rowFrom_nil [] str1) as Hrow0. cbn [length] in Hrow0. rewrite <- Hrow0.
  pose proof (foldl_nextRow str1 str2 []) as Hfold. cbn [length] in Hfold.
  rewrite Hfold, rowFrom_last, !app_nil_r. reflexivity.
Qed.

(** *** The recurrence *)

Lemma editDistance_sym (p q : jsstring) : editDistance p q = editDistance q p.
Proof.
  revert q. induction p as [|y p IHp]; intros q.
  - now rewrite editDistance_nil_r.
  - induction q as [|x q IHq]; [reflexivity|].
    rewrite !editDistance_cons, (N.eqb_sym x y), (IHp q), (IHp (x :: q)), IHq.
    destruct (y =? x)%N; [reflexivity | lia].
Qed.

Lemma editDistance_same (p : jsstring) : editDistance p p = 0.
Proof.
  induction p as [|y p IH]; [reflexivity|].
  now rewrite editDistance_cons, N.eqb_refl.
Qed.

Lemma editDistance_bounds (p q : jsstring) :
  Nat.max (length p) (length q) - Nat.min (length p) (length q) ≤ editDistance p q
  ∧ editDistance p q ≤ Nat.max (length p) (length q).
Proof.
  revert q. induction p as [|y p IHp]; intros q.
  - cbn [editDistance length]. lia.
  - induction q as [|x q IHq]; [cbn [editDistance length]; lia|].
    rewrite editDistance_cons.
    pose proof (IHp q). pose proof (IHp (x :: q)). cbn [length] in *.
    destruct (y =? x)%N; lia.
Qed.

Lemma editDistance_zero (p q : jsstring) : editDistance p q = 0 → p = q.
Proof.
  revert q. induction p as [|y p IHp]; intros q.
  - cbn. now destruct q.
  - destruct q as [|x q]; [discriminate|].
    rewrite editDistance_cons. destruct (N.eqb_spec y x) as [->|]; [|discriminate].
    intros H. now rewrite (IHp q H).
Qed.

(** X15. The matrix of [levenshteinDistance] computes the edit distance of
    the recurrence, taken on the two strings read from their last
    characters. *)
Theorem levenshteinDistance_is_editDistance (str1 str2 : jsstring) :
  levenshteinDistance str1 str2 = editDistance (rev str2) (rev str1).
Proof. apply levenshteinDistance_recurrence. Qed.

(** X16. The distance between two strings is 0 exactly when they are the
    same string, and it does not depend on the order of the two strings. *)
Theorem levenshteinDistance_zero_sym (str1 str2 : jsstring) :
  (levenshteinDistance str1 str2 = 0 ↔ str1 = str2)
  ∧ levenshteinDistance str1 str2 = levenshteinDistance str2 str1.
Proof.
  rewrite !levenshteinDistance_recurrence. split; [split|].
  - intros H. apply editDistance_zero in H.
    apply (f_equal (@rev N)) in H. rewrite !rev_involutive in H. now symmetry.
  - intros ->. apply editDistance_same.
  - apply editDistance_sym.
Qed.

(** X17. The distance between two strings is at least the difference of
    their lengths and at most the greater of their lengths. *)
Theorem levenshteinDistance_bounds (str1 str2 : jsstring) :
  Nat.max (length str1) (length str2) - Nat.min (length str1) (length str2)
  ≤ levenshteinDistance str1 str2
  ∧ levenshteinDistance str1 str2 ≤ Nat.max (length str1) (length str2).
Proof.
  rewrite levenshteinDistance_recurrence.
  pose proof (editDistance_bounds (rev str2) (rev str1)) as H.
  rewrite !length_rev in H. lia.
Qed.

End EditDistance.

(** ** The normalization of [js/ai-service.js], word by word *)

Section Normalization.
Import AIService Responder.

#[local] Arguments js : simpl never.
#[local] Arguments corrections : simpl never.

Lemma mapWords_word (f : jsstring → jsstring) (word w rest : jsstring) :
  Forall (fun c => isWordChar c = true) w →
  match rest with [] => True | d :: _ => isWordChar d = false end →
  mapWords f word (w ++ rest)
  = flushWord f (word ++ w)
    ++ match rest with [] => [] | d :: rest' => d :: mapWords f [] rest' end.
Proof.
  intros Hw Hrest. revert word. induction Hw as [|x w Hx _ IH]; intros word.
  - rewrite app_nil_r. destruct rest as [|d rest]; cbn [app mapWords].
    + now rewrite app_nil_r.
    + now rewrite Hrest.
  - cbn [app mapWords]. rewrite Hx, IH, <- app_assoc. reflexivity.
Qed.

Lemma words_cut (s : jsstring) :
  ∃ w rest, s = w ++ rest
            ∧ Forall (fun c => isWordChar c = true) w
            ∧ match rest with [] => True | d :: _ => isWordChar d = false end
            ∧ length rest ≤ length s.
Proof.
  induction s as [|c s (w & rest & -> & Hw & Hrest & Hlen)].
  - exists [], []. split_and!; [reflexivity | constructor | exact I | reflexivity].
  - destruct (isWordChar c) eqn:Hc.
    + exists (c :: w), rest.
      split_and!; [reflexivity | now constructor | exact Hrest | cbn; lia].
    + exists [], (c :: w ++ rest).
      split_and!; [reflexivity | constructor | exact Hc | reflexivity].
Qed.

(** *** One pass *)

Section OnePass.
Variables typo correction : jsstring.
Hypothesis typo_some : typo ≠ [].
Hypothesis typo_word : Forall (fun c => isWordChar c = true) typo.

Let replaced (w : jsstring) : jsstring := if bool_decide (w = typo) then correction else w.

Lemma replaceWord_cons (before : option N) (c : N) (s : jsstring) :
  replaceWord typo correction before (c :: s) 0
  = if matchesWord typo before (c :: s)
    then correction ++ replaceWord typo correction (Some c) s (length typo - 1)
    else c :: replaceWord typo correction (Some c) s 0.
Proof. reflexivity. Qed.

Lemma startsWith_word (w rest : jsstring) :
  match rest with [] => True | d :: _ => isWordChar d = false end →
  ∀ t, Forall (fun c => isWordChar c = true) t →
       startsWith (w ++ rest) t = true → ∃ v, w = t ++ v.
Proof.
  intros Hrest t Ht. revert w. induction Ht as [|t0 t Ht0 _ IH]; intros w Hstarts.
  - now exists w.
  - destruct w as [|x w]; cbn [app] in Hstarts.
    + destruct rest as [|d rest]; cbn in Hstarts; [discriminate|].
      apply andb_prop in Hstarts as [Heq _]. apply N.eqb_eq in Heq. congruence.
    + cbn in Hstarts. apply andb_prop in Hstarts as [Heq Hstarts].
      apply N.eqb_eq in Heq. subst x. destruct (IH w Hstarts) as [v ->]. now exists v.
Qed.

Lemma startsWith_self (t rest : jsstring) : startsWith (t ++ rest) t = true.
Proof. induction t as [|c t IH]; [now destruct rest|]. cbn. now rewrite N.eqb_refl. Qed.

Lemma typo_last : ∃ l, last typo = Some l ∧ isWordChar l = true.
Proof.
  destruct (last typo) as [l|] eqn:Hlast.
  - exists l. split; [reflexivity|].
    rewrite Forall_forall in typo_word. eapply typo_word, last_Some_elem_of, Hlast.
  - now apply last_None in Hlast.
Qed.

Lemma matchesWord_word (before : option N) (x : N) (w rest : jsstring) :
  from_option isWordChar false before = false →
  Forall (fun c => isWordChar c = true) (x :: w) →
  match rest with [] => True | d :: _ => isWordChar d = false end →
  matchesWord typo before ((x :: w) ++ rest) = bool_decide (x :: w = typo).
Proof.
  intros Hbefore Hw Hrest. unfold matchesWord.
  destruct typo_last as (l & Hlast & Hl). rewrite Hlast.
  assert (Hfirst : wordBoundary before (head ((x :: w) ++ rest)) = true).
  { unfold wordBoundary. cbn. inversion Hw; subst. rewrite Hbefore.
    now replace (isWordChar x) with true. }
  rewrite Hfirst. cbn [andb].
  case_bool_decide as Heq.
  - rewrite Heq, startsWith_self, drop_app_length. cbn [andb].
    unfold wordBoundary. cbn [from_option]. rewrite Hl.
    destruct rest as [|d rest]; cbn; [reflexivity | now rewrite Hrest].
  - destruct (startsWith ((x :: w) ++ rest) typo) eqn:Hstarts; [|reflexivity].
    cbn [andb]. destruct (startsWith_word (x :: w) rest Hrest typo typo_word Hstarts)
      as [v Hv].
    rewrite Hv, <- app_assoc, drop_app_length.
    destruct v as [|y v]; [rewrite app_nil_r in Hv; congruence|].
    unfold wordBoundary. cbn. rewrite Hl.
    assert (Hy : isWordChar y = true).
    { rewrite Forall_forall in Hw. apply Hw. rewrite Hv.
      apply elem_of_app. right. apply elem_of_cons. now left. }
    now rewrite Hy.
Qed.

Lemma replaceWord_after (b : N) (rest : jsstring) :
  isWordChar b = true →
  match rest with [] => True | d :: _ => isWordChar d = false end →
  replaceWord typo correction (Some b) rest 0
  = match rest with
    | [] => []
    | d :: rest' => d :: replaceWord typo correction (Some d) rest' 0
    end.
Proof.
  intros Hb Hrest. destruct rest as [|d rest]; [reflexivity|].
  rewrite replaceWord_cons.
  assert (Hno : matchesWord typo (Some b) (d :: rest) = false).
  { unfold matchesWord. destruct typo as [|t0 t] eqn:Ht; [done|].
    inversion typo_word; subst.
    assert (Hne : (t0 =? d)%N = false) by (apply N.eqb_neq; congruence).
    cbn [startsWith]. rewrite Hne. now rewrite andb_false_r. }
  now rewrite Hno.
Qed.

Lemma replaceWord_inside (b : N) (w rest : jsstring) :
  isWordChar b = true →
  Forall (fun c => isWordChar c = true) w →
  match rest with [] => True | d :: _ => isWordChar d = false end →
  replaceWord typo correction (Some b) (w ++ rest) 0
  = w ++ match rest with
         | [] => []
         | d :: rest' => d :: replaceWord typo correction (Some d) rest' 0
         end.
Proof.
  intros Hb Hw Hrest. revert b Hb. induction Hw as [|x w Hx _ IH]; intros b Hb.
  - now apply replaceWord_after.
  - cbn [app]. rewrite replaceWord_cons.
    assert (Hno : matchesWord typo (Some b) (x :: w ++ rest) = false).
    { unfold matchesWord, wordBoundary. cbn. now rewrite Hb, Hx. }
    rewrite Hno. f_equal. now apply IH.
Qed.

Lemma replaceWord_skip (x : N) (u rest : jsstring) :
  isWordChar x = true →
  Forall (fun c => isWordChar c = true) u →
  ∃ b, isWordChar b = true
       ∧ replaceWord typo correction (Some x) (u ++ rest) (length u)
         = replaceWord typo correction (Some b) rest 0.
Proof.
  intros Hx Hu. revert x Hx. induction Hu as [|y u Hy _ IH]; intros x Hx.
  - exists x. split; [exact Hx | reflexivity].
  - destruct (IH y Hy) as (b & Hb & Heq). exists b. split; [exact Hb|]. exact Heq.
Qed.

Lemma replaceWord_word (before : option N) (w rest : jsstring) :
  from_option isWordChar false before = false →
  Forall (fun c => isWordChar c = true) w →
  match rest with [] => True | d :: _ => isWordChar d = false end →
  replaceWord typo correction before (w ++ rest) 0
  = flushWord replaced w
    ++ match rest with
       | [] => []
       | d :: rest' => d :: replaceWord typo correction (Some d) rest' 0
       end.
Proof.
  intros Hbefore Hw Hrest. destruct w as [|x w].
  - destruct rest as [|d rest]; [reflexivity|]. cbn [app flushWord].
    rewrite replaceWord_cons.
    assert (Hno : matchesWord typo before (d :: rest) = false).
    { unfold matchesWord, wordBoundary. cbn. now rewrite Hbefore, Hrest. }
    now rewrite Hno.
  - change ((x :: w) ++ rest) with (x :: (w ++ rest)) at 1. rewrite replaceWord_cons.
    change (x :: (w ++ rest)) with ((x :: w) ++ rest).
    rewrite (matchesWord_word before x w rest Hbefore Hw Hrest).
    inversion Hw as [|? ? Hx Hw']; subst. cbn [flushWord]. unfold replaced.
    case_bool_decide as Heq.
    + f_equal. replace (length typo - 1) with (length w) by (rewrite <- Heq; cbn; lia).
      destruct (replaceWord_skip x w rest Hx Hw') as (b & Hb & ->).
      now apply replaceWord_after.
    + cbn [app]. f_equal. now apply replaceWord_inside.
Qed.

Lemma replaceWord_mapWords (s : jsstring) (before : option N) :
  from_option isWordChar false before = false →
  replaceWord typo correction before s 0 = mapWords replaced [] s.
Proof.
  remember (length s) as n eqn:Hn. revert s before Hn.
  induction n as [n IH] using lt_wf_ind. intros s before Hn Hbefore.
  destruct (words_cut s) as (w & rest & -> & Hw & Hrest & Hlen).
  rewrite (replaceWord_word before w rest Hbefore Hw Hrest).
  rewrite (mapWords_word replaced [] w rest Hw Hrest). cbn [app]. f_equal.
  destruct rest as [|d rest]; [reflexivity|]. f_equal.
  apply (IH (length rest)); [subst n; rewrite length_app; cbn; lia | reflexivity|].
  exact Hrest.
Qed.

End OnePass.

(** *** All the passes *)

Lemma mapWords_same (word s : jsstring) : mapWords (fun w => w) word s = word ++ s.
Proof.
  revert word. induction s as [|c s IH]; intros word; cbn [mapWords].
  - rewrite app_nil_r. now destruct word.
  - destruct (isWordChar c).
    + rewrite IH, <- app_assoc. reflexivity.
    + rewrite IH. now destruct word.
Qed.

Lemma mapWords_ext (f g : jsstring → jsstring) (word s : jsstring) :
  (∀ w, w ≠ [] → Forall (fun c => isWordChar c = true) w → f w = g w) →
  Forall (fun c => isWordChar c = true) word →
  mapWords f word s = mapWords g word s.
Proof.
  intros Hfg. revert word. induction s as [|c s IH]; intros word Hword; cbn [mapWords].
  - destruct word; [reflexivity|]. cbn. now apply Hfg.
  - destruct (isWordChar c) eqn:Hc.
    + apply IH. apply Forall_app. split; [exact Hword | now repeat constructor].
    + rewrite (IH [] ltac:(constructor)). f_equal.
      destruct word; [reflexivity|]. cbn. now apply Hfg.
Qed.

Lemma mapWords_compose (f g : jsstring → jsstring) (s : jsstring) :
  (∀ w, w ≠ [] → Forall (fun c => isWordChar c = true) w →
        f w ≠ [] ∧ Forall (fun c => isWordChar c = true) (f w)) →
  mapWords g [] (mapWords f [] s) = mapWords (fun w => g (f w)) [] s.
Proof.
  intros Hf. remember (length s) as n eqn:Hn. revert s Hn.
  induction n as [n IH] using lt_wf_ind. intros s Hn.
  destruct (words_cut s) as (w & rest & -> & Hw & Hrest & Hlen).
  rewrite !(mapWords_word _ [] w rest Hw Hrest). cbn [app].
  assert (Htail : match rest with
                  | [] => True
                  | d :: rest' =>
                    mapWords g [] (mapWords f [] rest') = mapWords (fun w => g (f w)) [] rest'
                  end).
  { destruct rest as [|d rest]; [exact I|].
    apply (IH (length rest)); [subst n; rewrite length_app; cbn; lia | reflexivity]. }
  destruct w as [|x w]; cbn [flushWord app].
  - destruct rest as [|d rest]; [reflexivity|].
    cbn [mapWords]. rewrite Hrest. cbn [flushWord app]. now rewrite Htail.
  - destruct (Hf (x :: w) ltac:(discriminate) Hw) as [Hne Hword].
    rewrite (mapWords_word g [] (f (x :: w))
               (match rest with [] => [] | d :: rest' => d :: mapWords f [] rest' end)
               Hword).
    + cbn [app]. destruct (f (x :: w)) as [|y fw] eqn:Hfw; [done|]. cbn [flushWord].
      f_equal. destruct rest as [|d rest]; [reflexivity|]. now rewrite Htail.
    + destruct rest as [|d rest]; [exact I | exact Hrest].
Qed.

Lemma passes_mapWords (table : list (jsstring * jsstring)) (s : jsstring) :
  Forall (fun entry => entry.1 ≠ [] ∧ Forall (fun c => isWordChar c = true) entry.1
                       ∧ entry.2 ≠ [] ∧ Forall (fun c => isWordChar c = true) entry.2)
         table →
  foldl (fun processed '(typo, correction) => replaceWord typo correction None processed 0)
        s table
  = mapWords (fun w => foldl (fun w '(typo, correction) =>
                                if bool_decide (w = typo) then correction else w)
                             w table)
             [] s.
Proof.
  intros Htable. revert s.
  induction Htable as [|[typo correction] table (Ht & Htw & Hc & Hcw) _ IH]; intros s.
  - cbn [foldl]. now rewrite mapWords_same.
  - cbn [foldl]. cbn [fst snd] in *.
    rewrite (replaceWord_mapWords typo correction Ht Htw s None eq_refl), IH.
    apply mapWords_compose. intros w Hw Hword.
    case_bool_decide; [now split | now split].
Qed.

Lemma corrections_words :
  Forall (fun entry => entry.1 ≠ [] ∧ Forall (fun c => isWordChar c = true) entry.1
                       ∧ entry.2 ≠ [] ∧ Forall (fun c => isWordChar c = true) entry.2)
         corrections.
Proof. apply (bool_decide_eq_true_1 _). vm_compute. reflexivity. Qed.

Lemma corrections_checked :
  forallb (fun entry : jsstring * jsstring =>
             bool_decide
               (foldl (fun w '(typo, correction) =>
                         if bool_decide (w = typo) then correction else w)
                      entry.1 corrections
                = correctWord entry.1)
             && bool_decide (correctWord entry.2 = entry.2)
             && bool_decide (toLowerCase entry.2 = entry.2))
          corrections
  = true.
Proof. vm_compute. reflexivity. Qed.

Lemma passes_not_key (table : list (jsstring * jsstring)) (w : jsstring) :
  (∀ entry, In entry table → bool_decide (entry.1 = w) = false) →
  foldl (fun w '(typo, correction) => if bool_decide (w = typo) then correction else w)
        w table
  = w.
Proof.
  induction table as [|[typo correction] table IH]; intros Hkeys; [reflexivity|].
  cbn [foldl]. pose proof (Hkeys (typo, correction) (or_introl eq_refl)) as Hne.
  cbn [fst] in Hne. apply bool_decide_eq_false in Hne.
  rewrite bool_decide_eq_false_2 by congruence.
  apply IH. intros entry Hin. apply Hkeys. now right.
Qed.

Lemma passes_correctWord (w : jsstring) :
  foldl (fun w '(typo, correction) => if bool_decide (w = typo) then correction else w)
        w corrections
  = correctWord w.
Proof.
  destruct (find (fun entry : jsstring * jsstring => bool_decide (entry.1 = w)) corrections)
    as [entry|] eqn:Hfind.
  - apply find_some in Hfind as [Hin Hkey]. apply bool_decide_eq_true in Hkey. subst w.
    pose proof corrections_checked as Hall. rewrite forallb_forall in Hall.
    specialize (Hall _ Hin). apply andb_prop in Hall as [Hall _].
    apply andb_prop in Hall as [Hall _]. now apply bool_decide_eq_true in Hall.
  - unfold correctWord. rewrite Hfind. apply passes_not_key.
    intros entry Hin. exact (find_none _ _ Hfind entry Hin).
Qed.

Lemma preprocessMessage_mapWords (message : jsstring) :
  preprocessMessage message = mapWords correctWord [] (toLowerCase message).
Proof.
  unfold preprocessMessage. rewrite (passes_mapWords corrections _ corrections_words).
  apply mapWords_ext; [|constructor]. intros w _ _. apply passes_correctWord.
Qed.

(** X18. [preprocessMessage] corrects the message word by word: the result
    is the lower-cased message in which every word (a maximal run of
    [A-Za-z0-9_]) that is a key of the table is replaced by its correction,
    and everything else is kept; the order of the passes and the text
    around a word play no part. *)
Theorem preprocessMessage_word_by_word (message : jsstring) :
  preprocessMessage message = mapWords correctWord [] (toLowerCase message).
Proof. apply preprocessMessage_mapWords. Qed.

(** *** Normalizing twice *)

Lemma lowerUnit_idem (c : N) : lowerUnit (lowerUnit c) = lowerUnit c.
Proof.
  unfold lowerUnit.
  destruct (((0x41 <=? c)%N && (c <=? 0x5A)%N)
            || ((0xC0 <=? c)%N && (c <=? 0xDE)%N && negb (c =? 0xD7)%N)) eqn:Hc;
    [|now rewrite Hc].
  assert (Hrange : (0x41 ≤ c ≤ 0x5A ∨ 0xC0 ≤ c ≤ 0xDE)%N).
  { apply orb_prop in Hc as [Hc|Hc].
    - apply andb_prop in Hc as [H1 H2]. apply N.leb_le in H1, H2. lia.
    - apply andb_prop in Hc as [Hc _]. apply andb_prop in Hc as [H1 H2].
      apply N.leb_le in H1, H2. lia. }
  assert (Hno : ((0x41 <=? c + 0x20)%N && (c + 0x20 <=? 0x5A)%N)
                || ((0xC0 <=? c + 0x20)%N && (c + 0x20 <=? 0xDE)%N
                    && negb (c + 0x20 =? 0xD7)%N) = false).
  { apply orb_false_intro.
    - apply andb_false_iff. rewrite !N.leb_gt. lia.
    - rewrite <- andb_assoc. apply andb_false_iff. rewrite N.leb_gt.
      destruct Hrange as [Hr|Hr]; [left; lia|].
      right. apply andb_false_iff. rewrite N.leb_gt. left. lia. }
  now rewrite Hno.
Qed.

Lemma correctWord_cases (w : jsstring) :
  correctWord w = w ∨ ∃ entry, In entry corrections ∧ correctWord w = entry.2.
Proof.
  unfold correctWord.
  destruct (find _ corrections) as [entry|] eqn:Hfind; [right | now left].
  exists entry. split; [exact (proj1 (find_some _ _ Hfind)) | reflexivity].
Qed.

Lemma corrections_entry (entry : jsstring * jsstring) :
  In entry corrections →
  entry.2 ≠ [] ∧ Forall (fun c => isWordChar c = true) entry.2
  ∧ correctWord entry.2 = entry.2 ∧ toLowerCase entry.2 = entry.2.
Proof.
  intros Hin. pose proof corrections_words as Hwords. rewrite Forall_forall in Hwords.
  destruct (Hwords entry (proj2 (list_elem_of_In _ _) Hin)) as (_ & _ & Hne & Hword).
  pose proof corrections_checked as Hall. rewrite forallb_forall in Hall.
  specialize (Hall _ Hin). apply andb_prop in Hall as [Hall Hlow].
  apply andb_prop in Hall as [_ Hfix].
  apply bool_decide_eq_true in Hlow, Hfix. now split_and!.
Qed.

Lemma mapWords_lower (word s : jsstring) :
  toLowerCase word = word → toLowerCase s = s →
  toLowerCase (mapWords correctWord word s) = mapWords correctWord word s.
Proof.
  assert (Hflush : ∀ word, toLowerCase word = word →
            toLowerCase (flushWord correctWord word) = flushWord correctWord word).
  { intros [|x w] Hw; [reflexivity|]. cbn [flushWord].
    destruct (correctWord_cases (x :: w)) as [->|(entry & Hin & ->)]; [exact Hw|].
    apply (corrections_entry entry Hin). }
  revert word. induction s as [|c s IH]; intros word Hword Hs; cbn [mapWords].
  - now apply Hflush.
  - unfold toLowerCase in Hs. cbn [map] in Hs. injection Hs as Hc Hs.
    destruct (isWordChar c).
    + apply IH; [|exact Hs]. unfold toLowerCase. rewrite map_app. cbn [map].
      unfold toLowerCase in Hword. now rewrite Hword, Hc.
    + unfold toLowerCase. rewrite map_app. cbn [map].
      fold (toLowerCase (flushWord correctWord word)).
      fold (toLowerCase (mapWords correctWord [] s)).
      now rewrite (Hflush word Hword), Hc, (IH [] eq_refl Hs).
Qed.

(** X19. Normalizing is idempotent: [preprocessMessage] applied to its own
    result changes nothing, no correction of the table being itself a word
    the table corrects. *)
Theorem preprocessMessage_idempotent (message : jsstring) :
  preprocessMessage (preprocessMessage message) = preprocessMessage message.
Proof.
  rewrite !preprocessMessage_mapWords.
  assert (Hlow : toLowerCase (toLowerCase message) = toLowerCase message).
  { unfold toLowerCase. rewrite map_map. apply map_ext. intros c. apply lowerUnit_idem. }
  rewrite (mapWords_lower [] (toLowerCase message) eq_refl Hlow).
  rewrite mapWords_compose.
  - apply mapWords_ext; [|constructor]. intros w _ _.
    destruct (correctWord_cases w) as [Hsame|(entry & Hin & ->)];
      [now rewrite !Hsame|].
    apply (corrections_entry entry Hin).
  - intros w Hne Hword.
    destruct (correctWord_cases w) as [->|(entry & Hin & ->)]; [now split|].
    split; apply (corrections_entry entry Hin).
Qed.

End Normalization.
